(** * database-records-compressor: the grouped compression pipeline

    A shallow embedding of [database_insert.py]: [generate_records], the
    first insert and the grouping loop of [main], the worker functions
    [compress_group] and [decompress_group], the [Pool.map] dispatch, the
    flattening comprehension and the final [sorted(...) == sorted(...)]
    verification, together with the parts of the Python runtime they call
    ([date], [json], [str.encode], [float], [int]), as CPython 3.11 has
    them.

    Python values are modelled as follows.
    - [str] is a list of code points ([N]); [bytes] is a list of [byte].
    - [int] is [Z]; [float] is a binary64 value of [SpecFloat.spec_float].
    - an exception is a constructor of [exn]; a computation that can raise
      returns a [result].
    - a [dict] is an association list in insertion order, which is the
      order [dict.items()] iterates in. *)

From Stdlib Require Import Strings.Byte Strings.Ascii Strings.String.
From Stdlib Require Import ZArith NArith List Bool Lia Permutation.
From Stdlib Require Import Sorting.Sorted.
From Stdlib Require Import Floats.SpecFloat.
From Stdlib Require DecimalFacts DecimalPos DecimalN.
Import ListNotations.

Set Implicit Arguments.

(** ** Exceptions and results *)

Inductive exn : Type :=
  | ZlibError            (* zlib.error *)
  | UnicodeDecodeError
  | UnicodeEncodeError
  | JSONDecodeError
  | ValueError
  | TypeError
  | IndexError
  | KeyError
  | OverflowError
  | CorruptBlobError.    (* named by the specification; nothing raises it *)

Inductive result (A : Type) : Type :=
  | Ok (a : A)
  | Raise (e : exn).

Arguments Ok {A} a.
Arguments Raise {A} e.

Definition bind {A B : Type} (m : result A) (k : A -> result B) : result B :=
  match m with
  | Ok a => k a
  | Raise e => Raise e
  end.

Notation "x <- m ;; k" := (bind m (fun x => k))
  (at level 61, m at next level, right associativity).
Notation "' p <- m ;; k" := (bind m (fun v => let p := v in k))
  (at level 61, p pattern, m at next level, right associativity).

(** [for x in xs: ys.append(f(x))], stopping at the first exception. *)
Fixpoint mapM {A B : Type} (f : A -> result B) (xs : list A) : result (list B) :=
  match xs with
  | [] => Ok []
  | x :: xs' => y <- f x ;; ys <- mapM f xs' ;; Ok (y :: ys)
  end.

(** ** Text and bytes *)

Definition str : Type := list N.
Definition bytes : Type := list byte.

(** A Rocq string literal read as a Python [str] of the same characters. *)
Definition lit (s : String.string) : str :=
  map N_of_ascii (String.list_ascii_of_string s).

Arguments lit s%_string.

Definition str_eqb (a b : str) : bool :=
  if list_eq_dec N.eq_dec a b then true else false.

(** ** [datetime.date] *)

Local Open Scope Z_scope.

Record date : Type := mkdate { year : Z; month : Z; day : Z }.

Definition is_leap (y : Z) : bool :=
  (y mod 4 =? 0) && (negb (y mod 100 =? 0) || (y mod 400 =? 0)).

Definition days_in_month (y m : Z) : Z :=
  if m =? 2 then (if is_leap y then 29 else 28)
  else if (m =? 4) || (m =? 6) || (m =? 9) || (m =? 11) then 30
  else 31.

(** The check made by the [date(year, month, day)] constructor; every
    [date] object of a running program satisfies it. *)
Definition valid_date (d : date) : bool :=
  (1 <=? year d) && (year d <=? 9999) &&
  (1 <=? month d) && (month d <=? 12) &&
  (1 <=? day d) && (day d <=? days_in_month (year d) (month d)).

Definition date_eqb (a b : date) : bool :=
  (year a =? year b) && (month a =? month b) && (day a =? day b).

(** ** Decimal digits and [int]

    [repr] of an [int] and [int(text)] for ASCII decimal text go through
    the standard library's decimal numerals. *)

Definition is_digit (c : N) : bool := (48 <=? c)%N && (c <=? 57)%N.

Fixpoint str_of_uint (u : Decimal.uint) : str :=
  match u with
  | Decimal.Nil => []
  | Decimal.D0 u => 48%N :: str_of_uint u
  | Decimal.D1 u => 49%N :: str_of_uint u
  | Decimal.D2 u => 50%N :: str_of_uint u
  | Decimal.D3 u => 51%N :: str_of_uint u
  | Decimal.D4 u => 52%N :: str_of_uint u
  | Decimal.D5 u => 53%N :: str_of_uint u
  | Decimal.D6 u => 54%N :: str_of_uint u
  | Decimal.D7 u => 55%N :: str_of_uint u
  | Decimal.D8 u => 56%N :: str_of_uint u
  | Decimal.D9 u => 57%N :: str_of_uint u
  end.

(** The numeral spelled by a run of digit characters; a character that is
    not a digit ends it. *)
Fixpoint uint_of_str (s : str) : Decimal.uint :=
  match s with
  | [] => Decimal.Nil
  | c :: s' =>
      let u := uint_of_str s' in
      if (c =? 48)%N then Decimal.D0 u
      else if (c =? 49)%N then Decimal.D1 u
      else if (c =? 50)%N then Decimal.D2 u
      else if (c =? 51)%N then Decimal.D3 u
      else if (c =? 52)%N then Decimal.D4 u
      else if (c =? 53)%N then Decimal.D5 u
      else if (c =? 54)%N then Decimal.D6 u
      else if (c =? 55)%N then Decimal.D7 u
      else if (c =? 56)%N then Decimal.D8 u
      else if (c =? 57)%N then Decimal.D9 u
      else Decimal.Nil
  end.

(** [str(n)] for [n >= 0] and the value of a run of digits. *)
Definition N_repr (n : N) : str := str_of_uint (N.to_uint n).
Definition N_of_digits (s : str) : N := N.of_uint (uint_of_str s).

(** The decimal text of an [int]: a minus sign for a negative number, then
    the digits of its absolute value. *)
Definition long_to_decimal_string (z : Z) : str :=
  match z with
  | Z0 => N_repr 0
  | Zpos p => N_repr (Npos p)
  | Zneg p => 45%N :: N_repr (Npos p)
  end.

(** [sys.get_int_max_str_digits()]: since CPython 3.11 a conversion between
    [int] and decimal text raises [ValueError] when more than this many
    digits are involved.  4300 is the default, which the program does not
    change. *)
Definition max_str_digits : nat := 4300.

(** The number of decimal digits of [z], the sign not counted. *)
Definition str_digits (z : Z) : nat := length (N_repr (Z.abs_N z)).

Definition int_ok (z : Z) : bool := (str_digits z <=? max_str_digits)%nat.

(** [int.__repr__]. *)
Definition int_repr (z : Z) : result str :=
  if int_ok z then Ok (long_to_decimal_string z) else Raise ValueError.

(** ** [date.isoformat] and [date.fromisoformat] *)

Definition digit (d : Z) : N := Z.to_N (48 + d).

Definition digit_val (c : N) : option Z :=
  if is_digit c then Some (Z.of_N c - 48) else None.

(** ["%04d-%02d-%02d" % (year, month, day)]. *)
Definition isoformat (d : date) : str :=
  [ digit (year d / 1000 mod 10); digit (year d / 100 mod 10);
    digit (year d / 10 mod 10); digit (year d mod 10);
    45%N;
    digit (month d / 10 mod 10); digit (month d mod 10);
    45%N;
    digit (day d / 10 mod 10); digit (day d mod 10) ].

(** The constructor [date(year, month, day)]. *)
Definition date_new (y m d : Z) : result date :=
  if valid_date (mkdate y m d) then Ok (mkdate y m d) else Raise ValueError.

(** [date.fromisoformat(s)] for the format [YYYY-MM-DD]: ten characters,
    ASCII digits around two hyphens, then the constructor's range check.
    The further ISO 8601 spellings accepted from Python 3.11 on (basic
    format, week dates) are not modelled; [isoformat] never produces them. *)
Definition fromisoformat (s : str) : result date :=
  match s with
  | [y1; y2; y3; y4; s1; m1; m2; s2; d1; d2] =>
      match digit_val y1, digit_val y2, digit_val y3, digit_val y4,
            digit_val m1, digit_val m2, digit_val d1, digit_val d2 with
      | Some a, Some b, Some c, Some d, Some e, Some f, Some g, Some h =>
          if (s1 =? 45)%N && (s2 =? 45)%N
          then date_new (1000 * a + 100 * b + 10 * c + d) (10 * e + f) (10 * g + h)
          else Raise ValueError
      | _, _, _, _, _, _, _, _ => Raise ValueError
      end
  | _ => Raise ValueError
  end.

(** ** [float]

    A [float] is an IEEE 754 binary64 number, [spec_float] with precision 53
    and [emax = 1024].  Two conversions of the runtime are needed:
    [float(text)], which returns the binary64 number nearest to the decimal
    (ties to even), and [repr(x)], which prints the shortest decimal that
    [float] reads back as [x]. *)

Definition float_eqb (a b : spec_float) : bool :=
  match a, b with
  | S754_zero s, S754_zero s' => Bool.eqb s s'
  | S754_infinity s, S754_infinity s' => Bool.eqb s s'
  | S754_nan, S754_nan => true
  | S754_finite s m e, S754_finite s' m' e' =>
      Bool.eqb s s' && Pos.eqb m m' && Z.eqb e e'
  | _, _ => false
  end.

(** The binary64 number nearest to [(-1)^s * c * 10^x]. *)
Definition float_of_decimal (s : bool) (c : N) (x : Z) : spec_float :=
  match c with
  | N0 => S754_zero s
  | Npos p =>
      if 0 <=? x then binary_round 53 1024 s (Z.to_pos (Zpos p * 10 ^ x)) 0
      else
        let '(mz, ez, lz) :=
          SFdiv_core_binary 53 1024 (Zpos p) 0 (10 ^ (- x)) 0 in
        binary_round_aux 53 1024 s mz ez lz
  end.

Definition nb_decimal_digits (n : Z) : Z :=
  Z.of_nat (Decimal.nb_digits (N.to_uint (Z.to_N n))).

(** [decpt] of a positive rational [num / den]: the [k] with
    [10^(k-1) <= num/den < 10^k]. *)
Definition decimal_point (num den : Z) : Z :=
  let k0 := nb_decimal_digits num - nb_decimal_digits den in
  let below := if 0 <=? k0 then num <? den * 10 ^ k0
               else num * 10 ^ (- k0) <? den in
  if below then k0 else k0 + 1.

(** The shortest digit string that [float] reads back as the finite number
    [m * 2^e], as its coefficient and decimal exponent.  A decimal reads
    back as that number when it lies between the midpoints to its two
    neighbours, the midpoints included when [m] is even (ties go to the
    even mantissa).  [v] is the number and [below], [above] are the
    distances to the two midpoints, all three in units of [2^-sh].  For
    [n = 1, 2, ...] the largest [n]-digit decimal [lo] not above [v] and
    its successor are tried; of two that fit the nearer is taken, the even
    one in a tie.  Seventeen digits always suffice. *)
Fixpoint shortest_from (fuel : nat) (n : Z) (closed : bool)
         (v below above sh k : Z) : Z * Z :=
  let x := k - n in
  let S := if x <? 0 then 10 ^ (- x) else 1 in
  let T := if x <? 0 then 1 else 10 ^ x in
  let lo := Z.shiftr (S * v) sh / T in
  let rem := S * v - Z.shiftl (T * lo) sh in
  let unit := Z.shiftl T sh in
  let ok_lo := if closed then rem <=? S * below else rem <? S * below in
  let ok_hi := if closed then unit - rem <=? S * above
               else unit - rem <? S * above in
  let nearest :=
    match 2 * rem ?= unit with
    | Lt => lo
    | Gt => lo + 1
    | Eq => if Z.even lo then lo else lo + 1
    end in
  match fuel with
  | O => (nearest, x)
  | S fuel' =>
      if ok_lo && ok_hi then (nearest, x)
      else if ok_lo then (lo, x)
      else if ok_hi then (lo + 1, x)
      else shortest_from fuel' (n + 1) closed v below above sh k
  end.

(** The gap below a power of two is half the gap above it, except at the
    smallest normal number. *)
Definition shortest_decimal (s : bool) (m : positive) (e : Z) : Z * Z :=
  let up := if 2 <=? e then 2 ^ (e - 2) else 1 in
  let sh := if 2 <=? e then 0 else 2 - e in
  let below := if (Zpos m =? 2 ^ 52) && (-1074 <? e) then 1 else 2 in
  let v := 4 * Zpos m * up in
  let whole := Z.shiftr v sh in
  let k := if 0 <? whole then nb_decimal_digits whole
           else decimal_point v (2 ^ sh) in
  shortest_from 16 1 (Z.even (Zpos m)) v (below * up) (2 * up) sh k.

Fixpoint strip_trailing_zeros_rev (r : str) : str :=
  match r with
  | c :: r' => if (c =? 48)%N then strip_trailing_zeros_rev r' else r
  | [] => []
  end.

Definition strip_trailing_zeros (ds : str) : str :=
  match rev (strip_trailing_zeros_rev (rev ds)) with
  | [] => [48%N]
  | ds' => ds'
  end.

Definition zeros (n : Z) : str := repeat 48%N (Z.to_nat n).

(** [format_float_short] for [repr]: the digits [ds] with the decimal point
    after [decpt] of them; exponent notation when [decpt <= -4] or
    [decpt > 16]; a fraction part is always written in positional notation. *)
Definition format_digits (ds : str) (decpt : Z) : str :=
  let L := Z.of_nat (length ds) in
  if (decpt <=? -4) || (16 <? decpt) then
    let mant := match ds with
                | [] => []
                | d :: [] => [d]
                | d :: rest => d :: 46%N :: rest
                end in
    let ex := decpt - 1 in
    let exs := N_repr (Z.to_N (Z.abs ex)) in
    let exs := if Z.abs ex <? 10 then 48%N :: exs else exs in
    mant ++ [101%N; if ex <? 0 then 45%N else 43%N] ++ exs
  else if decpt <=? 0 then
    [48%N; 46%N] ++ zeros (- decpt) ++ ds
  else if L <=? decpt then
    ds ++ zeros (decpt - L) ++ [46%N; 48%N]
  else
    firstn (Z.to_nat decpt) ds ++ [46%N] ++ skipn (Z.to_nat decpt) ds.

(** [float.__repr__] of a finite number. *)
Definition float_repr (f : spec_float) : str :=
  match f with
  | S754_zero s => (if s then [45%N] else []) ++ lit "0.0"
  | S754_finite s m e =>
      let '(c, x) := shortest_decimal s m e in
      let all := N_repr (Z.to_N c) in
      let ds := strip_trailing_zeros all in
      (if s then [45%N] else []) ++
      format_digits ds (x + Z.of_nat (length all))
  | S754_infinity s => (if s then [45%N] else []) ++ lit "inf"
  | S754_nan => lit "nan"
  end.

(** [float(text)] for the text of a JSON number: an optional sign, the
    integer digits, the fraction digits and the exponent. *)
Definition float_of_parts (neg : bool) (int_digits frac_digits : str)
           (exp_neg : bool) (exp_digits : str) : spec_float :=
  let c := N_of_digits (int_digits ++ frac_digits) in
  let ex := Z.of_N (N_of_digits exp_digits) in
  let ex := if exp_neg then - ex else ex in
  float_of_decimal neg c (ex - Z.of_nat (length frac_digits)).

(** ** Python values

    The values [json.loads] can return, and [date]. A tuple and a list are
    both a [list pyval]; which one is meant is said where it matters. *)

#[local] Set Warnings "-register-all".

Inductive pyval : Type :=
  | PNone
  | PBool (b : bool)
  | PInt (z : Z)
  | PFloat (f : spec_float)
  | PStr (s : str)
  | PList (l : list pyval)
  | PDict (d : list (str * pyval))
  | PDate (d : date).

Definition tuple : Type := list pyval.

(** ** [json.dumps]

    The encoder with its default settings: [ensure_ascii=True],
    [allow_nan=True], separators [", "] and [": "]. *)

Definition hex_digit (n : N) : N := (if n <? 10 then 48 + n else 87 + n)%N.

Definition hex4 (n : N) : str :=
  [ hex_digit ((n / 4096) mod 16); hex_digit ((n / 256) mod 16);
    hex_digit ((n / 16) mod 16); hex_digit (n mod 16) ]%N.

(** One character of [py_encode_basestring_ascii]. *)
Definition escape_char (c : N) : str :=
  (if c =? 34 then [92; 34]
   else if c =? 92 then [92; 92]
   else if c =? 10 then [92; 110]
   else if c =? 13 then [92; 114]
   else if c =? 9 then [92; 116]
   else if c =? 8 then [92; 98]
   else if c =? 12 then [92; 102]
   else if (32 <=? c) && (c <=? 126) then [c]
   else if c <? 65536 then [92; 117] ++ hex4 c
   else
     let v := c - 65536 in
     [92; 117] ++ hex4 (55296 + v / 1024) ++
     [92; 117] ++ hex4 (56320 + v mod 1024))%N.

Definition encode_basestring_ascii (s : str) : str :=
  [34%N] ++ flat_map escape_char s ++ [34%N].

(** [floatstr] of the encoder. *)
Definition floatstr (f : spec_float) : str :=
  match f with
  | S754_nan => lit "NaN"
  | S754_infinity false => lit "Infinity"
  | S754_infinity true => lit "-Infinity"
  | _ => float_repr f
  end.

(** [sep.join(items)]. *)
Fixpoint join (sep : str) (items : list str) : str :=
  match items with
  | [] => []
  | [x] => x
  | x :: rest => x ++ sep ++ join sep rest
  end.

Fixpoint json_encode (v : pyval) : result str :=
  match v with
  | PNone => Ok (lit "null")
  | PBool true => Ok (lit "true")
  | PBool false => Ok (lit "false")
  | PInt z => int_repr z
  | PFloat f => Ok (floatstr f)
  | PStr s => Ok (encode_basestring_ascii s)
  | PList l =>
      items <- (fix encode_items (l : list pyval) : result (list str) :=
                  match l with
                  | [] => Ok []
                  | x :: l' =>
                      a <- json_encode x ;;
                      b <- encode_items l' ;;
                      Ok (a :: b)
                  end) l ;;
      Ok ([91%N] ++ join (lit ", ") items ++ [93%N])
  | PDict d =>
      items <- (fix encode_pairs (d : list (str * pyval)) : result (list str) :=
                  match d with
                  | [] => Ok []
                  | (k, x) :: d' =>
                      a <- json_encode x ;;
                      b <- encode_pairs d' ;;
                      Ok ((encode_basestring_ascii k ++ lit ": " ++ a) :: b)
                  end) d ;;
      Ok ([123%N] ++ join (lit ", ") items ++ [125%N])
  | PDate _ => Raise TypeError   (* not JSON serializable *)
  end.

Definition json_dumps (v : pyval) : result str := json_encode v.

(** ** [json.loads]

    The decoder as the C scanner implements it: ASCII digits only, strict
    strings (no raw control characters).  [fuel] is only there to make the
    definition structural, and [json_loads] supplies more than any input
    can use.  One limit of the interpreter is left out: the scanner counts
    every array and object it enters against the recursion limit, and text
    nested more deeply than the stack of the calling process allows
    (about a thousand levels) raises [RecursionError].  The text of a
    group is nested two levels deep. *)

Definition is_ws (c : N) : bool :=
  ((c =? 32) || (c =? 9) || (c =? 10) || (c =? 13))%N.

Fixpoint skip_ws (s : str) : str :=
  match s with
  | c :: s' => if is_ws c then skip_ws s' else s
  | [] => []
  end.

Definition hex_val (c : N) : option N :=
  (if is_digit c then Some (c - 48)
   else if (97 <=? c) && (c <=? 102) then Some (c - 87)
   else if (65 <=? c) && (c <=? 70) then Some (c - 55)
   else None)%N.

Definition decode_hex4 (a b c d : N) : option N :=
  match hex_val a, hex_val b, hex_val c, hex_val d with
  | Some a, Some b, Some c, Some d => Some (((a * 16 + b) * 16 + c) * 16 + d)%N
  | _, _, _, _ => None
  end.

Definition is_high_surrogate (c : N) : bool := ((55296 <=? c) && (c <=? 56319))%N.
Definition is_low_surrogate (c : N) : bool := ((56320 <=? c) && (c <=? 57343))%N.

Definition simple_escape (e : N) : option N :=
  (if e =? 34 then Some 34
   else if e =? 92 then Some 92
   else if e =? 47 then Some 47
   else if e =? 98 then Some 8
   else if e =? 102 then Some 12
   else if e =? 110 then Some 10
   else if e =? 114 then Some 13
   else if e =? 116 then Some 9
   else None)%N.

(** [scanstring(s, end, strict=True)], called just after the opening quote:
    the decoded string and the text after the closing quote. *)
Fixpoint scanstring (s : str) : result (str * str) :=
  match s with
  | [] => Raise JSONDecodeError
  | c :: s1 =>
      if (c =? 34)%N then Ok ([], s1)
      else if (c <? 32)%N then Raise JSONDecodeError
      else if negb (c =? 92)%N then
        '(t, r) <- scanstring s1 ;; Ok (c :: t, r)
      else
        match s1 with
        | [] => Raise JSONDecodeError
        | e :: s2 =>
            if negb (e =? 117)%N then
              match simple_escape e with
              | Some ch => '(t, r) <- scanstring s2 ;; Ok (ch :: t, r)
              | None => Raise JSONDecodeError
              end
            else
              match s2 with
              | h1 :: h2 :: h3 :: h4 :: s3 =>
                  match decode_hex4 h1 h2 h3 h4 with
                  | None => Raise JSONDecodeError
                  | Some uni =>
                      match s3 with
                      | b :: u :: s4 =>
                          if is_high_surrogate uni && (b =? 92)%N && (u =? 117)%N
                          then
                            match s4 with
                            | g1 :: g2 :: g3 :: g4 :: s5 =>
                                match decode_hex4 g1 g2 g3 g4 with
                                | None => Raise JSONDecodeError
                                | Some uni2 =>
                                    if is_low_surrogate uni2 then
                                      '(t, r) <- scanstring s5 ;;
                                      Ok ((65536 + (uni - 55296) * 1024
                                           + (uni2 - 56320))%N :: t, r)
                                    else
                                      '(t, r) <- scanstring s3 ;;
                                      Ok (uni :: t, r)
                                end
                            | _ => Raise JSONDecodeError
                            end
                          else '(t, r) <- scanstring s3 ;; Ok (uni :: t, r)
                      | _ => '(t, r) <- scanstring s3 ;; Ok (uni :: t, r)
                      end
                  end
              | _ => Raise JSONDecodeError
              end
        end
  end.

Fixpoint span_digits (s : str) : str * str :=
  match s with
  | c :: s' =>
      if is_digit c then let '(d, r) := span_digits s' in (c :: d, r)
      else ([], s)
  | [] => ([], [])
  end.

(** [_match_number]: an optional minus sign; a single zero or a run of
    digits not starting with zero; optionally a dot and at least one digit;
    optionally [e] or [E], an optional sign and at least one digit.  The
    value is [int] of the text when there is neither fraction nor exponent
    and [float] of it otherwise. *)
Definition scan_sign (s : str) : bool * str :=
  match s with
  | c :: s' => if (c =? 45)%N then (true, s') else (false, s)
  | [] => (false, s)
  end.

Definition scan_int (s : str) : option (str * str) :=
  match s with
  | [] => None
  | c :: s' =>
      if negb (is_digit c) then None
      else if (c =? 48)%N then Some ([c], s')
      else let '(d, r) := span_digits s' in Some (c :: d, r)
  end.

Definition scan_frac (s : str) : option str * str :=
  match s with
  | dot :: d1 :: s' =>
      if (dot =? 46)%N && is_digit d1
      then let '(d, r) := span_digits s' in (Some (d1 :: d), r)
      else (None, s)
  | _ => (None, s)
  end.

Definition scan_exp_sign (s : str) : bool * str :=
  match s with
  | sg :: t =>
      if (sg =? 45)%N then (true, t)
      else if (sg =? 43)%N then (false, t)
      else (false, s)
  | [] => (false, s)
  end.

Definition scan_exp (s : str) : option (bool * str) * str :=
  match s with
  | e :: s' =>
      if (e =? 101)%N || (e =? 69)%N then
        let '(eneg, s'') := scan_exp_sign s' in
        match span_digits s'' with
        | ([], _) => (None, s)
        | (d, r) => (Some (eneg, d), r)
        end
      else (None, s)
  | [] => (None, s)
  end.

(** [int(text)] on the digits of an integer literal raises [ValueError]
    when there are more than [max_str_digits] of them; [float(text)] has no
    such limit. *)
Definition number_value (neg : bool) (intd : str) (frac : option str)
           (ex : option (bool * str)) : result pyval :=
  match frac, ex with
  | None, None =>
      if (max_str_digits <? length intd)%nat then Raise ValueError
      else
        let n := Z.of_N (N_of_digits intd) in
        Ok (PInt (if neg then - n else n))
  | _, _ =>
      let fd := match frac with Some d => d | None => [] end in
      let '(eneg, ed) := match ex with Some p => p | None => (false, []) end in
      Ok (PFloat (float_of_parts neg intd fd eneg ed))
  end.

(** [None] where the text does not start with a number; otherwise the
    value of the number, or the exception its conversion raises, and the
    text after it. *)
Definition match_number (s : str) : option (result (pyval * str)) :=
  let '(neg, s1) := scan_sign s in
  match scan_int s1 with
  | None => None
  | Some (intd, s3) =>
      let '(frac, s4) := scan_frac s3 in
      let '(ex, s5) := scan_exp s4 in
      Some (v <- number_value neg intd frac ex ;; Ok (v, s5))
  end.

(** [s.startswith(p)]: the rest of [s] after the prefix [p]. *)
Fixpoint strip_prefix (p s : str) : option str :=
  match p, s with
  | [], _ => Some s
  | a :: p', b :: s' => if (a =? b)%N then strip_prefix p' s' else None
  | _ :: _, [] => None
  end.

(** [dict(pairs)]: a later pair with a key already present replaces the
    value and keeps the place of the first. *)
Fixpoint dict_set (k : str) (v : pyval) (d : list (str * pyval))
  : list (str * pyval) :=
  match d with
  | [] => [(k, v)]
  | (k', v') :: d' =>
      if str_eqb k k' then (k', v) :: d' else (k', v') :: dict_set k v d'
  end.

Definition dict_of_pairs (pairs : list (str * pyval)) : list (str * pyval) :=
  fold_left (fun d kv => dict_set (fst kv) (snd kv) d) pairs [].

Definition scan_constant (s : str) : result (pyval * str) :=
  match strip_prefix (lit "null") s with
  | Some r => Ok (PNone, r)
  | None =>
  match strip_prefix (lit "true") s with
  | Some r => Ok (PBool true, r)
  | None =>
  match strip_prefix (lit "false") s with
  | Some r => Ok (PBool false, r)
  | None =>
  match strip_prefix (lit "-Infinity") s with
  | Some r => Ok (PFloat (S754_infinity true), r)
  | None =>
  match match_number s with
  | Some vr => vr
  | None =>
  match strip_prefix (lit "NaN") s with
  | Some r => Ok (PFloat S754_nan, r)
  | None =>
  match strip_prefix (lit "Infinity") s with
  | Some r => Ok (PFloat (S754_infinity false), r)
  | None => Raise JSONDecodeError
  end end end end end end end.

Fixpoint scan_once (fuel : nat) (s : str) {struct fuel} : result (pyval * str) :=
  match fuel with
  | O => Raise JSONDecodeError
  | S fuel' =>
      match s with
      | [] => Raise JSONDecodeError
      | c :: s1 =>
          if (c =? 34)%N then
            '(t, r) <- scanstring s1 ;; Ok (PStr t, r)
          else if (c =? 91)%N then
            match skip_ws s1 with
            | c2 :: s2 =>
                if (c2 =? 93)%N then Ok (PList [], s2)
                else '(vs, r) <- parse_array fuel' (c2 :: s2) ;; Ok (PList vs, r)
            | [] => Raise JSONDecodeError
            end
          else if (c =? 123)%N then
            match skip_ws s1 with
            | c2 :: s2 =>
                if (c2 =? 125)%N then Ok (PDict [], s2)
                else '(ps, r) <- parse_object fuel' (c2 :: s2) ;;
                     Ok (PDict (dict_of_pairs ps), r)
            | [] => Raise JSONDecodeError
            end
          else scan_constant s
      end
  end
with parse_array (fuel : nat) (s : str) {struct fuel}
  : result (list pyval * str) :=
  match fuel with
  | O => Raise JSONDecodeError
  | S fuel' =>
      '(v, s1) <- scan_once fuel' s ;;
      match skip_ws s1 with
      | c :: s2 =>
          if (c =? 93)%N then Ok ([v], s2)
          else if (c =? 44)%N then
            '(vs, r) <- parse_array fuel' (skip_ws s2) ;; Ok (v :: vs, r)
          else Raise JSONDecodeError
      | [] => Raise JSONDecodeError
      end
  end
with parse_object (fuel : nat) (s : str) {struct fuel}
  : result (list (str * pyval) * str) :=
  match fuel with
  | O => Raise JSONDecodeError
  | S fuel' =>
      match s with
      | q :: s0 =>
          if negb (q =? 34)%N then Raise JSONDecodeError
          else
            '(k, s1) <- scanstring s0 ;;
            match skip_ws s1 with
            | c :: s2 =>
                if negb (c =? 58)%N then Raise JSONDecodeError
                else
                  '(v, s3) <- scan_once fuel' (skip_ws s2) ;;
                  match skip_ws s3 with
                  | c' :: s4 =>
                      if (c' =? 125)%N then Ok ([(k, v)], s4)
                      else if (c' =? 44)%N then
                        '(ps, r) <- parse_object fuel' (skip_ws s4) ;;
                        Ok ((k, v) :: ps, r)
                      else Raise JSONDecodeError
                  | [] => Raise JSONDecodeError
                  end
            | [] => Raise JSONDecodeError
            end
      | [] => Raise JSONDecodeError
      end
  end.

Definition json_loads (s : str) : result pyval :=
  match s with
  | 65279%N :: _ => Raise JSONDecodeError        (* unexpected UTF-8 BOM *)
  | _ =>
      '(v, r) <- scan_once (S (length s)) (skip_ws s) ;;
      match skip_ws r with
      | [] => Ok v
      | _ :: _ => Raise JSONDecodeError            (* extra data *)
      end
  end.

(** ** [str.encode('utf-8')] and [bytes.decode('utf-8')] *)

Definition byte_of_N (n : N) : byte :=
  match Byte.of_N n with Some b => b | None => x00 end.

Definition utf8_char (c : N) : result bytes :=
  (if c <? 128 then Ok [byte_of_N c]
   else if c <? 2048 then
     Ok [byte_of_N (192 + c / 64); byte_of_N (128 + c mod 64)]
   else if c <? 65536 then
     if (55296 <=? c) && (c <=? 57343) then Raise UnicodeEncodeError
     else Ok [byte_of_N (224 + c / 4096); byte_of_N (128 + (c / 64) mod 64);
              byte_of_N (128 + c mod 64)]
   else if c <? 1114112 then
     Ok [byte_of_N (240 + c / 262144); byte_of_N (128 + (c / 4096) mod 64);
         byte_of_N (128 + (c / 64) mod 64); byte_of_N (128 + c mod 64)]
   else Raise UnicodeEncodeError)%N.

Definition utf8_encode (s : str) : result bytes :=
  chunks <- mapM utf8_char s ;; Ok (concat chunks).

Definition in_range (lo hi n : N) : bool := ((lo <=? n) && (n <=? hi))%N.

(** Strict UTF-8: shortest forms only, no surrogates, nothing above
    U+10FFFF. *)
Fixpoint utf8_decode (b : bytes) : result str :=
  match b with
  | [] => Ok []
  | b0 :: r =>
      let n0 := Byte.to_N b0 in
      if (n0 <? 128)%N then s <- utf8_decode r ;; Ok (n0 :: s)
      else if in_range 194 223 n0 then
        match r with
        | b1 :: r1 =>
            let n1 := Byte.to_N b1 in
            if in_range 128 191 n1 then
              s <- utf8_decode r1 ;;
              Ok (((n0 - 192) * 64 + (n1 - 128))%N :: s)
            else Raise UnicodeDecodeError
        | _ => Raise UnicodeDecodeError
        end
      else if in_range 224 239 n0 then
        match r with
        | b1 :: b2 :: r2 =>
            let n1 := Byte.to_N b1 in
            let n2 := Byte.to_N b2 in
            let lo := (if n0 =? 224 then 160 else 128)%N in
            let hi := (if n0 =? 237 then 159 else 191)%N in
            if in_range lo hi n1 && in_range 128 191 n2 then
              s <- utf8_decode r2 ;;
              Ok ((((n0 - 224) * 64 + (n1 - 128)) * 64 + (n2 - 128))%N :: s)
            else Raise UnicodeDecodeError
        | _ => Raise UnicodeDecodeError
        end
      else if in_range 240 244 n0 then
        match r with
        | b1 :: b2 :: b3 :: r3 =>
            let n1 := Byte.to_N b1 in
            let n2 := Byte.to_N b2 in
            let n3 := Byte.to_N b3 in
            let lo := (if n0 =? 240 then 144 else 128)%N in
            let hi := (if n0 =? 244 then 143 else 191)%N in
            if in_range lo hi n1 && in_range 128 191 n2 && in_range 128 191 n3
            then
              s <- utf8_decode r3 ;;
              Ok (((((n0 - 240) * 64 + (n1 - 128)) * 64 + (n2 - 128)) * 64
                   + (n3 - 128))%N :: s)
            else Raise UnicodeDecodeError
        | _ => Raise UnicodeDecodeError
        end
      else Raise UnicodeDecodeError
  end.

(** ** [zlib]

    The compression library is outside the repository.  The model takes its
    two entry points as they are; [zlib_lossless] is the contract the
    pipeline relies on.  [decompress] returns [None] where the library
    raises [zlib.error]. *)

Record zlib_module : Type := {
  compress : bytes -> bytes;
  decompress : bytes -> option bytes
}.

Definition zlib_lossless (zlib : zlib_module) : Prop :=
  forall data, decompress zlib (compress zlib data) = Some data.

Definition zlib_decompress (zlib : zlib_module) (data : bytes) : result bytes :=
  match decompress zlib data with
  | Some d => Ok d
  | None => Raise ZlibError
  end.

(** ** Records

    One record is the 5-tuple built by [generate_records]:
    [(date, 'BUY'|'SELL', symbol, qty, price)], the columns of the
    [stocks] table. *)

Record record : Type := mkrecord {
  rec_date : date;          (* r[0] *)
  trans    : str;           (* r[1] *)
  symbol   : str;           (* r[2] *)
  qty      : Z;             (* r[3] *)
  price    : spec_float     (* r[4] *)
}.

(** ** The grouping loop of [main]

<<
    grouped_records = defaultdict(list)
    for rec in records:
        grouped_records[rec[0]].append(rec)
>>
*)

Definition group : Type := (date * list record)%type.
Definition groups : Type := list group.

(** [d[k].append(r)] on a [defaultdict(list)]: an existing key keeps its
    position and its list grows at the end; a missing key is inserted last
    with the one-element list. *)
Fixpoint dict_append (k : date) (r : record) (d : groups) : groups :=
  match d with
  | [] => [(k, [r])]
  | (k', rs) :: d' =>
      if date_eqb k k' then (k', rs ++ [r]) :: d'
      else (k', rs) :: dict_append k r d'
  end.

Definition grouped_records (records : list record) : groups :=
  fold_left (fun d rec => dict_append (rec_date rec) rec d) records [].

(** The records of [records] whose date is [k], in input order. *)
Definition on_date (k : date) (records : list record) : list record :=
  filter (fun r => date_eqb (rec_date r) k) records.

Definition group_sizes (d : groups) : nat :=
  fold_right (fun g n => (length (snd g) + n)%nat) 0%nat d.

Definition flatten {A : Type} (ls : list (list A)) : list A := concat ls.

(** ** [multiprocessing.Pool.map]

    [pool.map(func, iterable)] cuts the items into chunks, hands every chunk
    to a worker, which runs [list(map(func, chunk))], and stores the result
    of chunk [i] into its slice of a preallocated list as soon as that chunk
    completes.  Chunks complete in an order the program does not control:
    the completion order is the argument [order] below.

<<
    def _map_async(self, func, iterable, mapper, chunksize=None, ...):
        if chunksize is None:
            chunksize, extra = divmod(len(iterable), len(self._pool) * 4)
            if extra:
                chunksize += 1
        if len(iterable) == 0:
            chunksize = 0
        task_batches = Pool._get_tasks(func, iterable, chunksize)
        result = MapResult(self, chunksize, len(iterable), ...)

    class MapResult:
        def __init__(...):
            self._success = True
            self._value = [None] * length
        def _set(self, i, success_result):
            success, result = success_result
            if success and self._success:
                self._value[i*self._chunksize:(i+1)*self._chunksize] = result
            else:
                if not success and self._success:
                    # only store first exception
                    self._success = False
                    self._value = result
        def get(self):
            if self._success: return self._value
            else: raise self._value
>>
*)

Section PoolMap.

Variables A B : Type.

Definition map_chunksize (processes len : nat) : nat :=
  let chunksize := Nat.div len (processes * 4) in
  let extra := Nat.modulo len (processes * 4) in
  let chunksize := if Nat.eqb extra 0 then chunksize else S chunksize in
  if Nat.eqb len 0 then 0%nat else chunksize.

(** [Pool._get_tasks]: [islice(it, size)] until a slice comes back empty.
    [fuel] bounds the number of slices; the length of the input is enough. *)
Fixpoint get_tasks_from (fuel size : nat) (it : list A) : list (list A) :=
  match fuel with
  | O => []
  | S fuel' =>
      match firstn size it with
      | [] => []
      | x => x :: get_tasks_from fuel' size (skipn size it)
      end
  end.

Definition get_tasks (size : nat) (it : list A) : list (list A) :=
  get_tasks_from (length it) size it.

(** [v[a:b] = new] for [0 <= a <= b]. *)
Definition slice_assign {X : Type} (a b : nat) (new v : list X) : list X :=
  firstn a v ++ new ++ skipn b v.

(** The state of a [MapResult]: [Ok v] is [_success = True] with
    [_value = v]; [Raise e] is [_success = False] with [_value = e]. *)
Definition MapResult : Type := result (list (option B)).

Definition MapResult_init (length : nat) : MapResult :=
  Ok (repeat None length).

Definition MapResult_set (chunksize i : nat) (success_result : result (list B))
           (self : MapResult) : MapResult :=
  match success_result, self with
  | Ok res, Ok v =>
      Ok (slice_assign (i * chunksize) ((i + 1) * chunksize) (map Some res) v)
  | Raise e, Ok _ => Raise e
  | _, Raise e0 => Raise e0
  end.

(** What the worker sends back for one chunk: [list(map(func, chunk))], or
    the exception it raised. *)
Definition mapstar (func : A -> result B) (chunk : list A) : result (list B) :=
  mapM func chunk.

Definition pool_map (processes : nat) (func : A -> result B)
           (iterable : list A) (order : list nat) : MapResult :=
  if Nat.ltb processes 1 then Raise ValueError
  else
    let chunksize := map_chunksize processes (length iterable) in
    let task_batches := get_tasks chunksize iterable in
    fold_left
      (fun self i =>
         MapResult_set chunksize i (mapstar func (nth i task_batches [])) self)
      order (MapResult_init (length iterable)).

(** The number of tasks [pool_map] submits. *)
Definition number_of_tasks (processes : nat) (iterable : list A) : nat :=
  length (get_tasks (map_chunksize processes (length iterable)) iterable).




End PoolMap.

(** All slices have [size] elements except the last, which has between one
    and [size]; stated on the list of slice lengths. *)
Fixpoint chunked (size : nat) (ls : list nat) : Prop :=
  match ls with
  | [] => True
  | l :: ls' =>
      match ls' with
      | [] => (1 <= l <= size)%nat
      | _ :: _ => l = size /\ chunked size ls'
      end
  end.

(** The slots of a [MapResult], chunk by chunk: the results [yss] of the
    chunks that have completed, [None] in the others. *)
Definition blocks {A B : Type} (tasks : list (list A)) (yss : list (list B))
           (done : nat -> bool) : list (list (option B)) :=
  map (fun j => if done j then map Some (nth j yss [])
                else repeat None (length (nth j tasks [])))
      (seq 0 (length tasks)).

(** ** The worker functions

<<
def compress_group(group):
    group_date, recs_in_group = group
    recs_as_str_date = [([r[0].isoformat()] + list(r[1:])) for r in recs_in_group]
    serialized_data = json.dumps(recs_as_str_date).encode('utf-8')
    compressed_data = zlib.compress(serialized_data)
    return (group_date, compressed_data)

def decompress_group(row):
    decompressed_data = zlib.decompress(row[1])
    recs_from_blob = json.loads(decompressed_data.decode('utf-8'))
    reconstructed_records = []
    for r in recs_from_blob:
        r[0] = date.fromisoformat(r[0])
        reconstructed_records.append(tuple(r))
    return reconstructed_records
>>
*)

(** A record as the Python tuple it is. *)
Definition tuple_of_record (r : record) : tuple :=
  [PDate (rec_date r); PStr (trans r); PStr (symbol r); PInt (qty r);
   PFloat (price r)].

(** [[r[0].isoformat()] + list(r[1:])]. *)
Definition record_as_str_date (r : record) : pyval :=
  PList (PStr (isoformat (rec_date r)) :: tl (tuple_of_record r)).

Definition recs_as_str_date (recs_in_group : list record) : pyval :=
  PList (map record_as_str_date recs_in_group).

Definition row : Type := (date * bytes)%type.

Definition compress_group (zlib : zlib_module) (group : date * list record)
  : result row :=
  let '(group_date, recs_in_group) := group in
  text <- json_dumps (recs_as_str_date recs_in_group) ;;
  serialized_data <- utf8_encode text ;;
  let compressed_data := compress zlib serialized_data in
  Ok (group_date, compressed_data).

(** [for r in recs_from_blob]: what iterating the decoded value yields. *)
Definition py_iter (v : pyval) : result (list pyval) :=
  match v with
  | PList l => Ok l
  | PDict d => Ok (map (fun kv => PStr (fst kv)) d)
  | PStr s => Ok (map (fun c => PStr [c]) s)
  | _ => Raise TypeError
  end.

Definition date_fromisoformat (v : pyval) : result date :=
  match v with
  | PStr s => fromisoformat s
  | _ => Raise TypeError
  end.

(** The loop body: [r[0] = date.fromisoformat(r[0])], then [tuple(r)]. *)
Definition reconstruct (r : pyval) : result tuple :=
  match r with
  | PList [] => Raise IndexError
  | PList (x :: rest) => d <- date_fromisoformat x ;; Ok (PDate d :: rest)
  | PStr [] => Raise IndexError
  | PStr (c :: _) =>
      _ <- fromisoformat [c] ;; Raise TypeError  (* str is immutable *)
  | PDict _ => Raise KeyError
  | _ => Raise TypeError
  end.

Definition decompress_group (zlib : zlib_module) (row : row)
  : result (list tuple) :=
  decompressed_data <- zlib_decompress zlib (snd row) ;;
  text <- utf8_decode decompressed_data ;;
  recs_from_blob <- json_loads text ;;
  items <- py_iter recs_from_blob ;;
  mapM reconstruct items.

(** ** Comparing and sorting records

    [sorted(records)] orders tuples with [<]: the first position where two
    tuples differ (by [==]) decides, by [<] of the two items there.  Dates
    compare by year, month and day; strings by code point; [int]s and
    [float]s by value, with [SFcompare] the IEEE comparison of the
    standard library ([nan] equals and precedes nothing, [-0.0 == 0.0]). *)

Definition date_ltb (a b : date) : bool :=
  if negb (year a =? year b) then year a <? year b
  else if negb (month a =? month b) then month a <? month b
  else day a <? day b.

Fixpoint str_ltb (a b : str) : bool :=
  match a, b with
  | [], [] => false
  | [], _ :: _ => true
  | _ :: _, [] => false
  | x :: a', y :: b' => if (x =? y)%N then str_ltb a' b' else (x <? y)%N
  end.

Definition float_eq (a b : spec_float) : bool := SFeqb a b.
Definition float_lt (a b : spec_float) : bool := SFltb a b.

(** [a == b] on two records that are different objects and share no
    [float]: field by field, by value.  Python's [==] on tuples and lists
    takes two items that are one and the same object for equal without
    comparing them, which differs from the comparison by value in one case
    only, an item that is [nan].  The records [main] compares come one from
    the generator and one out of the pool, as newly built objects. *)
Definition record_eqb (a b : record) : bool :=
  date_eqb (rec_date a) (rec_date b) && str_eqb (trans a) (trans b) &&
  str_eqb (symbol a) (symbol b) && (qty a =? qty b) &&
  float_eq (price a) (price b).

(** [a < b] on two records. *)
Definition record_ltb (a b : record) : bool :=
  if negb (date_eqb (rec_date a) (rec_date b))
  then date_ltb (rec_date a) (rec_date b)
  else if negb (str_eqb (trans a) (trans b))
  then str_ltb (trans a) (trans b)
  else if negb (str_eqb (symbol a) (symbol b))
  then str_ltb (symbol a) (symbol b)
  else if negb (qty a =? qty b)
  then qty a <? qty b
  else if negb (float_eq (price a) (price b))
  then float_lt (price a) (price b)
  else false.

(** [sorted] is a stable sort.  Where [<] is a strict weak order, which it
    is on records without [nan], the stable sorted arrangement of a list
    is unique, so the insertion sort below returns the list Python's sort
    returns. *)
Fixpoint insert_sorted (x : record) (l : list record) : list record :=
  match l with
  | [] => [x]
  | y :: l' => if record_ltb y x then y :: insert_sorted x l'
               else x :: y :: l'
  end.

Definition sorted (l : list record) : list record :=
  fold_right insert_sorted [] l.

(** [a == b] on two lists of records. *)
Fixpoint list_eqb (a b : list record) : bool :=
  match a, b with
  | [], [] => true
  | x :: a', y :: b' => record_eqb x y && list_eqb a' b'
  | _, _ => false
  end.

(** [sorted(records) == sorted(all_retrieved_records)]. *)
Definition verification (records all_retrieved_records : list record) : bool :=
  list_eqb (sorted records) (sorted all_retrieved_records).

(** Equal as multisets: some rearrangement of [b] equals [a] item by item
    under [==]. *)
Definition multiset_eq (a b : list record) : Prop :=
  exists b', Permutation b b' /\ Forall2 (fun x y => record_eqb x y = true) a b'.

(** ** The pipeline of [main]

    [main] first writes the records to the [stocks] table:
<<
    c_normal.executemany('INSERT INTO stocks VALUES (?,?,?,?,?)', records)
>>
    [sqlite3] binds the five items of each row in order: the date through
    its adapter, as the text [isoformat] gives; a [str] as its UTF-8
    encoding, which a surrogate code point does not have; an [int] as a
    signed 64-bit integer, raising [OverflowError] outside that range; a
    [float] as it is.  The first item that cannot be bound ends the call.
    What the table then holds is read back later, but not used.

    Between the write and the read of the groups the rows sit in the
    [compressed_data] table; the store returns what was inserted, in
    insertion order.  The size limit of the database (a text or blob of
    more than 10^9 bytes is refused) is not modelled. *)

Definition sqlite_int_ok (z : Z) : bool := (- 2 ^ 63 <=? z) && (z <? 2 ^ 63).

(** Binding the items of one row of [stocks]. *)
Definition bind_parameters (r : record) : result unit :=
  _ <- utf8_encode (isoformat (rec_date r)) ;;
  _ <- utf8_encode (trans r) ;;
  _ <- utf8_encode (symbol r) ;;
  if sqlite_int_ok (qty r) then Ok tt else Raise OverflowError.

(** [c_normal.executemany('INSERT INTO stocks ...', records)]. *)
Definition insert_stocks (records : list record) : result unit :=
  _ <- mapM bind_parameters records ;; Ok tt.

(** A retrieved tuple read as a record, for the comparison. *)
Definition record_of_tuple (t : tuple) : result record :=
  match t with
  | [PDate d; PStr a; PStr b; PInt q; PFloat p] => Ok (mkrecord d a b q p)
  | _ => Raise TypeError
  end.

Definition unslot {X : Type} (slots : list (option X)) : result (list X) :=
  mapM (fun o => match o with Some x => Ok x | None => Raise TypeError end)
       slots.

(** Grouping, compression in the pool, decompression in the pool and
    flattening: [all_retrieved_records]. *)
Definition all_retrieved_records (zlib : zlib_module) (num_processes : nat)
           (order_w order_r : list nat) (records : list record)
  : result (list tuple) :=
  let grouped := grouped_records records in
  slots <- pool_map num_processes (compress_group zlib) grouped order_w ;;
  compressed_rows <- unslot slots ;;
  slots' <- pool_map num_processes (decompress_group zlib) compressed_rows
                     order_r ;;
  results_from_pool <- unslot slots' ;;
  Ok (flatten results_from_pool).

(** [main] up to its verification step, on the records the generator
    returned: [true] for "Verification successful", [false] for
    "Verification FAILED".  The timings and the summary table, which come
    after, are not part of the model. *)
Definition main (zlib : zlib_module) (num_processes : nat)
           (order_w order_r : list nat) (records : list record)
  : result bool :=
  _ <- insert_stocks records ;;
  retrieved <- all_retrieved_records zlib num_processes order_w order_r records ;;
  retrieved_records <- mapM record_of_tuple retrieved ;;
  Ok (verification records retrieved_records).

(** A character that can follow a number: not a digit, not a dot, not an
    exponent mark. *)
Definition ends_number (c : N) : bool :=
  negb (is_digit c) && negb (c =? 46)%N && negb (c =? 101)%N &&
  negb (c =? 69)%N.

(** The text [json.dumps] writes for one record. *)
Definition record_text (r : record) : str :=
  [91%N] ++
  join (lit ", ")
       [ encode_basestring_ascii (isoformat (rec_date r));
         encode_basestring_ascii (trans r);
         encode_basestring_ascii (symbol r);
         long_to_decimal_string (qty r);
         floatstr (price r) ] ++
  [93%N].

(** The text [json.dumps] writes for a group: its records between
    brackets, separated by a comma and a space. *)
Definition group_text (recs_in_group : list record) : str :=
  [91%N] ++ join (lit ", ") (map record_text recs_in_group) ++ [93%N].

(** ** The encoder as the specification describes it

    Three steps: each record's date is replaced by its ISO text; the
    sequence of tuples is serialized, here as JSON text in UTF-8; the
    serialized bytes are compressed. *)




(** ** Well-formed records

    The strings of a record hold Unicode scalar values (no surrogate code
    points), its date is a [date] object, its quantity has at most
    [max_str_digits] digits, and the text [json.dumps] writes for its price
    is ASCII and is read back by the scanner as the same [float].  The last
    condition is decidable and is checked, not assumed, for the prices the
    generator produces. *)

Definition is_scalar (c : N) : bool :=
  ((c <? 1114112) && negb (in_range 55296 57343 c))%N.

Definition str_ok (s : str) : bool := forallb is_scalar s.

Definition is_ascii (c : N) : bool := (c <? 128)%N.

Definition float_text_ok (f : spec_float) : bool :=
  let t := floatstr f in
  forallb is_ascii t &&
  match t with
  | c :: _ => is_digit c || (c =? 45)%N || (c =? 78)%N || (c =? 73)%N
  | [] => false
  end &&
  match scan_constant (t ++ [93%N]) with
  | Ok (PFloat g, [r]) => (r =? 93)%N && float_eqb g f
  | _ => false
  end.

Definition wf_record (r : record) : bool :=
  valid_date (rec_date r) && str_ok (trans r) && str_ok (symbol r) &&
  int_ok (qty r) && float_text_ok (price r).

(** [round(x, 2)] is the [float] nearest to a decimal with two fraction
    digits; for [x] drawn from [uniform(10.0, 500.0)] that decimal is
    [cents / 100] with [1000 <= cents <= 50000]. *)
Definition price_of_cents (cents : N) : spec_float :=
  float_of_decimal false cents (-2).

(** The loop invariant of the grouping loop, after the prefix [P]. *)
Definition grouping_inv (P : list record) (d : groups) : Prop :=
  NoDup (map fst d) /\
  Forall (fun kg => snd kg = on_date (fst kg) P) d /\
  Forall (fun kg => snd kg <> []) d /\
  (forall r, In r P -> In (rec_date r) (map fst d)) /\
  Permutation (flatten (map snd d)) P.

(** ** A codec to run the pipeline on

    Where a statement about every lossless [zlib] is run on data, this
    module stands in for the library: [compress] puts the two header bytes
    of a zlib stream in front of the data and [decompress] takes them off
    again, failing on bytes that do not start with them. *)

Definition stored : zlib_module := {|
  compress := fun data => x78 :: x01 :: data;
  decompress := fun data =>
    match data with
    | x78 :: x01 :: rest => Some rest
    | _ => None
    end
|}.

(** Three records of two days, as [generate_records] builds them. *)
Definition sample_records : list record :=
  [ mkrecord (mkdate 2023 5 1) (lit "BUY") (lit "ABCD") 100
             (price_of_cents 1234);
    mkrecord (mkdate 2024 2 28) (lit "SELL") (lit "WXYZ") 1000
             (price_of_cents 50000);
    mkrecord (mkdate 2023 5 1) (lit "SELL") (lit "QRST") 10
             (price_of_cents 1000) ].


(** A record whose symbol is the two surrogate code points U+D83D U+DE00,
    and one whose quantity has 4301 digits. *)
Definition surrogate_record : record :=
  mkrecord (mkdate 2023 5 1) (lit "BUY") [55357%N; 56832%N] 100
           (price_of_cents 1234).

Definition huge_record : record :=
  mkrecord (mkdate 2023 5 1) (lit "BUY") (lit "ABCD") (10 ^ 4300)
           (price_of_cents 1234).

(** The distinct dates of a list, each at the place where it occurs first. *)
Fixpoint first_occurrences (ds : list date) : list date :=
  match ds with
  | [] => []
  | d :: ds' =>
      d :: filter (fun x => negb (date_eqb x d)) (first_occurrences ds')
  end.

(** ** Records up to [==]

    Two [float]s are [==] without being the same number in one case only,
    [0.0 == -0.0]; and [nan] is [==] to nothing.  [canon] puts the zero
    price of a record to [0.0], so that records without [nan] are [==]
    exactly when their [canon] is the same. *)

Definition is_nan (f : spec_float) : bool :=
  match f with S754_nan => true | _ => false end.

Definition canon_float (f : spec_float) : spec_float :=
  match f with S754_zero _ => S754_zero false | _ => f end.

Definition canon (r : record) : record :=
  mkrecord (rec_date r) (trans r) (symbol r) (qty r) (canon_float (price r)).

(** A record whose price is a number, with [0.0] for zero. *)
Definition plain (r : record) : Prop :=
  is_nan (price r) = false /\ canon_float (price r) = price r.

(** [not (y < x)], the order [sorted] arranges records in. *)
Definition record_le (x y : record) : Prop := record_ltb y x = false.

(** ** [generate_records]

<<
def generate_records(num):
    possible_dates = set()
    for year in range(2022, 2025):
        for month in range(1, 13):
            for day in range(1, 29):
                if len(possible_dates) < 1000:
                    possible_dates.add(date(year, month, day))
                else:
                    break
        if len(possible_dates) >= 1000:
            break
    possible_dates = list(possible_dates)
    records = []
    for _ in range(num):
        record = (
            random.choice(possible_dates),
            random.choice(['BUY', 'SELL']),
            ''.join(random.choices('ABCDEFGHIJKLMNOPQRSTUVWXYZ', k=4)),
            random.randint(10, 1000),
            round(random.uniform(10.0, 500.0), 2)
        )
        records.append(record)
    return records
>>

    The random numbers are inputs of the model: one [draw] per record holds
    what the five calls into [random] returned. *)

(** [range(a, b)]. *)
Definition range (a b : Z) : list Z :=
  map (fun i => a + Z.of_nat i) (seq 0 (Z.to_nat (b - a))).

(** [s.add(d)], the set kept as the list of its elements. *)
Definition set_add (d : date) (s : list date) : list date :=
  if existsb (date_eqb d) s then s else s ++ [d].

(** [for day in ...], which stops at its [break]. *)
Fixpoint day_loop (days : list Z) (year month : Z) (possible_dates : list date)
  : result (list date) :=
  match days with
  | [] => Ok possible_dates
  | day :: days' =>
      if (length possible_dates <? 1000)%nat then
        d <- date_new year month day ;;
        day_loop days' year month (set_add d possible_dates)
      else Ok possible_dates
  end.

(** [for month in ...]: the [break] of the inner loop does not leave it. *)
Fixpoint month_loop (months : list Z) (year : Z) (possible_dates : list date)
  : result (list date) :=
  match months with
  | [] => Ok possible_dates
  | month :: months' =>
      possible_dates' <- day_loop (range 1 29) year month possible_dates ;;
      month_loop months' year possible_dates'
  end.

(** [for year in ...], left by the second [break]. *)
Fixpoint year_loop (years : list Z) (possible_dates : list date)
  : result (list date) :=
  match years with
  | [] => Ok possible_dates
  | year :: years' =>
      possible_dates' <- month_loop (range 1 13) year possible_dates ;;
      if (1000 <=? length possible_dates')%nat then Ok possible_dates'
      else year_loop years' possible_dates'
  end.

Definition possible_dates : result (list date) :=
  year_loop (range 2022 2025) [].

(** [round(x, 2)]: the decimal with two fraction digits nearest to [x],
    halves going to the even digit, read back as a [float]. *)
Definition round_half_even (num den : Z) : Z :=
  let q := num / den in
  match 2 * (num mod den) ?= den with
  | Lt => q
  | Gt => q + 1
  | Eq => if Z.even q then q else q + 1
  end.

Definition round2 (x : spec_float) : spec_float :=
  match x with
  | S754_finite s m e =>
      let cents := if 0 <=? e then 100 * Zpos m * 2 ^ e
                   else round_half_even (100 * Zpos m) (2 ^ (- e)) in
      float_of_decimal s (Z.to_N cents) (-2)
  | _ => x
  end.

(** What [random] returned for one record: the indices picked by the two
    [choice] calls and by [choices], the result of [randint] and the
    result of [uniform]. *)
Record draw : Type := mkdraw {
  date_index : nat;
  trans_index : nat;
  letter_indices : nat * nat * nat * nat;
  randint : Z;
  uniform : spec_float
}.

(** [seq[i]] for the index [i] that [random] picked. *)
Definition choice {A : Type} (seq : list A) (i : nat) : result A :=
  match nth_error seq i with
  | Some x => Ok x
  | None => Raise IndexError
  end.

Definition generate_record (possible_dates : list date) (d : draw)
  : result record :=
  r0 <- choice possible_dates (date_index d) ;;
  r1 <- choice [lit "BUY"; lit "SELL"] (trans_index d) ;;
  let '(i1, i2, i3, i4) := letter_indices d in
  r2 <- mapM (choice (lit "ABCDEFGHIJKLMNOPQRSTUVWXYZ")) [i1; i2; i3; i4] ;;
  Ok (mkrecord r0 r1 r2 (randint d) (round2 (uniform d))).

(** [list_of_set] is the order in which [list(possible_dates)] lists the
    set; one [draw] per record to generate. *)
Definition generate_records (list_of_set : list date -> list date)
           (draws : list draw) : result (list record) :=
  dates <- possible_dates ;;
  mapM (generate_record (list_of_set dates)) draws.

(** What [random] promises about a [draw]: indices within the sequences
    chosen from, [10 <= randint(10, 1000) <= 1000] and
    [10.0 <= uniform(10.0, 500.0) <= 500.0], a binary64 number. *)
Definition draw_ok (d : draw) : bool :=
  (date_index d <? 1000)%nat && (trans_index d <? 2)%nat &&
  (let '(i1, i2, i3, i4) := letter_indices d in
   (i1 <? 26)%nat && (i2 <? 26)%nat && (i3 <? 26)%nat && (i4 <? 26)%nat) &&
  (10 <=? randint d) && (randint d <=? 1000) &&
  valid_binary 53 1024 (uniform d) &&
  SFleb (float_of_decimal false 10 0) (uniform d) &&
  SFleb (uniform d) (float_of_decimal false 500 0).

(** A price as the generator builds it: [round(x, 2)] of a binary64
    number [x] with [10.0 <= x <= 500.0]. *)
Definition rounded_price (p : spec_float) : Prop :=
  exists x, valid_binary 53 1024 x = true /\
            SFleb (float_of_decimal false 10 0) x = true /\
            SFleb x (float_of_decimal false 500 0) = true /\
            p = round2 x.

(** A price that [json.dumps] prints as text that [json.loads] reads back
    as the same number. *)
Definition price_ok (f : spec_float) : bool :=
  float_text_ok f && negb (is_nan f).

(** [price_ok] for the [count] prices from [cents] cents upwards. *)
Fixpoint prices_ok_from (count : nat) (cents : N) : bool :=
  match count with
  | O => true
  | S count' =>
      price_ok (price_of_cents cents) && prices_ok_from count' (N.succ cents)
  end.

(** The dates [possible_dates] is to hold: the first thousand days, days
    after the 28th left out, from 2022-01-01 on. *)
Definition first_thousand_days : list date :=
  firstn 1000
    (flat_map (fun y =>
       flat_map (fun m => map (fun d => mkdate y m d) (range 1 29))
                (range 1 13))
       (range 2022 2025)).

(** What one pass of the generating loop appends. *)
Definition as_generated (r : record) : Prop :=
  In (rec_date r) first_thousand_days /\
  (trans r = lit "BUY" \/ trans r = lit "SELL") /\
  length (symbol r) = 4%nat /\
  Forall (fun c => (65 <= c <= 90)%N) (symbol r) /\
  10 <= qty r <= 1000 /\
  exists cents, (1000 <= cents <= 50000)%N /\ price r = price_of_cents cents.

(** Two draws, to run the generator on. *)
Definition sample_draws : list draw :=
  [ mkdraw 3 1 (0, 25, 3, 7)%nat 10 (float_of_decimal false 123456 (-3));
    mkdraw 999 0 (12, 12, 0, 1)%nat 1000 (float_of_decimal false 500 0) ].

(** * Properties *)

(** ** Dates *)

Lemma date_eqb_eq (a b : date) : date_eqb a b = true <-> a = b.
Proof.
  destruct a as [y m d], b as [y' m' d']; unfold date_eqb; simpl.
  rewrite !andb_true_iff, !Z.eqb_eq. split.
  - intros [[-> ->] ->]; reflexivity.
  - intros H; inversion H; auto.
Qed.

Lemma date_eqb_refl (a : date) : date_eqb a a = true.
Proof. apply date_eqb_eq; reflexivity. Qed.

(** ** Grouping *)

Section Grouping.

Lemma grouped_records_snoc (P : list record) (r : record) :
  grouped_records (P ++ [r]) =
  dict_append (rec_date r) r (grouped_records P).
Proof. unfold grouped_records. rewrite fold_left_app. reflexivity. Qed.

Lemma on_date_snoc (k : date) (P : list record) (r : record) :
  on_date k (P ++ [r]) =
  on_date k P ++ (if date_eqb (rec_date r) k then [r] else []).
Proof. unfold on_date. rewrite filter_app. reflexivity. Qed.

Lemma dict_append_keys (k : date) (r : record) (d : groups) :
  map fst (dict_append k r d) =
  map fst d ++ (if existsb (date_eqb k) (map fst d) then [] else [k]).
Proof.
  induction d as [|[k' rs] d IH]; simpl; [reflexivity|].
  destruct (date_eqb k k') eqn:E; simpl.
  - rewrite app_nil_r. reflexivity.
  - rewrite IH. reflexivity.
Qed.

Lemma existsb_date_In (k : date) (ks : list date) :
  existsb (date_eqb k) ks = true <-> In k ks.
Proof.
  rewrite existsb_exists. split.
  - intros [x [Hx E]]. apply date_eqb_eq in E. subst. exact Hx.
  - intros H. exists k. split; [exact H | apply date_eqb_refl].
Qed.

Lemma dict_append_NoDup (k : date) (r : record) (d : groups) :
  NoDup (map fst d) -> NoDup (map fst (dict_append k r d)).
Proof.
  intros H. rewrite dict_append_keys.
  destruct (existsb (date_eqb k) (map fst d)) eqn:E.
  - rewrite app_nil_r. exact H.
  - apply NoDup_app; [exact H | repeat constructor; intros [] |].
    intros x Hx [<-|[]]. apply existsb_date_In in Hx. congruence.
Qed.

Lemma dict_append_keys_incl (k : date) (r : record) (d : groups) (k' : date) :
  In k' (map fst (dict_append k r d)) <-> In k' (map fst d) \/ k' = k.
Proof.
  rewrite dict_append_keys, in_app_iff.
  destruct (existsb (date_eqb k) (map fst d)) eqn:E; simpl.
  - apply existsb_date_In in E. intuition (subst; auto).
  - intuition (subst; auto).
Qed.

(** One [append] keeps every list equal to the records seen so far that
    carry its key. *)
Lemma dict_append_on_date (P : list record) (r : record) (d : groups) :
  NoDup (map fst d) ->
  Forall (fun kg => snd kg = on_date (fst kg) P) d ->
  (~ In (rec_date r) (map fst d) -> on_date (rec_date r) P = []) ->
  Forall (fun kg => snd kg = on_date (fst kg) (P ++ [r]))
         (dict_append (rec_date r) r d).
Proof.
  induction d as [|[k0 rs] d IH]; simpl; intros ND HF Hnew.
  - constructor; [|constructor]. simpl.
    rewrite on_date_snoc, date_eqb_refl, Hnew; auto.
  - inversion ND as [|? ? Hk0 ND']; subst.
    inversion HF as [|? ? Hrs HF']; subst. simpl in Hrs.
    destruct (date_eqb (rec_date r) k0) eqn:E.
    + apply date_eqb_eq in E. subst k0. constructor.
      * simpl. rewrite on_date_snoc, date_eqb_refl, <- Hrs. reflexivity.
      * rewrite Forall_forall in HF' |- *. intros [k' g] Hin. simpl.
        pose proof (HF' _ Hin) as Hg. simpl in Hg.
        rewrite on_date_snoc, <- Hg.
        destruct (date_eqb (rec_date r) k') eqn:E'.
        -- apply date_eqb_eq in E'. subst k'. exfalso. apply Hk0.
           apply in_map_iff. exists (rec_date r, g). auto.
        -- rewrite app_nil_r. reflexivity.
    + constructor.
      * simpl. rewrite on_date_snoc, E, app_nil_r. exact Hrs.
      * apply IH; auto. intros Hn. apply Hnew. intros [H|H]; auto.
        subst k0. rewrite date_eqb_refl in E. discriminate.
Qed.

Lemma dict_append_nonempty (k : date) (r : record) (d : groups) :
  Forall (fun kg => snd kg <> []) d ->
  Forall (fun kg => snd kg <> []) (dict_append k r d).
Proof.
  induction d as [|[k0 rs] d IH]; simpl; intros HF.
  - repeat constructor. simpl. discriminate.
  - inversion HF; subst. destruct (date_eqb k k0).
    + constructor; auto. simpl. destruct rs; discriminate.
    + constructor; auto.
Qed.

Lemma dict_append_flatten (k : date) (r : record) (d : groups) :
  Permutation (flatten (map snd (dict_append k r d)))
              (flatten (map snd d) ++ [r]).
Proof.
  unfold flatten. induction d as [|[k0 rs] d IH]; simpl.
  - reflexivity.
  - destruct (date_eqb k k0); simpl.
    + rewrite <- !app_assoc. apply Permutation_app_head.
      apply Permutation_app_comm.
    + rewrite <- app_assoc. apply Permutation_app_head. exact IH.
Qed.

Lemma group_sizes_flatten (d : groups) :
  group_sizes d = length (flatten (map snd d)).
Proof.
  unfold flatten. induction d as [|[k rs] d IH]; simpl; [reflexivity|].
  rewrite length_app, IH. reflexivity.
Qed.

Lemma on_date_nil_of_fresh (P : list record) (d : groups) (k : date) :
  (forall r, In r P -> In (rec_date r) (map fst d)) ->
  ~ In k (map fst d) -> on_date k P = [].
Proof.
  intros Hcov Hk. unfold on_date.
  induction P as [|x P IH]; simpl; [reflexivity|].
  destruct (date_eqb (rec_date x) k) eqn:E.
  - apply date_eqb_eq in E. subst k. exfalso. apply Hk, Hcov. left; auto.
  - apply IH. intros r Hr. apply Hcov. right; auto.
Qed.

Lemma grouping_inv_holds (R : list record) :
  grouping_inv R (grouped_records R).
Proof.
  induction R as [|r P IH] using rev_ind.
  - unfold grouping_inv, grouped_records; simpl.
    repeat split; try constructor. intros r [].
  - rewrite grouped_records_snoc.
    destruct IH as (ND & Hon & Hne & Hcov & Hperm).
    repeat split.
    + apply dict_append_NoDup, ND.
    + apply dict_append_on_date; auto.
      apply on_date_nil_of_fresh with (d := grouped_records P); auto.
    + apply dict_append_nonempty, Hne.
    + intros x Hx. apply dict_append_keys_incl.
      apply in_app_iff in Hx. destruct Hx as [Hx|[<-|[]]]; auto.
    + rewrite dict_append_flatten. apply Permutation_app_tail, Hperm.
Qed.

End Grouping.

(** C2. The grouping loop returns a mapping with pairwise distinct date
    keys in which the list stored under a key is exactly the input records
    of that date in their input order; hence every record lies in the group
    of its own date and in no other, no group is empty, the groups together
    are a rearrangement of the input, and their sizes add up to the number
    of input records. *)
Theorem grouper_partitions_by_date (records : list record) :
  NoDup (map fst (grouped_records records)) /\
  (forall k g, In (k, g) (grouped_records records) ->
     g = on_date k records /\ g <> []) /\
  (forall r, In r records ->
     exists g, In (rec_date r, g) (grouped_records records) /\ In r g) /\
  (forall k g r, In (k, g) (grouped_records records) -> In r g ->
     k = rec_date r) /\
  Permutation (flatten (map snd (grouped_records records))) records /\
  group_sizes (grouped_records records) = length records.
Proof.
  destruct (grouping_inv_holds records) as (ND & Hon & Hne & Hcov & Hperm).
  rewrite Forall_forall in Hon, Hne.
  assert (Hkg : forall k g, In (k, g) (grouped_records records) ->
                            g = on_date k records /\ g <> []).
  { intros k g Hin. split; [apply (Hon _ Hin) | apply (Hne _ Hin)]. }
  repeat split; auto.
  - apply (Hon _ H).
  - apply (Hne _ H).
  - intros r Hr. pose proof (Hcov r Hr) as Hk.
    apply in_map_iff in Hk. destruct Hk as [[k g] [Ek Hin]]. simpl in Ek.
    subst k. exists g. split; [exact Hin|].
    destruct (Hkg _ _ Hin) as [-> _]. unfold on_date.
    apply filter_In. split; [exact Hr | apply date_eqb_refl].
  - intros k g r Hin Hr. destruct (Hkg _ _ Hin) as [-> _].
    unfold on_date in Hr. apply filter_In in Hr. destruct Hr as [_ E].
    apply date_eqb_eq in E. auto.
  - rewrite group_sizes_flatten. apply Permutation_length, Hperm.
Qed.

(** ** [Pool.map] *)

Section ChunkFacts.

Variable X : Type.

Lemma firstn_nil_inv (n : nat) (l : list X) :
  firstn n l = [] -> n = 0%nat \/ l = [].
Proof. destruct n, l; simpl; auto; discriminate. Qed.

Lemma get_tasks_from_spec (size : nat) :
  (1 <= size)%nat ->
  forall fuel (it : list X), (length it <= fuel)%nat ->
    concat (get_tasks_from fuel size it) = it /\
    chunked size (map (@length X) (get_tasks_from fuel size it)).
Proof.
  intros Hsize. induction fuel as [|fuel IH]; intros it Hlen.
  - destruct it; simpl in *; [auto | lia].
  - simpl. destruct (firstn size it) as [|x c] eqn:E.
    + apply firstn_nil_inv in E. destruct E as [E|E]; [lia|]. subst. simpl. auto.
    + assert (Hit : it <> []) by (intros ->; rewrite firstn_nil in E; discriminate).
      assert (Hsk : (length (skipn size it) <= fuel)%nat).
      { rewrite length_skipn. destruct it; [congruence|]. cbn [length] in *. lia. }
      destruct (IH _ Hsk) as [Hc Hch]. split.
      * rewrite concat_cons, Hc, <- E. apply firstn_skipn.
      * simpl map. simpl chunked.
        assert (Hl : length (x :: c) = Nat.min size (length it))
          by (rewrite <- E; apply length_firstn).
        destruct (get_tasks_from fuel size (skipn size it)) as [|c' cs'] eqn:G.
        -- simpl. simpl in Hl. lia.
        -- simpl. split; [|exact Hch].
           assert (Hne : skipn size it <> []).
           { intros Hn. rewrite Hn in Hc. simpl in Hc.
             destruct fuel; simpl in G; [discriminate|].
             rewrite Hn in G. rewrite firstn_nil in G. discriminate. }
           assert ((size < length it)%nat).
           { destruct (Nat.lt_ge_cases size (length it)); auto.
             exfalso. apply Hne. apply skipn_all2. lia. }
           simpl in Hl. lia.
Qed.

Lemma firstn_concat_chunked (size : nat) (bs : list (list X)) :
  chunked size (map (@length X) bs) ->
  forall i, (i < length bs)%nat ->
    firstn (i * size) (concat bs) = concat (firstn i bs).
Proof.
  induction bs as [|b bs IH]; intros Hch i Hi; simpl in Hi; [lia|].
  destruct i as [|i]; [reflexivity|].
  destruct bs as [|b' bs']; simpl in Hi; [lia|].
  simpl in Hch. destruct Hch as [Hb Hch].
  change (concat (b :: b' :: bs')) with (b ++ concat (b' :: bs')).
  change (firstn (S i) (b :: b' :: bs')) with (b :: firstn i (b' :: bs')).
  change (concat (b :: firstn i (b' :: bs')))
    with (b ++ concat (firstn i (b' :: bs'))).
  replace (S i * size)%nat with (length b + i * size)%nat by (simpl; lia).
  rewrite firstn_app_2. f_equal. apply IH; [exact Hch | simpl; lia].
Qed.

Lemma skipn_concat_chunked (size : nat) (bs : list (list X)) :
  chunked size (map (@length X) bs) ->
  forall i, (i < length bs)%nat ->
    skipn ((i + 1) * size) (concat bs) = concat (skipn (S i) bs).
Proof.
  induction bs as [|b bs IH]; intros Hch i Hi; simpl in Hi; [lia|].
  destruct bs as [|b' bs'].
  - assert (i = 0)%nat by (simpl in Hi; lia). subst i. simpl in *.
    rewrite app_nil_r. apply skipn_all2. lia.
  - simpl in Hch. destruct Hch as [Hb Hch].
    change (concat (b :: b' :: bs')) with (b ++ concat (b' :: bs')).
    change (skipn (S i) (b :: b' :: bs')) with (skipn i (b' :: bs')).
    rewrite skipn_app.
    rewrite (skipn_all2 b) by (simpl; lia). simpl app.
    replace ((i + 1) * size - length b)%nat with (i * size)%nat by (simpl; lia).
    destruct i as [|i]; [reflexivity|].
    replace (S i * size)%nat with ((i + 1) * size)%nat by lia.
    apply IH; [exact Hch | simpl in *; lia].
Qed.

(** Assigning the slice of chunk [i] replaces block [i]. *)
Lemma slice_assign_concat (size : nat) (bs : list (list X)) (i : nat)
      (new : list X) :
  chunked size (map (@length X) bs) -> (i < length bs)%nat ->
  slice_assign (i * size) ((i + 1) * size) new (concat bs) =
  concat (firstn i bs ++ new :: skipn (S i) bs).
Proof.
  intros Hch Hi. unfold slice_assign.
  rewrite firstn_concat_chunked, skipn_concat_chunked by assumption.
  rewrite concat_app. reflexivity.
Qed.

Lemma replace_map_seq (F : nat -> X) (n i : nat) (new : X) :
  (i < n)%nat ->
  firstn i (map F (seq 0 n)) ++ new :: skipn (S i) (map F (seq 0 n)) =
  map (fun j => if Nat.eqb j i then new else F j) (seq 0 n).
Proof.
  intros Hi.
  replace n with (i + S (n - S i))%nat by lia.
  rewrite seq_app, !map_app. simpl seq. simpl map.
  rewrite firstn_app, firstn_all2 by (rewrite length_map, length_seq; lia).
  rewrite length_map, length_seq, Nat.sub_diag. simpl firstn.
  rewrite app_nil_r.
  rewrite skipn_app, skipn_all2 by (rewrite length_map, length_seq; lia).
  rewrite length_map, length_seq.
  replace (S i - i)%nat with 1%nat by lia. simpl skipn. simpl app.
  rewrite Nat.eqb_refl. f_equal; [|f_equal].
  - apply map_ext_in. intros j Hj. apply in_seq in Hj.
    destruct (Nat.eqb_spec j i); [lia | reflexivity].
  - apply map_ext_in. intros j Hj. apply in_seq in Hj.
    destruct (Nat.eqb_spec j i); [lia | reflexivity].
Qed.

Lemma map_nth_seq (l : list X) (d : X) :
  map (fun j => nth j l d) (seq 0 (length l)) = l.
Proof.
  induction l as [|x l IH]; simpl; [reflexivity|].
  f_equal. rewrite <- seq_shift, map_map. exact IH.
Qed.

End ChunkFacts.

Section ResultFacts.

Variables A B : Type.
Variable f : A -> result B.

Lemma mapM_app (a b : list A) :
  mapM f (a ++ b) = (ya <- mapM f a ;; yb <- mapM f b ;; Ok (ya ++ yb)).
Proof.
  induction a as [|x a IH]; simpl.
  - destruct (mapM f b); reflexivity.
  - destruct (f x); simpl; [|reflexivity]. rewrite IH.
    destruct (mapM f a); simpl; [|reflexivity].
    destruct (mapM f b); reflexivity.
Qed.

Lemma mapM_length (l : list A) (ys : list B) :
  mapM f l = Ok ys -> length ys = length l.
Proof.
  revert ys. induction l as [|x l IH]; simpl; intros ys H.
  - inversion H; reflexivity.
  - destruct (f x); simpl in H; [|discriminate].
    destruct (mapM f l); simpl in H; [|discriminate].
    inversion H; subst. simpl. f_equal. apply IH. reflexivity.
Qed.


Lemma mapM_total (g : A -> B) (l : list A) :
  (forall x, In x l -> f x = Ok (g x)) -> mapM f l = Ok (map g l).
Proof.
  induction l as [|x l IH]; simpl; intros H; [reflexivity|].
  rewrite (H x) by auto. simpl. rewrite IH by auto. reflexivity.
Qed.

(** A successful pass over the concatenation is a successful pass over
    every chunk. *)
Lemma mapM_concat_ok (cs : list (list A)) (ys : list B) :
  mapM f (concat cs) = Ok ys ->
  exists yss, concat yss = ys /\
              map (@length B) yss = map (@length A) cs /\
              forall i, (i < length cs)%nat ->
                        mapM f (nth i cs []) = Ok (nth i yss []).
Proof.
  revert ys. induction cs as [|c cs IH]; simpl; intros ys H.
  - inversion H; subst. exists []. repeat split. intros i Hi. lia.
  - rewrite mapM_app in H.
    destruct (mapM f c) as [yc|] eqn:Ec; simpl in H; [|discriminate].
    destruct (mapM f (concat cs)) as [yr|] eqn:Er; simpl in H; [|discriminate].
    inversion H; subst. destruct (IH _ eq_refl) as (yss & Hc & Hl & Hn).
    exists (yc :: yss). simpl. repeat split.
    + rewrite Hc. reflexivity.
    + rewrite Hl, (mapM_length _ Ec). reflexivity.
    + intros [|i] Hi; [exact Ec | apply Hn; lia].
Qed.


End ResultFacts.

Section PoolMapFacts.

Variables A B : Type.
Variable func : A -> result B.

Lemma map_chunksize_pos (processes len : nat) :
  (1 <= processes)%nat -> (0 < len)%nat ->
  (1 <= map_chunksize processes len)%nat.
Proof.
  intros Hp Hl. unfold map_chunksize.
  destruct (Nat.eqb_spec len 0); [lia|].
  destruct (Nat.eqb_spec (len mod (processes * 4)) 0) as [E|E]; [|lia].
  pose proof (Nat.div_mod_eq len (processes * 4)) as D.
  rewrite E in D.
  destruct (len / (processes * 4))%nat; lia.
Qed.

Lemma concat_repeat_None (cs : list (list A)) :
  concat (map (fun c => repeat (@None B) (length c)) cs) =
  repeat None (length (concat cs)).
Proof.
  induction cs as [|c cs IH]; simpl; [reflexivity|].
  rewrite IH, length_app, repeat_app. reflexivity.
Qed.

Lemma blocks_lengths (tasks : list (list A)) (yss : list (list B)) done :
  map (@length B) yss = map (@length A) tasks ->
  map (@length (option B)) (blocks tasks yss done) = map (@length A) tasks.
Proof.
  intros Hl. unfold blocks. rewrite map_map.
  transitivity (map (fun j => nth j (map (@length A) tasks) 0%nat)
                    (seq 0 (length tasks))).
  - apply map_ext. intros j.
    change (nth j (map (@length A) tasks) 0%nat)
      with (nth j (map (@length A) tasks) (length (@nil A))).
    rewrite map_nth. destruct (done j).
    + rewrite length_map. rewrite <- (map_nth (@length B)), Hl.
      rewrite <- (map_nth (@length A)). reflexivity.
    + apply repeat_length.
  - replace (length tasks) with (length (map (@length A) tasks))
      by apply length_map.
    apply map_nth_seq.
Qed.

Lemma pool_fold_ok (chunksize : nat) tasks yss :
  chunked chunksize (map (@length A) tasks) ->
  map (@length B) yss = map (@length A) tasks ->
  (forall i, (i < length tasks)%nat ->
             mapstar func (nth i tasks []) = Ok (nth i yss [])) ->
  forall order done,
    (forall i, In i order -> (i < length tasks)%nat) ->
    fold_left
      (fun self i =>
         MapResult_set chunksize i (mapstar func (nth i tasks [])) self)
      order (Ok (concat (blocks tasks yss done))) =
    Ok (concat (blocks tasks yss
                       (fun j => existsb (Nat.eqb j) order || done j))).
Proof.
  intros Hch Hl Hok. induction order as [|i order IH]; intros done Hin.
  - reflexivity.
  - simpl fold_left. rewrite Hok by (apply Hin; left; reflexivity).
    unfold MapResult_set.
    rewrite slice_assign_concat.
    2: rewrite blocks_lengths; assumption.
    2: unfold blocks; rewrite length_map, length_seq; apply Hin; left; auto.
    unfold blocks at 1 2. rewrite replace_map_seq by (apply Hin; left; auto).
    match goal with
    | |- fold_left _ _ (Ok (concat ?bs)) = _ =>
        replace bs with (blocks tasks yss (fun j => Nat.eqb j i || done j))
    end.
    + rewrite IH by (intros j Hj; apply Hin; right; exact Hj).
      f_equal. f_equal. unfold blocks. apply map_ext. intros j. simpl.
      destruct (Nat.eqb j i), (existsb (Nat.eqb j) order), (done j);
        reflexivity.
    + unfold blocks. apply map_ext. intros j.
      destruct (Nat.eqb_spec j i); [subst; reflexivity | reflexivity].
Qed.





End PoolMapFacts.

Section PoolMapTheorem.

Variables A B : Type.
Variable func : A -> result B.

Lemma get_tasks_spec (processes : nat) (iterable : list A) :
  (1 <= processes)%nat ->
  let chunksize := map_chunksize processes (length iterable) in
  concat (get_tasks chunksize iterable) = iterable /\
  chunked chunksize (map (@length A) (get_tasks chunksize iterable)).
Proof.
  intros Hp chunksize. unfold get_tasks.
  destruct iterable as [|x l] eqn:E.
  - simpl. auto.
  - rewrite <- E. apply get_tasks_from_spec; [|lia].
    apply map_chunksize_pos; [exact Hp | subst; simpl; lia].
Qed.

Lemma blocks_none (tasks : list (list A)) (yss : list (list B)) :
  concat (blocks tasks yss (fun _ => false)) =
  repeat None (length (concat tasks)).
Proof.
  unfold blocks. rewrite <- concat_repeat_None. f_equal.
  transitivity (map (fun c => repeat (@None B) (length c))
                    (map (fun j => nth j tasks []) (seq 0 (length tasks)))).
  - rewrite map_map. reflexivity.
  - rewrite map_nth_seq. reflexivity.
Qed.

Lemma blocks_all (tasks : list (list A)) (yss : list (list B)) done :
  length yss = length tasks ->
  (forall j, (j < length tasks)%nat -> done j = true) ->
  concat (blocks tasks yss done) = map Some (concat yss).
Proof.
  intros Hl Hd. unfold blocks. rewrite concat_map. f_equal.
  transitivity (map (map (@Some B))
                    (map (fun j => nth j yss []) (seq 0 (length yss)))).
  - rewrite map_map, Hl.
    apply map_ext_in. intros j Hj. apply in_seq in Hj.
    rewrite Hd by lia. reflexivity.
  - rewrite map_nth_seq. reflexivity.
Qed.

End PoolMapTheorem.




(** ** ISO dates *)

Lemma digit_val_digit (d : Z) : 0 <= d <= 9 -> digit_val (digit d) = Some d.
Proof.
  intros H. unfold digit_val, digit, is_digit.
  assert (E : Z.of_N (Z.to_N (48 + d)) = 48 + d) by (rewrite Z2N.id; lia).
  replace ((48 <=? Z.to_N (48 + d))%N && (Z.to_N (48 + d) <=? 57)%N) with true.
  - rewrite E. f_equal. lia.
  - symmetry. apply andb_true_iff. split; apply N.leb_le; lia.
Qed.

Lemma fromisoformat_isoformat (d : date) :
  valid_date d = true -> fromisoformat (isoformat d) = Ok d.
Proof.
  intros Hv. pose proof Hv as Hv'. unfold valid_date in Hv'.
  rewrite !andb_true_iff, !Z.leb_le in Hv'.
  destruct Hv' as [[[[[Hy1 Hy2] Hm1] Hm2] Hd1] Hd2].
  assert (Hd3 : day d <= 31).
  { unfold days_in_month in Hd2.
    destruct (month d =? 2); [destruct (is_leap (year d)); lia|].
    destruct ((month d =? 4) || (month d =? 6) || (month d =? 9) ||
              (month d =? 11)); lia. }
  unfold fromisoformat, isoformat.
  rewrite !digit_val_digit
    by (match goal with |- 0 <= ?a mod 10 <= 9 =>
          pose proof (Z.mod_pos_bound a 10); lia end).
  cbn -[Z.mul Z.add Z.div Z.modulo valid_date date_new].
  replace (1000 * (year d / 1000 mod 10) + 100 * (year d / 100 mod 10) +
           10 * (year d / 10 mod 10) + year d mod 10) with (year d)
    by (Z.div_mod_to_equations; lia).
  replace (10 * (month d / 10 mod 10) + month d mod 10) with (month d)
    by (Z.div_mod_to_equations; lia).
  replace (10 * (day d / 10 mod 10) + day d mod 10) with (day d)
    by (Z.div_mod_to_equations; lia).
  destruct d as [y m dd]. unfold date_new. cbn [year month day].
  rewrite Hv. reflexivity.
Qed.

(** ** UTF-8 on ASCII text *)

Lemma to_N_byte_of_N (n : N) : (n < 256)%N -> Byte.to_N (byte_of_N n) = n.
Proof.
  intros H. unfold byte_of_N.
  destruct (Byte.of_N n) as [b|] eqn:E.
  - apply Byte.to_of_N. exact E.
  - exfalso. apply Byte.of_N_None_iff in E. lia.
Qed.

Lemma utf8_encode_ascii (t : str) :
  forallb is_ascii t = true -> utf8_encode t = Ok (map byte_of_N t).
Proof.
  unfold utf8_encode. induction t as [|c t IH]; simpl; intros H.
  - reflexivity.
  - apply andb_true_iff in H. destruct H as [Hc Ht].
    unfold is_ascii in Hc. unfold utf8_char at 1. rewrite Hc. simpl.
    specialize (IH Ht). destruct (mapM utf8_char t); simpl in *.
    + inversion IH; subst. reflexivity.
    + discriminate.
Qed.

Lemma utf8_decode_ascii (t : str) :
  forallb is_ascii t = true -> utf8_decode (map byte_of_N t) = Ok t.
Proof.
  induction t as [|c t IH]; simpl; intros H.
  - reflexivity.
  - apply andb_true_iff in H. destruct H as [Hc Ht].
    unfold is_ascii in Hc. pose proof Hc as Hc'. apply N.ltb_lt in Hc'.
    rewrite to_N_byte_of_N by lia. rewrite Hc, (IH Ht). reflexivity.
Qed.

(** ** Strings *)

Lemma hex_val_hex_digit (d : N) : (d < 16)%N -> hex_val (hex_digit d) = Some d.
Proof.
  intros H.
  assert (Hd : In d [0;1;2;3;4;5;6;7;8;9;10;11;12;13;14;15]%N).
  { simpl. lia. }
  simpl in Hd.
  repeat (destruct Hd as [<-|Hd]; [reflexivity|]). destruct Hd.
Qed.

Lemma decode_hex4_hex4 (n : N) :
  (n < 65536)%N ->
  decode_hex4 (hex_digit ((n / 4096) mod 16)) (hex_digit ((n / 256) mod 16))
              (hex_digit ((n / 16) mod 16)) (hex_digit (n mod 16)) = Some n.
Proof.
  intros H. unfold decode_hex4.
  rewrite !hex_val_hex_digit by (apply N.mod_lt; lia).
  f_equal.
  change 4096%N with (16 * (16 * 16))%N. change 256%N with (16 * 16)%N.
  rewrite <- !N.Div0.div_div.
  pose proof (N.div_mod' n 16). pose proof (N.mod_lt n 16).
  pose proof (N.div_mod' (n / 16) 16). pose proof (N.mod_lt (n / 16) 16).
  pose proof (N.div_mod' (n / 16 / 16) 16).
  pose proof (N.mod_lt (n / 16 / 16) 16).
  pose proof (N.div_mod' (n / 16 / 16 / 16) 16).
  pose proof (N.mod_lt (n / 16 / 16 / 16) 16).
  assert (n / 16 / 16 / 16 / 16 = 0)%N.
  { rewrite !N.Div0.div_div. apply N.div_small. lia. }
  lia.
Qed.

Lemma scanstring_plain (c : N) (s : str) :
  (32 <= c)%N -> c <> 34%N -> c <> 92%N ->
  scanstring (c :: s) = ('(t, r) <- scanstring s ;; Ok (c :: t, r)).
Proof.
  intros H1 H2 H3. simpl.
  apply N.eqb_neq in H2, H3. rewrite H2, H3.
  replace (c <? 32)%N with false by (symmetry; apply N.ltb_ge; lia).
  reflexivity.
Qed.

Lemma scanstring_u (h1 h2 h3 h4 uni : N) (s3 : str) :
  decode_hex4 h1 h2 h3 h4 = Some uni -> is_high_surrogate uni = false ->
  scanstring (92 :: 117 :: h1 :: h2 :: h3 :: h4 :: s3)%N =
  ('(t, r) <- scanstring s3 ;; Ok (uni :: t, r)).
Proof.
  intros Hd Hs. cbn [scanstring N.eqb N.ltb N.compare Pos.eqb Pos.compare
                     Pos.compare_cont negb].
  rewrite Hd. destruct s3 as [|b [|u s4]]; try reflexivity.
  rewrite Hs. reflexivity.
Qed.

Lemma scanstring_pair (h1 h2 h3 h4 g1 g2 g3 g4 uni uni2 : N) (s5 : str) :
  decode_hex4 h1 h2 h3 h4 = Some uni -> is_high_surrogate uni = true ->
  decode_hex4 g1 g2 g3 g4 = Some uni2 -> is_low_surrogate uni2 = true ->
  scanstring (92 :: 117 :: h1 :: h2 :: h3 :: h4 ::
              92 :: 117 :: g1 :: g2 :: g3 :: g4 :: s5)%N =
  ('(t, r) <- scanstring s5 ;;
   Ok ((65536 + (uni - 55296) * 1024 + (uni2 - 56320))%N :: t, r)).
Proof.
  intros Hd Hs Hd2 Hs2.
  cbn [scanstring N.eqb N.ltb N.compare Pos.eqb Pos.compare
       Pos.compare_cont negb andb].
  rewrite Hd, Hs. cbn [andb]. rewrite Hd2, Hs2. reflexivity.
Qed.

Lemma scanstring_escape_char (c : N) (s : str) :
  is_scalar c = true ->
  scanstring (escape_char c ++ s) =
  ('(t, r) <- scanstring s ;; Ok (c :: t, r)).
Proof.
  intros Hc. unfold is_scalar, in_range in Hc.
  apply andb_true_iff in Hc. destruct Hc as [Hmax Hsur].
  apply N.ltb_lt in Hmax. apply negb_true_iff in Hsur.
  unfold escape_char.
  destruct (N.eqb_spec c 34); [subst; reflexivity|].
  destruct (N.eqb_spec c 92); [subst; reflexivity|].
  destruct (N.eqb_spec c 10); [subst; reflexivity|].
  destruct (N.eqb_spec c 13); [subst; reflexivity|].
  destruct (N.eqb_spec c 9); [subst; reflexivity|].
  destruct (N.eqb_spec c 8); [subst; reflexivity|].
  destruct (N.eqb_spec c 12); [subst; reflexivity|].
  destruct ((32 <=? c)%N && (c <=? 126)%N) eqn:Hp.
  - apply andb_true_iff in Hp. destruct Hp as [Hp _]. apply N.leb_le in Hp.
    apply scanstring_plain; assumption.
  - destruct (N.ltb_spec c 65536) as [Hb|Hb].
    + unfold hex4. cbn [app]. apply scanstring_u.
      * apply decode_hex4_hex4. exact Hb.
      * unfold is_high_surrogate.
        apply andb_false_iff in Hsur. apply andb_false_iff.
        destruct Hsur as [H|H]; [left; exact H|].
        right. apply N.leb_gt. apply N.leb_gt in H. lia.
    + unfold hex4. cbn [app].
      remember (c - 65536)%N as v eqn:Ev.
      assert (Hcv : c = (v + 65536)%N) by lia.
      assert (Hv : (v < 1048576)%N) by lia.
      assert (Hq : (v / 1024 < 1024)%N).
      { apply N.Div0.div_lt_upper_bound. lia. }
      assert (Hr : (v mod 1024 < 1024)%N) by (apply N.mod_lt; lia).
      pose proof (N.div_mod' v 1024) as Hdm.
      remember (v / 1024)%N as q eqn:Eq. remember (v mod 1024)%N as m eqn:Em.
      clear Ev Eq Em.
      rewrite (@scanstring_pair _ _ _ _ _ _ _ _ (55296 + q)%N (56320 + m)%N).
      * replace (65536 + (55296 + q - 55296) * 1024 +
                 (56320 + m - 56320))%N with c; [reflexivity|].
        lia.
      * apply decode_hex4_hex4. lia.
      * unfold is_high_surrogate. apply andb_true_iff.
        split; apply N.leb_le; lia.
      * apply decode_hex4_hex4. lia.
      * unfold is_low_surrogate. apply andb_true_iff.
        split; apply N.leb_le; lia.
Qed.

Lemma scanstring_encoded (s rest : str) :
  str_ok s = true ->
  scanstring (flat_map escape_char s ++ 34%N :: rest) = Ok (s, rest).
Proof.
  induction s as [|c s IH]; intros Hs.
  - reflexivity.
  - simpl in Hs. apply andb_true_iff in Hs. destruct Hs as [Hc Hs].
    cbn [flat_map]. rewrite <- app_assoc.
    rewrite scanstring_escape_char by exact Hc.
    rewrite (IH Hs). reflexivity.
Qed.

(** ** Integers *)

Lemma str_of_uint_digits (u : Decimal.uint) :
  forallb is_digit (str_of_uint u) = true.
Proof. induction u; simpl; auto. Qed.

Lemma uint_of_str_of_uint (u : Decimal.uint) : uint_of_str (str_of_uint u) = u.
Proof. induction u; simpl; try rewrite IHu; reflexivity. Qed.

Lemma N_of_digits_N_repr (n : N) : N_of_digits (N_repr n) = n.
Proof.
  unfold N_of_digits, N_repr. rewrite uint_of_str_of_uint.
  apply DecimalN.Unsigned.of_to.
Qed.

Lemma span_digits_digits (ds : str) (c : N) (r : str) :
  forallb is_digit ds = true -> is_digit c = false ->
  span_digits (ds ++ c :: r) = (ds, c :: r).
Proof.
  intros Hd Hc. induction ds as [|d ds IH]; simpl.
  - rewrite Hc. reflexivity.
  - simpl in Hd. apply andb_true_iff in Hd. destruct Hd as [Hd Hds].
    rewrite Hd, (IH Hds). reflexivity.
Qed.

(** The decimal of a positive number does not start with a zero. *)
Lemma Pos_to_uint_head (p : positive) :
  exists d ds, str_of_uint (Pos.to_uint p) = d :: ds /\
               is_digit d = true /\ d <> 48%N.
Proof.
  assert (Hn : Pos.to_uint p = Decimal.unorm (Pos.to_uint p)).
  { pose proof (DecimalPos.Unsigned.to_of (Pos.to_uint p)) as H.
    rewrite DecimalPos.Unsigned.of_to in H. exact H. }
  pose proof (DecimalPos.Unsigned.to_uint_nonzero p) as Hz.
  unfold Decimal.unorm in Hn.
  destruct (Decimal.nzhead (Pos.to_uint p)) eqn:E.
  - rewrite Hn in Hz. exfalso. apply Hz. reflexivity.
  - exfalso. eapply DecimalFacts.nzhead_nonzero. exact E.
  - rewrite Hn. simpl. do 2 eexists. repeat split. discriminate.
  - rewrite Hn. simpl. do 2 eexists. repeat split. discriminate.
  - rewrite Hn. simpl. do 2 eexists. repeat split. discriminate.
  - rewrite Hn. simpl. do 2 eexists. repeat split. discriminate.
  - rewrite Hn. simpl. do 2 eexists. repeat split. discriminate.
  - rewrite Hn. simpl. do 2 eexists. repeat split. discriminate.
  - rewrite Hn. simpl. do 2 eexists. repeat split. discriminate.
  - rewrite Hn. simpl. do 2 eexists. repeat split. discriminate.
  - rewrite Hn. simpl. do 2 eexists. repeat split. discriminate.
Qed.

Lemma scan_int_N_repr (n : N) (c : N) (r : str) :
  is_digit c = false ->
  scan_int (N_repr n ++ c :: r) = Some (N_repr n, c :: r).
Proof.
  intros Hc. destruct n as [|p].
  - reflexivity.
  - unfold N_repr. change (N.to_uint (N.pos p)) with (Pos.to_uint p).
    destruct (Pos_to_uint_head p) as (d & ds & E & Hd & Hd0).
    pose proof (str_of_uint_digits (Pos.to_uint p)) as Hall.
    rewrite E in *. simpl in Hall. apply andb_true_iff in Hall.
    destruct Hall as [_ Hds].
    cbn [app scan_int]. rewrite Hd. cbn [negb].
    apply N.eqb_neq in Hd0. rewrite Hd0.
    rewrite span_digits_digits by assumption. reflexivity.
Qed.

Lemma number_value_int (neg : bool) (n : N) :
  (length (N_repr n) <=? max_str_digits)%nat = true ->
  number_value neg (N_repr n) None None =
  Ok (PInt (if neg then - Z.of_N n else Z.of_N n)).
Proof.
  intros H. unfold number_value.
  replace (max_str_digits <? length (N_repr n))%nat with false.
  - rewrite N_of_digits_N_repr. reflexivity.
  - symmetry. apply Nat.ltb_ge. apply Nat.leb_le. exact H.
Qed.

Lemma match_number_int_repr (z : Z) (c : N) (r : str) :
  int_ok z = true -> ends_number c = true ->
  match_number (long_to_decimal_string z ++ c :: r) =
  Some (Ok (PInt z, c :: r)).
Proof.
  intros Hz Hc. unfold ends_number in Hc.
  rewrite !andb_true_iff, !negb_true_iff in Hc.
  destruct Hc as [[[Hd Hdot] He] HE].
  assert (Hfrac : scan_frac (c :: r) = (None, c :: r)).
  { unfold scan_frac. destruct r; [reflexivity|]. rewrite Hdot. reflexivity. }
  assert (Hexp : scan_exp (c :: r) = (None, c :: r)).
  { unfold scan_exp. rewrite He, HE. reflexivity. }
  assert (Hpos : forall n,
            (length (N_repr n) <=? max_str_digits)%nat = true ->
            match_number (N_repr n ++ c :: r) =
            Some (Ok (PInt (Z.of_N n), c :: r))).
  { intros n Hn. unfold match_number.
    assert (Hs : scan_sign (N_repr n ++ c :: r) = (false, N_repr n ++ c :: r)).
    { destruct n as [|p]; [reflexivity|].
      unfold N_repr. change (N.to_uint (N.pos p)) with (Pos.to_uint p).
      destruct (Pos_to_uint_head p) as (d & ds & E & Hdd & _).
      rewrite E. cbn [app scan_sign].
      destruct (N.eqb_spec d 45); [subst; discriminate | reflexivity]. }
    rewrite Hs, scan_int_N_repr by assumption. rewrite Hfrac, Hexp.
    rewrite number_value_int by exact Hn. reflexivity. }
  destruct z as [|p|p].
  - apply (Hpos 0%N). reflexivity.
  - apply (Hpos (N.pos p)). exact Hz.
  - unfold long_to_decimal_string. cbn [app]. unfold match_number.
    change (scan_sign (45%N :: N_repr (N.pos p) ++ c :: r))
      with (true, N_repr (N.pos p) ++ c :: r).
    cbv beta iota.
    rewrite scan_int_N_repr by assumption. rewrite Hfrac, Hexp.
    rewrite number_value_int by exact Hz. reflexivity.
Qed.

(** ** Numbers in front of a closing bracket

    What the scanner does with [s ++ "]" ++ r] does not depend on [r]: it
    never looks past the bracket. *)

Lemma span_digits_bracket (s : str) :
  exists d t, forall r, span_digits (s ++ 93%N :: r) = (d, t ++ 93%N :: r).
Proof.
  induction s as [|c s (d & t & IH)].
  - exists [], []. reflexivity.
  - simpl. destruct (is_digit c).
    + exists (c :: d), t. intros r. rewrite IH. reflexivity.
    + exists [], (c :: s). reflexivity.
Qed.

Lemma scan_sign_bracket (s : str) :
  exists a t, forall r, scan_sign (s ++ 93%N :: r) = (a, t ++ 93%N :: r).
Proof.
  destruct s as [|c s].
  - exists false, []. reflexivity.
  - simpl. destruct (c =? 45)%N.
    + exists true, s. reflexivity.
    + exists false, (c :: s). reflexivity.
Qed.

Lemma scan_int_bracket (s : str) :
  (forall r, scan_int (s ++ 93%N :: r) = None) \/
  exists d t, forall r, scan_int (s ++ 93%N :: r) = Some (d, t ++ 93%N :: r).
Proof.
  destruct s as [|c s].
  - left. reflexivity.
  - simpl. destruct (is_digit c); simpl; [|left; reflexivity].
    right. destruct (c =? 48)%N.
    + exists [c], s. reflexivity.
    + destruct (span_digits_bracket s) as (d & t & H).
      exists (c :: d), t. intros r. rewrite H. reflexivity.
Qed.

Lemma scan_frac_bracket (s : str) :
  exists o t, forall r, scan_frac (s ++ 93%N :: r) = (o, t ++ 93%N :: r).
Proof.
  destruct s as [|c [|c' s]].
  - exists None, []. intros [|x r]; reflexivity.
  - exists None, [c]. intros r. simpl.
    rewrite andb_false_r. reflexivity.
  - simpl. destruct ((c =? 46)%N && is_digit c').
    + destruct (span_digits_bracket s) as (d & t & H).
      exists (Some (c' :: d)), t. intros r. rewrite H. reflexivity.
    + exists None, (c :: c' :: s). reflexivity.
Qed.

Lemma scan_exp_sign_bracket (s : str) :
  exists a t, forall r, scan_exp_sign (s ++ 93%N :: r) = (a, t ++ 93%N :: r).
Proof.
  destruct s as [|c s].
  - exists false, []. reflexivity.
  - simpl. destruct (c =? 45)%N; [exists true, s; reflexivity|].
    destruct (c =? 43)%N; [exists false, s; reflexivity|].
    exists false, (c :: s). reflexivity.
Qed.

Lemma scan_exp_bracket (s : str) :
  exists o t, forall r, scan_exp (s ++ 93%N :: r) = (o, t ++ 93%N :: r).
Proof.
  destruct s as [|c s].
  - exists None, []. reflexivity.
  - simpl. destruct ((c =? 101)%N || (c =? 69)%N).
    + destruct (scan_exp_sign_bracket s) as (a & t & Ha).
      destruct (span_digits_bracket t) as (d & t' & Hd).
      destruct d as [|d0 d].
      * exists None, (c :: s). intros r. rewrite Ha, Hd. reflexivity.
      * exists (Some (a, d0 :: d)), t'. intros r. rewrite Ha, Hd. reflexivity.
    + exists None, (c :: s). reflexivity.
Qed.

Lemma match_number_bracket (s : str) :
  (forall r, match_number (s ++ 93%N :: r) = None) \/
  (exists e, forall r, match_number (s ++ 93%N :: r) = Some (Raise e)) \/
  exists v t, forall r,
    match_number (s ++ 93%N :: r) = Some (Ok (v, t ++ 93%N :: r)).
Proof.
  unfold match_number.
  destruct (scan_sign_bracket s) as (a & t1 & H1).
  destruct (scan_int_bracket t1) as [H2|(d & t2 & H2)].
  - left. intros r. rewrite H1, H2. reflexivity.
  - right.
    destruct (scan_frac_bracket t2) as (o3 & t3 & H3).
    destruct (scan_exp_bracket t3) as (o4 & t4 & H4).
    destruct (number_value a d o3 o4) as [v|e] eqn:Ev.
    + right. exists v, t4. intros r.
      rewrite H1, H2, H3, H4, Ev. reflexivity.
    + left. exists e. intros r.
      rewrite H1, H2, H3, H4, Ev. reflexivity.
Qed.

Lemma strip_prefix_bracket (p s : str) :
  ~ In 93%N p ->
  (forall r, strip_prefix p (s ++ 93%N :: r) = None) \/
  exists t, forall r, strip_prefix p (s ++ 93%N :: r) = Some (t ++ 93%N :: r).
Proof.
  revert s. induction p as [|a p IH]; intros s Hp.
  - right. exists s. reflexivity.
  - destruct s as [|b s]; simpl.
    + left. intros r. destruct (N.eqb_spec a 93); [|reflexivity].
      exfalso. apply Hp. left. assumption.
    + destruct (a =? b)%N; [|left; reflexivity].
      apply IH. intros H. apply Hp. right. exact H.
Qed.

Lemma scan_constant_bracket (s : str) :
  (exists e, forall r, scan_constant (s ++ 93%N :: r) = Raise e) \/
  exists v t, forall r,
    scan_constant (s ++ 93%N :: r) = Ok (v, t ++ 93%N :: r).
Proof.
  unfold scan_constant.
  destruct (@strip_prefix_bracket (lit "null") s) as [H|(t & H)];
    [vm_compute; intuition discriminate | |
     right; do 2 eexists; intros r; rewrite H; reflexivity].
  destruct (@strip_prefix_bracket (lit "true") s) as [H0|(t & H0)];
    [vm_compute; intuition discriminate | |
     right; do 2 eexists; intros r; rewrite H, H0; reflexivity].
  destruct (@strip_prefix_bracket (lit "false") s) as [H1|(t & H1)];
    [vm_compute; intuition discriminate | |
     right; do 2 eexists; intros r; rewrite H, H0, H1; reflexivity].
  destruct (@strip_prefix_bracket (lit "-Infinity") s) as [H2|(t & H2)];
    [vm_compute; intuition discriminate | |
     right; do 2 eexists; intros r; rewrite H, H0, H1, H2; reflexivity].
  destruct (match_number_bracket s) as [H3|[(e & H3)|(v & t & H3)]];
    [|left; exists e; intros r; rewrite H, H0, H1, H2, H3; reflexivity
     |right; exists v, t; intros r; rewrite H, H0, H1, H2, H3; reflexivity].
  destruct (@strip_prefix_bracket (lit "NaN") s) as [H4|(t & H4)];
    [vm_compute; intuition discriminate | |
     right; do 2 eexists; intros r; rewrite H, H0, H1, H2, H3, H4;
     reflexivity].
  destruct (@strip_prefix_bracket (lit "Infinity") s) as [H5|(t & H5)];
    [vm_compute; intuition discriminate | |
     right; do 2 eexists; intros r; rewrite H, H0, H1, H2, H3, H4, H5;
     reflexivity].
  left. exists JSONDecodeError. intros r.
  rewrite H, H0, H1, H2, H3, H4, H5. reflexivity.
Qed.

Lemma float_eqb_eq (a b : spec_float) : float_eqb a b = true -> a = b.
Proof.
  destruct a as [s|s| |s m e], b as [s'|s'| |s' m' e']; simpl;
    try discriminate; try reflexivity.
  - intros H. apply Bool.eqb_prop in H. subst. reflexivity.
  - intros H. apply Bool.eqb_prop in H. subst. reflexivity.
  - rewrite !andb_true_iff. intros [[H1 H2] H3].
    apply Bool.eqb_prop in H1. apply Pos.eqb_eq in H2. apply Z.eqb_eq in H3.
    subst. reflexivity.
Qed.

(** The text of a float that passes [float_text_ok] is read back as that
    float wherever it stands in front of a closing bracket. *)
Lemma scan_constant_floatstr (f : spec_float) (rest : str) :
  float_text_ok f = true ->
  scan_constant (floatstr f ++ 93%N :: rest) = Ok (PFloat f, 93%N :: rest).
Proof.
  intros Hok. unfold float_text_ok in Hok.
  apply andb_true_iff in Hok. destruct Hok as [_ Hscan].
  destruct (scan_constant_bracket (floatstr f)) as [(e & H)|(v & t & H)].
  - rewrite (H []) in Hscan. discriminate.
  - rewrite (H []) in Hscan. rewrite H.
    destruct v; try discriminate.
    destruct t as [|x t]; simpl in Hscan.
    + apply float_eqb_eq in Hscan. subst. reflexivity.
    + destruct (t ++ [93%N]) eqn:E; [|discriminate].
      destruct t; discriminate.
Qed.

(** ** Scanning one step *)

Lemma scan_once_string (fuel : nat) (s : str) :
  scan_once (S fuel) (34%N :: s) = ('(t, r) <- scanstring s ;; Ok (PStr t, r)).
Proof. reflexivity. Qed.

Lemma scan_once_array (fuel : nat) (c : N) (s : str) :
  is_ws c = false -> c <> 93%N ->
  scan_once (S fuel) (91%N :: c :: s) =
  ('(vs, r) <- parse_array fuel (c :: s) ;; Ok (PList vs, r)).
Proof.
  intros Hw Hc. cbn [scan_once N.eqb Pos.eqb skip_ws]. rewrite Hw.
  apply N.eqb_neq in Hc. rewrite Hc. reflexivity.
Qed.

Lemma scan_once_constant (fuel : nat) (c : N) (s : str) :
  is_digit c || (c =? 45)%N || (c =? 78)%N || (c =? 73)%N = true ->
  scan_once (S fuel) (c :: s) = scan_constant (c :: s).
Proof.
  intros H. cbn [scan_once].
  destruct (N.eqb_spec c 34); [subst; discriminate|].
  destruct (N.eqb_spec c 91); [subst; discriminate|].
  destruct (N.eqb_spec c 123); [subst; discriminate|].
  reflexivity.
Qed.

Lemma parse_array_eq (fuel : nat) (s : str) :
  parse_array (S fuel) s =
  ('(v, s1) <- scan_once fuel s ;;
   match skip_ws s1 with
   | c :: s2 =>
       if (c =? 93)%N then Ok ([v], s2)
       else if (c =? 44)%N then
         '(vs, r) <- parse_array fuel (skip_ws s2) ;; Ok (v :: vs, r)
       else Raise JSONDecodeError
   | [] => Raise JSONDecodeError
   end).
Proof. reflexivity. Qed.

(** The last item, followed by the closing bracket. *)
Lemma parse_array_last (fuel : nat) (x : str) (v : pyval) (rest : str) :
  scan_once fuel (x ++ 93%N :: rest) = Ok (v, 93%N :: rest) ->
  parse_array (S fuel) (x ++ 93%N :: rest) = Ok ([v], rest).
Proof. intros Hx. rewrite parse_array_eq, Hx. reflexivity. Qed.

Lemma scan_once_encoded_string (fuel : nat) (t r : str) :
  str_ok t = true ->
  scan_once (S fuel) (encode_basestring_ascii t ++ r) = Ok (PStr t, r).
Proof.
  intros Ht. unfold encode_basestring_ascii.
  cbn [app]. rewrite scan_once_string. rewrite <- app_assoc.
  cbn [app]. rewrite scanstring_encoded by exact Ht. reflexivity.
Qed.

Lemma digit_not_ws (c : N) :
  is_digit c || (c =? 45)%N || (c =? 78)%N || (c =? 73)%N = true ->
  is_ws c = false.
Proof.
  unfold is_digit, is_ws. intros H.
  destruct (N.eqb_spec c 32); [subst; discriminate|].
  destruct (N.eqb_spec c 9); [subst; discriminate|].
  destruct (N.eqb_spec c 10); [subst; discriminate|].
  destruct (N.eqb_spec c 13); [subst; discriminate|].
  reflexivity.
Qed.

Lemma strip_prefix_neq (a b : N) (p s : str) :
  a <> b -> strip_prefix (a :: p) (b :: s) = None.
Proof.
  intros H. cbn [strip_prefix]. apply N.eqb_neq in H. rewrite H. reflexivity.
Qed.

Lemma strip_prefix_same (a : N) (p s : str) :
  strip_prefix (a :: p) (a :: s) = strip_prefix p s.
Proof. cbn [strip_prefix]. rewrite N.eqb_refl. reflexivity. Qed.

Lemma scan_constant_number (c : N) (s : str) :
  is_digit c = true \/ (c = 45%N /\ exists d t, s = d :: t /\ is_digit d = true) ->
  scan_constant (c :: s) =
  match match_number (c :: s) with
  | Some vr => vr
  | None => Raise JSONDecodeError
  end.
Proof.
  intros H. unfold scan_constant.
  change (lit "null") with [110; 117; 108; 108]%N.
  change (lit "true") with [116; 114; 117; 101]%N.
  change (lit "false") with [102; 97; 108; 115; 101]%N.
  change (lit "-Infinity") with [45; 73; 110; 102; 105; 110; 105; 116; 121]%N.
  change (lit "NaN") with [78; 97; 78]%N.
  change (lit "Infinity") with [73; 110; 102; 105; 110; 105; 116; 121]%N.
  assert (Hc : c <> 110%N /\ c <> 116%N /\ c <> 102%N /\ c <> 78%N /\
               c <> 73%N).
  { destruct H as [H|[-> _]].
    - repeat split; intros ->; discriminate.
    - repeat split; discriminate. }
  destruct Hc as (H1 & H2 & H3 & H4 & H5).
  rewrite !strip_prefix_neq by congruence.
  assert (Hm : strip_prefix [45; 73; 110; 102; 105; 110; 105; 116; 121]%N
                            (c :: s) = None).
  { destruct H as [H|[-> (d & t & -> & Hd)]].
    - apply strip_prefix_neq. intros <-. discriminate.
    - rewrite strip_prefix_same.
      apply strip_prefix_neq. intros <-. discriminate. }
  rewrite Hm. rewrite !strip_prefix_neq by congruence.
  destruct (match_number (c :: s)); reflexivity.
Qed.

Lemma scan_once_int_repr (fuel : nat) (z : Z) (c : N) (r : str) :
  int_ok z = true -> ends_number c = true ->
  scan_once (S fuel) (long_to_decimal_string z ++ c :: r) = Ok (PInt z, c :: r).
Proof.
  intros Hz Hc. pose proof (@match_number_int_repr z c r Hz Hc) as Hm.
  assert (Hh : exists d s, long_to_decimal_string z ++ c :: r = d :: s /\
                 (is_digit d = true \/
                  (d = 45%N /\ exists d' t, s = d' :: t /\ is_digit d' = true))).
  { destruct z as [|p|p].
    - do 2 eexists. split; [reflexivity|]. left. reflexivity.
    - unfold long_to_decimal_string, N_repr.
      change (N.to_uint (N.pos p)) with (Pos.to_uint p).
      destruct (Pos_to_uint_head p) as (d & ds & E & Hd & _).
      rewrite E. do 2 eexists. split; [reflexivity|]. left. exact Hd.
    - unfold long_to_decimal_string, N_repr.
      change (N.to_uint (N.pos p)) with (Pos.to_uint p).
      destruct (Pos_to_uint_head p) as (d & ds & E & Hd & _).
      rewrite E. do 2 eexists. split; [reflexivity|]. right.
      split; [reflexivity|]. do 2 eexists. split; [reflexivity | exact Hd]. }
  destruct Hh as (d & s & E & Hd). rewrite E in *.
  rewrite scan_once_constant.
  - rewrite scan_constant_number by exact Hd. rewrite Hm. reflexivity.
  - destruct Hd as [Hd|[-> _]]; [rewrite Hd|]; reflexivity.
Qed.

Lemma scan_once_floatstr (fuel : nat) (f : spec_float) (rest : str) :
  float_text_ok f = true ->
  scan_once (S fuel) (floatstr f ++ 93%N :: rest) = Ok (PFloat f, 93%N :: rest).
Proof.
  intros Hok. pose proof (@scan_constant_floatstr f rest Hok) as Hs.
  unfold float_text_ok in Hok. rewrite !andb_true_iff in Hok.
  destruct Hok as [[_ Hhead] _].
  destruct (floatstr f) as [|c t]; [discriminate|].
  cbn [app] in *. rewrite scan_once_constant by exact Hhead. exact Hs.
Qed.

(** ** The text of a group *)

Lemma json_encode_record (r : record) :
  json_encode (record_as_str_date r) =
  if int_ok (qty r) then Ok (record_text r) else Raise ValueError.
Proof.
  unfold record_as_str_date, tuple_of_record.
  cbn [json_encode tl bind]. unfold int_repr.
  destruct (int_ok (qty r)); reflexivity.
Qed.

(** The encoder writes a group as the texts of its records between
    brackets, unless a quantity has too many digits. *)
Lemma json_dumps_group (rs : list record) :
  json_dumps (recs_as_str_date rs) =
  if forallb (fun r => int_ok (qty r)) rs
  then Ok ([91%N] ++ join (lit ", ") (map record_text rs) ++ [93%N])
  else Raise ValueError.
Proof.
  unfold json_dumps, recs_as_str_date. cbn [json_encode].
  match goal with
  | |- bind (?F _) _ = _ =>
      assert (H : forall l, F (map record_as_str_date l) =
                            if forallb (fun r => int_ok (qty r)) l
                            then Ok (map record_text l) else Raise ValueError)
  end.
  { induction l as [|r l IH]; [reflexivity|].
    cbn [map forallb]. rewrite json_encode_record, IH.
    destruct (int_ok (qty r)); [|reflexivity].
    destruct (forallb (fun r0 => int_ok (qty r0)) l); reflexivity. }
  rewrite H. destruct (forallb (fun r => int_ok (qty r)) rs); reflexivity.
Qed.

Lemma parse_array_more (fuel : nat) (x : str) (v : pyval) (s : str) :
  scan_once fuel (x ++ lit ", " ++ s) = Ok (v, lit ", " ++ s) ->
  skip_ws s = s ->
  parse_array (S fuel) (x ++ lit ", " ++ s) =
  ('(vs, r) <- parse_array fuel s ;; Ok (v :: vs, r)).
Proof.
  intros Hx Hs. rewrite parse_array_eq, Hx.
  change (lit ", ") with [44%N; 32%N].
  cbn [bind app skip_ws is_ws N.eqb Pos.eqb orb]. rewrite Hs. reflexivity.
Qed.

Lemma skip_ws_head (c : N) (s : str) : is_ws c = false -> skip_ws (c :: s) = c :: s.
Proof. intros H. cbn [skip_ws]. rewrite H. reflexivity. Qed.

Lemma skip_ws_int_repr (z : Z) (s : str) : skip_ws (long_to_decimal_string z ++ s) = long_to_decimal_string z ++ s.
Proof.
  destruct z as [|p|p]; try reflexivity.
  unfold long_to_decimal_string, N_repr. change (N.to_uint (N.pos p)) with (Pos.to_uint p).
  destruct (Pos_to_uint_head p) as (d & ds & E & Hd & _). rewrite E.
  apply skip_ws_head. apply digit_not_ws. rewrite Hd. reflexivity.
Qed.

Lemma skip_ws_floatstr (f : spec_float) (s : str) :
  float_text_ok f = true -> skip_ws (floatstr f ++ s) = floatstr f ++ s.
Proof.
  intros Hok. unfold float_text_ok in Hok. rewrite !andb_true_iff in Hok.
  destruct Hok as [[_ Hhead] _].
  destruct (floatstr f) as [|c t]; [discriminate|].
  apply skip_ws_head. apply digit_not_ws. exact Hhead.
Qed.

Lemma wf_record_parts (r : record) :
  wf_record r = true ->
  valid_date (rec_date r) = true /\ str_ok (trans r) = true /\
  str_ok (symbol r) = true /\ int_ok (qty r) = true /\
  float_text_ok (price r) = true.
Proof.
  unfold wf_record. rewrite !andb_true_iff. tauto.
Qed.

Lemma wf_records_int_ok (rs : list record) :
  forallb wf_record rs = true ->
  forallb (fun r => int_ok (qty r)) rs = true.
Proof.
  induction rs as [|r rs IH]; intros Hwf; [reflexivity|].
  cbn [forallb] in *. apply andb_true_iff in Hwf. destruct Hwf as [Hr Hwf].
  destruct (wf_record_parts r Hr) as (_ & _ & _ & Hq & _).
  rewrite Hq, (IH Hwf). reflexivity.
Qed.

Lemma json_dumps_recs (rs : list record) :
  forallb wf_record rs = true ->
  json_dumps (recs_as_str_date rs) =
  Ok ([91%N] ++ join (lit ", ") (map record_text rs) ++ [93%N]).
Proof.
  intros Hwf. rewrite json_dumps_group, (wf_records_int_ok rs Hwf).
  reflexivity.
Qed.

Lemma isoformat_ok (d : date) : valid_date d = true -> str_ok (isoformat d) = true.
Proof.
  intros Hv. pose proof (fromisoformat_isoformat d Hv) as H.
  unfold fromisoformat, isoformat in *.
  set (a := digit (year d / 1000 mod 10)) in *.
  set (b := digit (year d / 100 mod 10)) in *.
  set (c := digit (year d / 10 mod 10)) in *.
  set (e := digit (year d mod 10)) in *.
  set (f := digit (month d / 10 mod 10)) in *.
  set (g := digit (month d mod 10)) in *.
  set (h := digit (day d / 10 mod 10)) in *.
  set (i := digit (day d mod 10)) in *.
  assert (Hs : forall x, digit_val x <> None -> is_scalar x = true).
  { intros x Hx. unfold digit_val in Hx.
    destruct (is_digit x) eqn:E; [|congruence].
    unfold is_digit in E. apply andb_true_iff in E. destruct E as [E1 E2].
    apply N.leb_le in E1, E2. unfold is_scalar, in_range.
    apply andb_true_iff. split; [apply N.ltb_lt; lia|].
    apply negb_true_iff, andb_false_iff. left. apply N.leb_gt. lia. }
  destruct (digit_val a) eqn:Ea; [|discriminate].
  destruct (digit_val b) eqn:Eb; [|discriminate].
  destruct (digit_val c) eqn:Ec; [|discriminate].
  destruct (digit_val e) eqn:Ee; [|discriminate].
  destruct (digit_val f) eqn:Ef; [|discriminate].
  destruct (digit_val g) eqn:Eg; [|discriminate].
  destruct (digit_val h) eqn:Eh; [|discriminate].
  destruct (digit_val i) eqn:Ei; [|discriminate].
  unfold str_ok. apply forallb_forall. intros x Hx. cbn [In] in Hx.
  repeat (destruct Hx as [<-|Hx];
          [first [reflexivity | apply Hs; congruence]|]).
  destruct Hx.
Qed.

Lemma enc_app (t s : str) :
  34%N :: flat_map escape_char t ++ [34%N] ++ s =
  encode_basestring_ascii t ++ s.
Proof.
  unfold encode_basestring_ascii. cbn [app]. rewrite <- app_assoc. reflexivity.
Qed.

(** The scanner reads the text of a well-formed record back. *)
Lemma scan_once_record (fuel : nat) (r : record) (rest : str) :
  wf_record r = true ->
  scan_once (7 + fuel) (record_text r ++ rest) = Ok (record_as_str_date r, rest).
Proof.
  intros Hwf. destruct (wf_record_parts r Hwf) as (Hd & Ht & Hs & Hq & Hp).
  pose proof (isoformat_ok _ Hd) as Hi.
  change (7 + fuel)%nat with (S (S (S (S (S (S (S fuel))))))).
  unfold record_text. cbn [join].
  unfold encode_basestring_ascii at 1. cbn [app].
  rewrite scan_once_array by (try reflexivity; discriminate).
  repeat rewrite <- app_assoc.
  rewrite enc_app.
  erewrite parse_array_more;
    [| apply scan_once_encoded_string; exact Hi | reflexivity].
  erewrite parse_array_more;
    [| apply scan_once_encoded_string; exact Ht | reflexivity].
  erewrite parse_array_more;
    [| apply scan_once_encoded_string; exact Hs | apply skip_ws_int_repr].
  erewrite parse_array_more;
    [| change (lit ", ") with [44%N; 32%N]; cbn [app];
       apply scan_once_int_repr; [exact Hq | reflexivity]
     | apply skip_ws_floatstr; exact Hp].
  cbn [app]. erewrite parse_array_last;
    [| apply scan_once_floatstr; exact Hp].
  reflexivity.
Qed.

Lemma record_text_head (r : record) :
  exists s, record_text r = 91%N :: s.
Proof. unfold record_text. eexists. reflexivity. Qed.

Lemma skip_ws_join_records (r : record) (rs : list record) (s : str) :
  skip_ws (join (lit ", ") (map record_text (r :: rs)) ++ s) =
  join (lit ", ") (map record_text (r :: rs)) ++ s.
Proof.
  destruct (record_text_head r) as (t & E).
  cbn [map join]. rewrite E. destruct (map record_text rs); reflexivity.
Qed.

Lemma parse_array_records (rest : str) (rs : list record) :
  forall (r : record) (fuel : nat),
    forallb wf_record (r :: rs) = true ->
    (length rs + 8 <= fuel)%nat ->
    parse_array fuel (join (lit ", ") (map record_text (r :: rs)) ++
                      93%N :: rest) =
    Ok (map record_as_str_date (r :: rs), rest).
Proof.
  induction rs as [|r' rs IH]; intros r fuel Hwf Hfuel.
  - cbn [forallb] in Hwf. rewrite andb_true_r in Hwf.
    cbn [map join]. cbn [length] in Hfuel.
    destruct fuel as [|fuel]; [lia|].
    apply parse_array_last.
    replace fuel with (7 + (fuel - 7))%nat by lia.
    apply scan_once_record. exact Hwf.
  - cbn [forallb] in Hwf. apply andb_true_iff in Hwf.
    destruct Hwf as [Hr Hwf]. cbn [length] in Hfuel.
    destruct fuel as [|fuel]; [lia|].
    change (join (lit ", ") (map record_text (r :: r' :: rs)))
      with (record_text r ++ lit ", " ++
            join (lit ", ") (map record_text (r' :: rs))).
    rewrite <- !app_assoc.
    erewrite parse_array_more.
    + rewrite IH by (try exact Hwf; lia). reflexivity.
    + replace fuel with (7 + (fuel - 7))%nat by lia.
      apply scan_once_record. exact Hr.
    + apply skip_ws_join_records.
Qed.

Lemma length_record_text (r : record) : (14 <= length (record_text r))%nat.
Proof.
  unfold record_text, encode_basestring_ascii. cbn [join].
  change (lit ", ") with [44%N; 32%N].
  repeat (rewrite length_app || cbn [length]). lia.
Qed.

Lemma length_join_records (r : record) (rs : list record) :
  (length rs + 14 <=
   length (join (lit ", ") (map record_text (r :: rs))))%nat.
Proof.
  revert r. induction rs as [|r' rs IH]; intros r.
  - cbn [map join length]. apply length_record_text.
  - change (join (lit ", ") (map record_text (r :: r' :: rs)))
      with (record_text r ++ lit ", " ++
            join (lit ", ") (map record_text (r' :: rs))).
    rewrite !length_app. specialize (IH r').
    pose proof (length_record_text r).
    change (length (lit ", ")) with 2%nat. cbn [length] in *. lia.
Qed.

(** [json.loads(json.dumps(recs_as_str_date))] gives the lists back. *)
Lemma json_loads_dumps_recs (rs : list record) :
  forallb wf_record rs = true ->
  (text <- json_dumps (recs_as_str_date rs) ;; json_loads text) =
  Ok (recs_as_str_date rs).
Proof.
  intros Hwf. rewrite json_dumps_recs by exact Hwf. cbn [bind].
  destruct rs as [|r rs]; [reflexivity|].
  destruct (record_text_head r) as (t & E).
  unfold json_loads. cbn [app].
  set (body := join (lit ", ") (map record_text (r :: rs))).
  assert (Hb : exists u, body = 91%N :: u).
  { unfold body. cbn [map join]. rewrite E.
    destruct (map record_text rs); eexists; reflexivity. }
  destruct Hb as (u & Hb).
  cbn [skip_ws is_ws N.eqb Pos.eqb orb].
  rewrite Hb. cbn [app].
  rewrite scan_once_array by (try reflexivity; discriminate).
  change (91%N :: u ++ [93%N]) with ((91%N :: u) ++ [93%N]).
  rewrite <- Hb. unfold body.
  rewrite parse_array_records.
  - reflexivity.
  - exact Hwf.
  - pose proof (length_join_records r rs) as Hl. fold body in Hl.
    fold body. cbn [length]. rewrite length_app. lia.
Qed.

(** ** The text is ASCII *)

Lemma hex_digit_ascii (d : N) : (d < 16)%N -> is_ascii (hex_digit d) = true.
Proof.
  intros H. unfold is_ascii, hex_digit.
  destruct (d <? 10)%N; apply N.ltb_lt; lia.
Qed.

Lemma escape_char_ascii (c : N) : forallb is_ascii (escape_char c) = true.
Proof.
  unfold escape_char.
  repeat match goal with
         | |- context [if (c =? ?k)%N then _ else _] =>
             destruct (c =? k)%N; [reflexivity|]
         end.
  destruct ((32 <=? c)%N && (c <=? 126)%N) eqn:Hp.
  - apply andb_true_iff in Hp. destruct Hp as [_ Hp]. apply N.leb_le in Hp.
    cbn [forallb]. rewrite andb_true_r. apply N.ltb_lt. lia.
  - destruct (c <? 65536)%N; unfold hex4; cbn [app forallb];
      rewrite !hex_digit_ascii by (apply N.mod_lt; lia); reflexivity.
Qed.

Lemma encode_basestring_ascii_ascii (s : str) :
  forallb is_ascii (encode_basestring_ascii s) = true.
Proof.
  unfold encode_basestring_ascii. rewrite !forallb_app.
  assert (H : forallb is_ascii (flat_map escape_char s) = true).
  { induction s as [|c s IH]; [reflexivity|].
    cbn [flat_map]. rewrite forallb_app, escape_char_ascii, IH. reflexivity. }
  rewrite H. reflexivity.
Qed.

Lemma str_of_uint_ascii (u : Decimal.uint) :
  forallb is_ascii (str_of_uint u) = true.
Proof. induction u; simpl; auto. Qed.

Lemma int_repr_ascii (z : Z) : forallb is_ascii (long_to_decimal_string z) = true.
Proof.
  destruct z; unfold long_to_decimal_string, N_repr; cbn [forallb];
    rewrite ?str_of_uint_ascii; reflexivity.
Qed.

Lemma record_text_ascii (r : record) :
  float_text_ok (price r) = true -> forallb is_ascii (record_text r) = true.
Proof.
  intros Hp. unfold float_text_ok in Hp. rewrite !andb_true_iff in Hp.
  destruct Hp as [[Hp _] _].
  unfold record_text. cbn [join].
  rewrite !forallb_app, !encode_basestring_ascii_ascii, int_repr_ascii, Hp.
  reflexivity.
Qed.

Lemma join_records_ascii (rs : list record) :
  forallb wf_record rs = true ->
  forallb is_ascii (join (lit ", ") (map record_text rs)) = true.
Proof.
  induction rs as [|r rs IH]; intros Hwf; [reflexivity|].
  cbn [forallb] in Hwf. apply andb_true_iff in Hwf. destruct Hwf as [Hr Hwf].
  destruct (wf_record_parts r Hr) as (_ & _ & _ & _ & Hp).
  destruct rs as [|r' rs].
  - cbn [map join]. apply record_text_ascii. exact Hp.
  - change (join (lit ", ") (map record_text (r :: r' :: rs)))
      with (record_text r ++ lit ", " ++
            join (lit ", ") (map record_text (r' :: rs))).
    rewrite !forallb_app, (record_text_ascii r Hp), (IH Hwf). reflexivity.
Qed.

(** ** One group through the encoder and the decoder *)

Lemma reconstruct_record (r : record) :
  valid_date (rec_date r) = true ->
  reconstruct (record_as_str_date r) = Ok (tuple_of_record r).
Proof.
  intros Hv. unfold reconstruct, record_as_str_date. cbn [tuple_of_record tl].
  unfold date_fromisoformat. rewrite fromisoformat_isoformat by exact Hv.
  reflexivity.
Qed.

Lemma mapM_reconstruct (rs : list record) :
  forallb wf_record rs = true ->
  mapM reconstruct (map record_as_str_date rs) = Ok (map tuple_of_record rs).
Proof.
  induction rs as [|r rs IH]; intros Hwf; [reflexivity|].
  cbn [forallb] in Hwf. apply andb_true_iff in Hwf. destruct Hwf as [Hr Hwf].
  destruct (wf_record_parts r Hr) as (Hd & _).
  cbn [map mapM]. rewrite (reconstruct_record r Hd), (IH Hwf). reflexivity.
Qed.

Lemma compress_group_ok (zlib : zlib_module) (k : date) (rs : list record) :
  forallb wf_record rs = true ->
  compress_group zlib (k, rs) =
  Ok (k, compress zlib
           (map byte_of_N
                ([91%N] ++ join (lit ", ") (map record_text rs) ++ [93%N]))).
Proof.
  intros Hwf. unfold compress_group. rewrite json_dumps_recs by exact Hwf.
  cbn [bind].
  rewrite utf8_encode_ascii; [reflexivity|].
  cbn [app forallb]. rewrite forallb_app, (join_records_ascii rs Hwf).
  reflexivity.
Qed.

Lemma decompress_compress_group (zlib : zlib_module) (k : date)
      (rs : list record) :
  zlib_lossless zlib -> forallb wf_record rs = true ->
  (row <- compress_group zlib (k, rs) ;; decompress_group zlib row) =
  Ok (map tuple_of_record rs).
Proof.
  intros Hz Hwf. rewrite (compress_group_ok zlib k rs Hwf). cbn [bind].
  unfold decompress_group. cbn [snd]. unfold zlib_decompress. rewrite Hz.
  cbn [bind].
  pose proof (json_loads_dumps_recs rs Hwf) as Hj.
  rewrite (json_dumps_recs rs Hwf) in Hj. cbn [bind] in Hj.
  rewrite utf8_decode_ascii.
  - cbn [bind]. rewrite Hj. cbn [bind recs_as_str_date py_iter].
    apply mapM_reconstruct. exact Hwf.
  - cbn [app forallb]. rewrite forallb_app, (join_records_ascii rs Hwf).
    reflexivity.
Qed.

(** ** The text of a [float] is ASCII *)

Lemma N_repr_ascii (n : N) : forallb is_ascii (N_repr n) = true.
Proof. apply str_of_uint_ascii. Qed.

Lemma strip_trailing_zeros_rev_In (x : N) (r : str) :
  In x (strip_trailing_zeros_rev r) -> In x r.
Proof.
  induction r as [|c r IH]; cbn [strip_trailing_zeros_rev]; [auto|].
  destruct (c =? 48)%N; [right; auto | auto].
Qed.

Lemma strip_trailing_zeros_ascii (ds : str) :
  forallb is_ascii ds = true ->
  forallb is_ascii (strip_trailing_zeros ds) = true.
Proof.
  intros H. unfold strip_trailing_zeros.
  assert (Hr : forallb is_ascii (rev (strip_trailing_zeros_rev (rev ds))) = true).
  { apply forallb_forall. intros x Hx. apply in_rev in Hx.
    apply strip_trailing_zeros_rev_In in Hx. apply in_rev in Hx.
    rewrite forallb_forall in H. auto. }
  destruct (rev (strip_trailing_zeros_rev (rev ds))); [reflexivity | exact Hr].
Qed.

Lemma zeros_ascii (n : Z) : forallb is_ascii (zeros n) = true.
Proof.
  unfold zeros. induction (Z.to_nat n); [reflexivity | exact IHn0].
Qed.

Lemma format_digits_ascii (ds : str) (decpt : Z) :
  forallb is_ascii ds = true -> forallb is_ascii (format_digits ds decpt) = true.
Proof.
  intros H. unfold format_digits.
  destruct ((decpt <=? -4) || (16 <? decpt)).
  - rewrite !forallb_app.
    assert (Hm : forallb is_ascii
                   match ds with
                   | [] => []
                   | [d] => [d]
                   | d :: (_ :: _) as rest => d :: 46%N :: rest
                   end = true).
    { destruct ds as [|d [|d' rest]]; [reflexivity | exact H |].
      cbn [forallb] in *. apply andb_true_iff in H. destruct H as [-> ->].
      reflexivity. }
    rewrite Hm. cbn [andb].
    assert (He : forallb is_ascii
                   (if Z.abs (decpt - 1) <? 10
                    then 48%N :: N_repr (Z.to_N (Z.abs (decpt - 1)))
                    else N_repr (Z.to_N (Z.abs (decpt - 1)))) = true).
    { destruct (Z.abs (decpt - 1) <? 10); cbn [forallb];
        rewrite N_repr_ascii; reflexivity. }
    rewrite He. destruct (decpt - 1 <? 0); reflexivity.
  - destruct (decpt <=? 0).
    + rewrite !forallb_app, zeros_ascii, H. reflexivity.
    + destruct (Z.of_nat (length ds) <=? decpt).
      * rewrite !forallb_app, zeros_ascii, H. reflexivity.
      * rewrite <- (firstn_skipn (Z.to_nat decpt) ds) in H.
        rewrite forallb_app in H. apply andb_true_iff in H.
        destruct H as [H1 H2].
        rewrite !forallb_app, H1, H2. reflexivity.
Qed.

Lemma floatstr_ascii (f : spec_float) : forallb is_ascii (floatstr f) = true.
Proof.
  destruct f as [s|s| |s m e]; try (destruct s; reflexivity); [reflexivity|].
  unfold floatstr, float_repr.
  destruct (shortest_decimal s m e) as [c x].
  rewrite forallb_app.
  rewrite format_digits_ascii
    by (apply strip_trailing_zeros_ascii, N_repr_ascii).
  destruct s; reflexivity.
Qed.

(** ** Results and exceptions *)


Lemma bind_ok (A B : Type) (m : result A) (k : A -> result B) (b : B) :
  bind m k = Ok b -> exists a, m = Ok a /\ k a = Ok b.
Proof. destruct m as [a|e0]; cbn; intros H; [eauto | discriminate]. Qed.



(** ** The encoder on any group *)

Lemma record_text_is_ascii (r : record) :
  forallb is_ascii (record_text r) = true.
Proof.
  unfold record_text. cbn [join].
  rewrite !forallb_app, !encode_basestring_ascii_ascii, int_repr_ascii,
    floatstr_ascii.
  reflexivity.
Qed.

Lemma join_records_is_ascii (rs : list record) :
  forallb is_ascii (join (lit ", ") (map record_text rs)) = true.
Proof.
  induction rs as [|r rs IH]; [reflexivity|].
  destruct rs as [|r' rs].
  - cbn [map join]. apply record_text_is_ascii.
  - change (join (lit ", ") (map record_text (r :: r' :: rs)))
      with (record_text r ++ lit ", " ++
            join (lit ", ") (map record_text (r' :: rs))).
    rewrite !forallb_app, record_text_is_ascii, IH. reflexivity.
Qed.

Lemma group_text_is_ascii (rs : list record) :
  forallb is_ascii (group_text rs) = true.
Proof.
  unfold group_text. rewrite !forallb_app, join_records_is_ascii. reflexivity.
Qed.


Lemma compress_group_text (zlib : zlib_module) (k : date) (rs : list record) :
  compress_group zlib (k, rs) =
  if forallb (fun r => int_ok (qty r)) rs
  then Ok (k, compress zlib (map byte_of_N (group_text rs)))
  else Raise ValueError.
Proof.
  unfold compress_group. rewrite json_dumps_group.
  destruct (forallb (fun r => int_ok (qty r)) rs); [|reflexivity].
  cbn [bind]. fold (group_text rs).
  rewrite utf8_encode_ascii; [reflexivity | apply group_text_is_ascii].
Qed.



Lemma stored_lossless : zlib_lossless stored.
Proof. intros data. reflexivity. Qed.

(** C3, as the code has it.  With a lossless [zlib], for every date and
    every list of records whose dates are valid, whose strings hold no
    surrogate code points, whose quantities have at most 4300 digits and
    whose prices are printed by [json.dumps] as text that [json.loads]
    reads back as the same [float], [compress_group] returns a blob, and
    [decompress_group] decodes that blob into the same records, tuple by
    tuple and in the same order. *)
Theorem decompress_group_inverts_compress_group (zlib : zlib_module)
        (k : date) (rs : list record) :
  zlib_lossless zlib -> forallb wf_record rs = true ->
  exists blob,
    compress_group zlib (k, rs) = Ok (k, blob) /\
    decompress_group zlib (k, blob) = Ok (map tuple_of_record rs).
Proof.
  intros Hz Hwf.
  pose proof (decompress_compress_group k rs Hz Hwf) as H.
  rewrite compress_group_text, (wf_records_int_ok rs Hwf) in *.
  cbn [bind] in H.
  eexists. split; [reflexivity | exact H].
Qed.

Lemma decompress_group_inverts_compress_group_witness :
  exists blob,
    compress_group stored (mkdate 2023 5 1, sample_records) =
      Ok (mkdate 2023 5 1, blob) /\
    decompress_group stored (mkdate 2023 5 1, blob) =
      Ok (map tuple_of_record sample_records).
Proof.
  apply (@decompress_group_inverts_compress_group stored (mkdate 2023 5 1)
           sample_records).
  - exact stored_lossless.
  - vm_compute. reflexivity.
Defined.

(** C3 does not hold for every record sequence.  A symbol made of the two
    surrogate code points U+D83D U+DE00 is written as the escapes of a
    surrogate pair, which the decoder reads as the one character U+1F600:
    the decoded record differs from the input.  And for a quantity of
    4301 digits the encoder returns no blob at all. *)
Lemma decompress_group_is_not_an_inverse :
  (exists blob,
     compress_group stored (mkdate 2023 5 1, [surrogate_record]) =
       Ok (mkdate 2023 5 1, blob) /\
     decompress_group stored (mkdate 2023 5 1, blob) =
       Ok [[PDate (mkdate 2023 5 1); PStr (lit "BUY"); PStr [128512%N];
            PInt 100; PFloat (price_of_cents 1234)]] /\
     tuple_of_record surrogate_record <>
       [PDate (mkdate 2023 5 1); PStr (lit "BUY"); PStr [128512%N];
        PInt 100; PFloat (price_of_cents 1234)]) /\
  compress_group stored (mkdate 2023 5 1, [huge_record]) = Raise ValueError.
Proof.
  split.
  - eexists. split; [vm_compute; reflexivity|].
    split; [vm_compute; reflexivity|].
    unfold tuple_of_record, surrogate_record. cbn [symbol]. intros H.
    discriminate H.
  - rewrite compress_group_text.
    replace (forallb (fun r => int_ok (qty r)) [huge_record]) with false
      by (vm_compute; reflexivity).
    reflexivity.
Qed.

(** ** What the decoder raises *)




(** ** The order of the groups *)

Lemma existsb_filter_neq (x a : date) (l : list date) :
  date_eqb x a = false ->
  existsb (date_eqb x) (filter (fun y => negb (date_eqb y a)) l) =
  existsb (date_eqb x) l.
Proof.
  intros Hxa. induction l as [|y l IH]; [reflexivity|].
  cbn [filter existsb]. destruct (date_eqb y a) eqn:Eya; cbn [negb existsb].
  - apply date_eqb_eq in Eya. subst y. rewrite Hxa. exact IH.
  - rewrite IH. reflexivity.
Qed.

Lemma first_occurrences_snoc (l : list date) (x : date) :
  first_occurrences (l ++ [x]) =
  first_occurrences l ++
  (if existsb (date_eqb x) (first_occurrences l) then [] else [x]).
Proof.
  induction l as [|a l IH]; [reflexivity|].
  cbn [app first_occurrences existsb]. rewrite IH, filter_app.
  cbn [app]. f_equal. f_equal.
  destruct (date_eqb x a) eqn:Exa; cbn [orb].
  - destruct (existsb (date_eqb x) (first_occurrences l));
      [reflexivity|]. cbn [filter]. rewrite Exa. reflexivity.
  - rewrite existsb_filter_neq by exact Exa.
    destruct (existsb (date_eqb x) (first_occurrences l));
      [reflexivity|]. cbn [filter]. rewrite Exa. reflexivity.
Qed.

Lemma grouped_records_keys (R : list record) :
  map fst (grouped_records R) = first_occurrences (map rec_date R).
Proof.
  induction R as [|r P IH] using rev_ind; [reflexivity|].
  rewrite grouped_records_snoc, dict_append_keys, map_app.
  cbn [map]. rewrite first_occurrences_snoc, IH. reflexivity.
Qed.

Lemma grouped_records_closed_form (R : list record) :
  grouped_records R =
  map (fun k => (k, on_date k R)) (first_occurrences (map rec_date R)).
Proof.
  rewrite <- grouped_records_keys, map_map.
  destruct (grouping_inv_holds R) as (_ & Hon & _).
  rewrite <- (map_id (grouped_records R)) at 1.
  apply map_ext_in. intros [k g] Hin.
  rewrite Forall_forall in Hon. specialize (Hon _ Hin). cbn [fst snd] in *.
  rewrite Hon. reflexivity.
Qed.

Lemma first_occurrences_length (l : list date) :
  (length (first_occurrences l) <= length l)%nat.
Proof.
  induction l as [|a l IH]; [apply Nat.le_refl|].
  cbn [first_occurrences length].
  pose proof (filter_length_le (fun x => negb (date_eqb x a))
                               (first_occurrences l)).
  lia.
Qed.

(** X4. The grouping loop lists the groups in the order in which their
    dates occur first in the input, and each group holds the input records
    of its date in input order: the dictionary it builds is determined, key
    order included.  There are at most as many groups as records. *)
Theorem grouped_records_in_first_occurrence_order (records : list record) :
  grouped_records records =
    map (fun k => (k, on_date k records))
        (first_occurrences (map rec_date records)) /\
  (length (grouped_records records) <= length records)%nat.
Proof.
  split; [apply grouped_records_closed_form|].
  assert (H : length (grouped_records records) =
              length (first_occurrences (map rec_date records))).
  { rewrite <- grouped_records_keys. symmetry. apply length_map. }
  rewrite H. clear H.
  pose proof (first_occurrences_length (map rec_date records)) as H.
  rewrite length_map in H. exact H.
Qed.

(** ** The pipeline of [main] *)

Lemma pool_map_ok (A B : Type) (processes : nat) (func : A -> result B)
      (iterable : list A) (order : list nat) (ys : list B) :
  (1 <= processes)%nat ->
  Permutation order (seq 0 (number_of_tasks processes iterable)) ->
  mapM func iterable = Ok ys ->
  pool_map processes func iterable order = Ok (map Some ys).
Proof.
  intros Hp Hperm Hys. unfold number_of_tasks in Hperm.
  destruct (@get_tasks_spec A processes iterable Hp) as [Hcat Hch].
  unfold pool_map.
  destruct (Nat.ltb_spec processes 1) as [Hlt|_]; [lia|].
  set (chunksize := map_chunksize processes (length iterable)) in *.
  set (tasks := get_tasks chunksize iterable) in *.
  assert (Hin : forall i, In i order -> (i < length tasks)%nat).
  { intros i Hi. apply (Permutation_in _ Hperm) in Hi.
    apply in_seq in Hi. lia. }
  rewrite <- Hcat in Hys.
  destruct (@mapM_concat_ok _ _ func tasks ys Hys) as (yss & Hc & Hl & Hn).
  unfold MapResult_init. rewrite <- Hcat at 1.
  rewrite <- (blocks_none tasks yss).
  rewrite (@pool_fold_ok A B func chunksize tasks yss Hch Hl Hn order
             (fun _ => false) Hin).
  rewrite <- Hc. f_equal. apply blocks_all.
  - rewrite <- (length_map (@length B) yss), Hl. apply length_map.
  - intros j Hj. rewrite orb_false_r. apply existsb_exists.
    exists j. split; [|apply Nat.eqb_refl].
    apply (Permutation_in _ (Permutation_sym Hperm)).
    apply in_seq. lia.
Qed.

Lemma unslot_map_Some (X : Type) (ys : list X) : unslot (map Some ys) = Ok ys.
Proof.
  unfold unslot. induction ys as [|y ys IH]; [reflexivity|].
  cbn [map mapM bind]. rewrite IH. reflexivity.
Qed.

Lemma get_tasks_from_length (A A' : Type) (size fuel : nat) :
  forall (l : list A) (l' : list A'),
    length l = length l' ->
    length (get_tasks_from fuel size l) = length (get_tasks_from fuel size l').
Proof.
  induction fuel as [|fuel IH]; intros l l' Hl; [reflexivity|].
  cbn [get_tasks_from].
  pose proof (length_firstn size l) as H1.
  pose proof (length_firstn size l') as H2.
  pose proof (length_skipn size l) as H3.
  pose proof (length_skipn size l') as H4.
  destruct (firstn size l) as [|x t] eqn:E1;
    destruct (firstn size l') as [|x' t'] eqn:E2; cbn [length] in *;
      try lia.
  f_equal. apply IH. lia.
Qed.

Lemma number_of_tasks_length (A A' : Type) (processes : nat)
      (l : list A) (l' : list A') :
  length l = length l' ->
  number_of_tasks processes l = number_of_tasks processes l'.
Proof.
  intros Hl. unfold number_of_tasks, get_tasks. rewrite <- Hl.
  apply get_tasks_from_length. exact Hl.
Qed.

Lemma wf_on_date (k : date) (R : list record) :
  forallb wf_record R = true -> forallb wf_record (on_date k R) = true.
Proof.
  intros H. apply forallb_forall. intros r Hr.
  unfold on_date in Hr. apply filter_In in Hr.
  rewrite forallb_forall in H. apply H, Hr.
Qed.

Lemma wf_groups (R : list record) (g : group) :
  forallb wf_record R = true -> In g (grouped_records R) ->
  forallb wf_record (snd g) = true.
Proof.
  intros Hwf Hin. rewrite grouped_records_closed_form in Hin.
  apply in_map_iff in Hin. destruct Hin as (k & <- & _).
  apply wf_on_date, Hwf.
Qed.

Lemma compress_group_wf (zlib : zlib_module) (k : date) (rs : list record) :
  forallb wf_record rs = true ->
  compress_group zlib (k, rs) =
  Ok (k, compress zlib (map byte_of_N (group_text rs))).
Proof.
  intros Hwf. rewrite compress_group_text, (wf_records_int_ok rs Hwf).
  reflexivity.
Qed.

(** The rows the compression step writes. *)
Lemma mapM_compress_group (zlib : zlib_module) (gs : groups) :
  (forall g, In g gs -> forallb wf_record (snd g) = true) ->
  mapM (compress_group zlib) gs =
  Ok (map (fun g : group =>
             (fst g, compress zlib (map byte_of_N (group_text (snd g))))) gs).
Proof.
  intros Hwf. apply mapM_total. intros [k rs] Hin.
  apply compress_group_wf. apply (Hwf _ Hin).
Qed.

Lemma mapM_decompress_group (zlib : zlib_module) (gs : groups) :
  zlib_lossless zlib ->
  (forall g, In g gs -> forallb wf_record (snd g) = true) ->
  mapM (decompress_group zlib)
       (map (fun g : group =>
               (fst g, compress zlib (map byte_of_N (group_text (snd g)))))
            gs) =
  Ok (map (fun g : group => map tuple_of_record (snd g)) gs).
Proof.
  intros Hz Hwf. rewrite <- (map_map _ (fun r => r)), map_id.
  induction gs as [|[k rs] gs IH]; [reflexivity|].
  cbn [map mapM fst snd].
  pose proof (@decompress_compress_group zlib k rs Hz
                (Hwf (k, rs) (or_introl eq_refl))) as H.
  rewrite (compress_group_wf zlib k rs (Hwf (k, rs) (or_introl eq_refl)))
    in H.
  cbn [bind] in H. rewrite H. cbn [bind].
  rewrite IH by (intros g Hg; apply Hwf; right; exact Hg). reflexivity.
Qed.

Lemma all_retrieved_records_ok (zlib : zlib_module) (num_processes : nat)
      (order_w order_r : list nat) (R : list record) :
  zlib_lossless zlib -> forallb wf_record R = true ->
  (1 <= num_processes)%nat ->
  Permutation order_w
    (seq 0 (number_of_tasks num_processes (grouped_records R))) ->
  Permutation order_r
    (seq 0 (number_of_tasks num_processes (grouped_records R))) ->
  all_retrieved_records zlib num_processes order_w order_r R =
  Ok (map tuple_of_record (flatten (map snd (grouped_records R)))).
Proof.
  intros Hz Hwf Hp Hw Hr. unfold all_retrieved_records.
  assert (Hg : forall g, In g (grouped_records R) ->
                         forallb wf_record (snd g) = true).
  { intros g Hg. eapply wf_groups; eassumption. }
  rewrite (@pool_map_ok _ _ num_processes (compress_group zlib)
             (grouped_records R) order_w _ Hp Hw
             (mapM_compress_group zlib (grouped_records R) Hg)).
  cbn [bind]. rewrite unslot_map_Some. cbn [bind].
  erewrite pool_map_ok.
  - cbn [bind]. rewrite unslot_map_Some. cbn [bind].
    unfold flatten. rewrite concat_map, map_map. reflexivity.
  - exact Hp.
  - erewrite number_of_tasks_length; [exact Hr|]. apply length_map.
  - apply mapM_decompress_group; [exact Hz | exact Hg].
Qed.

(** C1, as the code has it.  With a lossless [zlib] and
    [num_processes >= 1], whatever the orders in which the chunks of the
    two [pool.map] calls complete, for records whose dates are valid,
    whose strings hold no surrogate code points, whose quantities have at
    most 4300 digits and whose prices are printed as text that is read
    back as the same [float]: grouping, compressing every group,
    decompressing every blob and flattening returns without raising, and
    [all_retrieved_records] is exactly the input records regrouped by
    date, the groups in first-occurrence order of their dates and the
    records of a group in input order.  It is a rearrangement of the
    input: the same records, each as often as in the input. *)
Theorem all_retrieved_records_regrouped (zlib : zlib_module)
        (num_processes : nat) (order_w order_r : list nat)
        (records : list record) :
  zlib_lossless zlib -> forallb wf_record records = true ->
  (1 <= num_processes)%nat ->
  Permutation order_w
    (seq 0 (number_of_tasks num_processes (grouped_records records))) ->
  Permutation order_r
    (seq 0 (number_of_tasks num_processes (grouped_records records))) ->
  all_retrieved_records zlib num_processes order_w order_r records =
    Ok (map tuple_of_record
          (flatten (map (fun k => on_date k records)
                        (first_occurrences (map rec_date records))))) /\
  Permutation
    (flatten (map (fun k => on_date k records)
                  (first_occurrences (map rec_date records))))
    records.
Proof.
  intros Hz Hwf Hp Hw Hr.
  assert (E : map snd (grouped_records records) =
              map (fun k => on_date k records)
                  (first_occurrences (map rec_date records))).
  { rewrite grouped_records_closed_form at 1. rewrite map_map. reflexivity. }
  rewrite <- E. split.
  - apply all_retrieved_records_ok; assumption.
  - destruct (grouping_inv_holds records) as (_ & _ & _ & _ & Hperm).
    exact Hperm.
Qed.

Lemma all_retrieved_records_regrouped_witness :
  all_retrieved_records stored 2 [1; 0]%nat [0; 1]%nat sample_records =
    Ok (map tuple_of_record
          (flatten (map (fun k => on_date k sample_records)
                        (first_occurrences (map rec_date sample_records))))) /\
  Permutation
    (flatten (map (fun k => on_date k sample_records)
                  (first_occurrences (map rec_date sample_records))))
    sample_records.
Proof.
  apply (@all_retrieved_records_regrouped stored 2 [1; 0]%nat [0; 1]%nat
           sample_records).
  - exact stored_lossless.
  - vm_compute. reflexivity.
  - lia.
  - vm_compute. apply perm_swap.
  - vm_compute. apply Permutation_refl.
Defined.

(** C1 does not hold for every record sequence.  For a quantity of 4301
    digits the encoder raises [ValueError] and nothing is retrieved.  For
    a symbol made of the two surrogate code points U+D83D U+DE00 the
    pipeline returns one record, whose symbol is the one character
    U+1F600: not the input record. *)
Lemma round_trip_is_not_the_identity :
  all_retrieved_records stored 1 [0]%nat [0]%nat [huge_record] =
    Raise ValueError /\
  all_retrieved_records stored 1 [0]%nat [0]%nat [surrogate_record] =
    Ok [[PDate (mkdate 2023 5 1); PStr (lit "BUY"); PStr [128512%N];
         PInt 100; PFloat (price_of_cents 1234)]] /\
  ~ Permutation
      [[PDate (mkdate 2023 5 1); PStr (lit "BUY"); PStr [128512%N];
        PInt 100; PFloat (price_of_cents 1234)]]
      (map tuple_of_record [surrogate_record]).
Proof.
  split; [|split].
  - unfold all_retrieved_records.
    change (grouped_records [huge_record])
      with [(mkdate 2023 5 1, [huge_record])].
    unfold pool_map. cbn [Nat.ltb Nat.leb length map_chunksize].
    change (map_chunksize 1 1) with 1%nat.
    cbn [get_tasks get_tasks_from length firstn skipn fold_left nth mapstar
         mapM MapResult_init repeat].
    rewrite compress_group_text.
    replace (forallb (fun r => int_ok (qty r)) [huge_record]) with false
      by (vm_compute; reflexivity).
    reflexivity.
  - vm_compute. reflexivity.
  - intros H. apply Permutation_length_1 in H. cbn [surrogate_record] in H.
    unfold tuple_of_record, surrogate_record in H. cbn [symbol] in H.
    discriminate H.
Qed.

(** C8. On the empty list of records: the grouping loop leaves no group;
    with at least one worker both [pool.map] calls, which are given
    nothing to do, return the empty list; flattening it gives no record;
    and the verification compares two empty lists and succeeds.  Nothing
    is compressed or decompressed on the way, so this holds for every
    [zlib]. *)
Theorem empty_input_passes (zlib : zlib_module) (num_processes : nat) :
  (1 <= num_processes)%nat ->
  grouped_records [] = [] /\
  pool_map num_processes (compress_group zlib) (grouped_records []) [] =
    Ok [] /\
  pool_map num_processes (decompress_group zlib) [] [] = Ok [] /\
  flatten (@nil (list tuple)) = [] /\
  number_of_tasks num_processes (grouped_records []) = 0%nat /\
  verification [] [] = true.
Proof.
  intros Hp. unfold pool_map, number_of_tasks.
  destruct (Nat.ltb_spec num_processes 1) as [Hlt|_]; [lia|].
  repeat split.
Qed.

Lemma empty_input_passes_witness :
  grouped_records [] = [] /\
  pool_map 4 (compress_group stored) (grouped_records []) [] = Ok [] /\
  pool_map 4 (decompress_group stored) [] [] = Ok [] /\
  flatten (@nil (list tuple)) = [] /\
  number_of_tasks 4 (grouped_records []) = 0%nat /\
  verification [] [] = true.
Proof. apply (@empty_input_passes stored 4). lia. Defined.

(** X6. On the empty list of records nothing is submitted to the pool:
    for every [zlib] and every [num_processes >= 1] there are no groups,
    [all_retrieved_records] is the empty list and the verification
    compares two empty lists and succeeds. *)
Theorem main_on_no_records (zlib : zlib_module) (num_processes : nat) :
  (1 <= num_processes)%nat ->
  grouped_records [] = [] /\
  all_retrieved_records zlib num_processes [] [] [] = Ok [] /\
  main zlib num_processes [] [] [] = Ok true.
Proof.
  intros Hp.
  assert (H : all_retrieved_records zlib num_processes [] [] [] = Ok []).
  { unfold all_retrieved_records, pool_map. cbn [grouped_records fold_left].
    destruct (Nat.ltb_spec num_processes 1) as [Hlt|_]; [lia|].
    reflexivity. }
  repeat split; [exact H|]. unfold main. cbn [insert_stocks mapM bind].
  rewrite H. reflexivity.
Qed.

Lemma main_on_no_records_witness :
  grouped_records [] = [] /\
  all_retrieved_records stored 4 [] [] [] = Ok [] /\
  main stored 4 [] [] [] = Ok true.
Proof. apply (@main_on_no_records stored 4). lia. Defined.

(** ** The order on records *)

Section LexStep.

Variable A : Type.
Variable good : A -> Prop.
Variables eqb ltb : A -> A -> bool.
Hypothesis eqb_spec :
  forall x y, good x -> good y -> (eqb x y = true <-> x = y).
Hypothesis ltb_irrefl : forall x, good x -> ltb x x = false.
Hypothesis ltb_trans :
  forall x y z, good x -> good y -> good z ->
                ltb x y = true -> ltb y z = true -> ltb x z = true.
Hypothesis ltb_total :
  forall x y, good x -> good y -> ltb x y = false -> ltb y x = false -> x = y.

Lemma lex_irrefl (x : A) (P : bool) :
  good x -> (if negb (eqb x x) then ltb x x else P) = P.
Proof.
  intros Hx. replace (eqb x x) with true; [reflexivity|].
  symmetry. apply eqb_spec; auto.
Qed.

Lemma lex_trans (x y z : A) (P Q R : bool) :
  good x -> good y -> good z ->
  (if negb (eqb x y) then ltb x y else P) = true ->
  (if negb (eqb y z) then ltb y z else Q) = true ->
  (x = y -> y = z -> P = true -> Q = true -> R = true) ->
  (if negb (eqb x z) then ltb x z else R) = true.
Proof.
  intros Hx Hy Hz Hxy Hyz HR.
  destruct (eqb x y) eqn:Exy; cbn [negb] in Hxy.
  - apply eqb_spec in Exy; auto. subst y.
    destruct (eqb x z) eqn:Exz; cbn [negb] in *; [|exact Hyz].
    apply eqb_spec in Exz; auto.
  - destruct (eqb y z) eqn:Eyz; cbn [negb] in Hyz.
    + apply eqb_spec in Eyz; auto. subst z. rewrite Exy. exact Hxy.
    + pose proof (ltb_trans Hx Hy Hz Hxy Hyz) as Hlt.
      destruct (eqb x z) eqn:Exz; cbn [negb]; [|exact Hlt].
      apply eqb_spec in Exz; auto. subst z.
      rewrite ltb_irrefl in Hlt by auto. discriminate.
Qed.

Lemma lex_total (x y : A) (P Q : bool) :
  good x -> good y ->
  (if negb (eqb x y) then ltb x y else P) = false ->
  (if negb (eqb y x) then ltb y x else Q) = false ->
  x = y /\ P = false /\ Q = false.
Proof.
  intros Hx Hy Hxy Hyx.
  destruct (eqb x y) eqn:Exy; cbn [negb] in Hxy.
  - apply eqb_spec in Exy; auto. subst y.
    rewrite lex_irrefl in Hyx by auto. auto.
  - destruct (eqb y x) eqn:Eyx; cbn [negb] in Hyx.
    + apply eqb_spec in Eyx; auto. subst y.
      assert (eqb x x = true) by (apply eqb_spec; auto). congruence.
    + pose proof (ltb_total Hx Hy Hxy Hyx) as E. subst y.
      assert (eqb x x = true) by (apply eqb_spec; auto). congruence.
Qed.

End LexStep.

(** *** The order of each field *)

Lemma date_ltb_irrefl (a : date) : date_ltb a a = false.
Proof.
  unfold date_ltb. rewrite !Z.eqb_refl. cbn [negb]. apply Z.ltb_irrefl.
Qed.

Ltac z_bool :=
  repeat match goal with
         | H : (_ =? _) = true |- _ => apply Z.eqb_eq in H
         | H : (_ =? _) = false |- _ => apply Z.eqb_neq in H
         | H : (_ <? _) = true |- _ => apply Z.ltb_lt in H
         | H : (_ <? _) = false |- _ => apply Z.ltb_ge in H
         | |- (_ <? _) = true => apply Z.ltb_lt
         | |- (_ <? _) = false => apply Z.ltb_ge
         | |- (_ =? _) = true => apply Z.eqb_eq
         end.

Lemma date_ltb_trans (a b c : date) :
  date_ltb a b = true -> date_ltb b c = true -> date_ltb a c = true.
Proof.
  destruct a as [y1 m1 d1], b as [y2 m2 d2], c as [y3 m3 d3].
  unfold date_ltb. cbn [year month day].
  destruct (y1 =? y2) eqn:E1, (y2 =? y3) eqn:E2, (y1 =? y3) eqn:E3;
    destruct (m1 =? m2) eqn:F1, (m2 =? m3) eqn:F2, (m1 =? m3) eqn:F3;
    cbn [negb]; intros H1 H2; z_bool; lia.
Qed.

Lemma date_ltb_total (a b : date) :
  date_ltb a b = false -> date_ltb b a = false -> a = b.
Proof.
  destruct a as [y1 m1 d1], b as [y2 m2 d2].
  unfold date_ltb. cbn [year month day].
  destruct (y1 =? y2) eqn:E1, (y2 =? y1) eqn:E2;
    destruct (m1 =? m2) eqn:F1, (m2 =? m1) eqn:F2;
    cbn [negb]; intros H1 H2; z_bool; try lia.
  f_equal; lia.
Qed.

Lemma str_eqb_eq (a b : str) : str_eqb a b = true <-> a = b.
Proof.
  unfold str_eqb. destruct (list_eq_dec N.eq_dec a b); split; congruence.
Qed.

Lemma str_ltb_irrefl (a : str) : str_ltb a a = false.
Proof.
  induction a as [|x a IH]; [reflexivity|].
  cbn [str_ltb]. rewrite N.eqb_refl. exact IH.
Qed.

Lemma str_ltb_trans (a : str) :
  forall b c, str_ltb a b = true -> str_ltb b c = true -> str_ltb a c = true.
Proof.
  induction a as [|x a IH]; intros [|y b] [|z c]; cbn [str_ltb];
    try discriminate; auto.
  destruct (N.eqb_spec x y), (N.eqb_spec y z), (N.eqb_spec x z);
    intros H1 H2; subst; rewrite ?N.ltb_lt in *; eauto; lia.
Qed.

Lemma str_ltb_total (a : str) :
  forall b, str_ltb a b = false -> str_ltb b a = false -> a = b.
Proof.
  induction a as [|x a IH]; intros [|y b]; cbn [str_ltb];
    try discriminate; auto.
  destruct (N.eqb_spec x y), (N.eqb_spec y x); try congruence.
  - subst. intros H1 H2. f_equal. auto.
  - intros H1 H2. apply N.ltb_ge in H1, H2. lia.
Qed.

(** *** The order of [float]s that are not [nan] *)

Ltac sf_cases :=
  repeat match goal with
         | |- context [Z.compare ?a ?b] => destruct (Z.compare_spec a b)
         | H : context [Z.compare ?a ?b] |- _ => destruct (Z.compare_spec a b)
         | |- context [Pos.compare ?a ?b] => destruct (Pos.compare_spec a b)
         | H : context [Pos.compare ?a ?b] |- _ =>
             destruct (Pos.compare_spec a b)
         end.

Lemma float_eq_spec (f g : spec_float) :
  (is_nan f = false /\ canon_float f = f) ->
  (is_nan g = false /\ canon_float g = g) ->
  (float_eq f g = true <-> f = g).
Proof.
  intros [Hf Cf] [Hg Cg].
  destruct f as [s1|s1| |s1 m1 e1], g as [s2|s2| |s2 m2 e2];
    try discriminate; cbn in Cf, Cg;
    unfold float_eq, SFeqb, SFcompare;
    change (Pos.compare_cont Eq) with Pos.compare;
    try destruct s1; try destruct s2; try discriminate;
    split; intros Hq; try reflexivity; try discriminate; try congruence;
    revert Hq; sf_cases; cbn [CompOpp]; intros Hq;
    try discriminate; try congruence;
    try (injection Hq as -> ->; lia).
Qed.

Lemma float_lt_irrefl (f : spec_float) : float_lt f f = false.
Proof.
  destruct f as [s|s| |s m e]; try destruct s; try reflexivity;
    unfold float_lt, SFltb, SFcompare;
    change (Pos.compare_cont Eq) with Pos.compare;
    rewrite Z.compare_refl, Pos.compare_refl; reflexivity.
Qed.

Lemma float_lt_trans (f g h : spec_float) :
  float_lt f g = true -> float_lt g h = true -> float_lt f h = true.
Proof.
  destruct f as [s1|s1| |s1 m1 e1], g as [s2|s2| |s2 m2 e2],
           h as [s3|s3| |s3 m3 e3];
    unfold float_lt, SFltb, SFcompare;
    change (Pos.compare_cont Eq) with Pos.compare;
    try destruct s1; try destruct s2; try destruct s3;
    try discriminate; try reflexivity;
    intros Ha Hb; revert Ha Hb; sf_cases; cbn [CompOpp];
    intros Ha Hb; try discriminate; try reflexivity; try lia.
Qed.

Lemma float_lt_total (f g : spec_float) :
  (is_nan f = false /\ canon_float f = f) ->
  (is_nan g = false /\ canon_float g = g) ->
  float_lt f g = false -> float_lt g f = false -> f = g.
Proof.
  intros [Hf Cf] [Hg Cg].
  destruct f as [s1|s1| |s1 m1 e1], g as [s2|s2| |s2 m2 e2];
    try discriminate; cbn in Cf, Cg;
    unfold float_lt, SFltb, SFcompare;
    change (Pos.compare_cont Eq) with Pos.compare;
    try destruct s1; try destruct s2; try discriminate;
    intros Ha Hb; try reflexivity; try discriminate; try congruence;
    revert Ha Hb; sf_cases; cbn [CompOpp]; intros Ha Hb;
    try discriminate; try congruence; try lia.
Qed.

(** *** The order of records *)

Lemma record_ltb_irrefl (a : record) : plain a -> record_ltb a a = false.
Proof.
  intros [Hn Hc]. unfold record_ltb.
  rewrite date_eqb_refl. cbn [negb].
  rewrite !(proj2 (str_eqb_eq _ _) eq_refl). cbn [negb].
  rewrite Z.eqb_refl. cbn [negb].
  rewrite (proj2 (float_eq_spec (conj Hn Hc) (conj Hn Hc)) eq_refl).
  reflexivity.
Qed.

Lemma record_ltb_trans (a b c : record) :
  plain a -> plain b -> plain c ->
  record_ltb a b = true -> record_ltb b c = true -> record_ltb a c = true.
Proof.
  intros Ha Hb Hc. unfold record_ltb. intros H1 H2.
  refine (@lex_trans date (fun _ => True) date_eqb date_ltb
            (fun x y _ _ => date_eqb_eq x y)
            (fun x _ => date_ltb_irrefl x)
            (fun x y z _ _ _ => @date_ltb_trans x y z)
            (fun x y _ _ => @date_ltb_total x y)
            _ (rec_date b) _ _ _ _ I I I H1 H2 _).
  intros _ _. clear H1 H2. intros H1 H2.
  refine (@lex_trans str (fun _ => True) str_eqb str_ltb
            (fun x y _ _ => str_eqb_eq x y)
            (fun x _ => str_ltb_irrefl x)
            (fun x y z _ _ _ => @str_ltb_trans x y z)
            (fun x y _ _ => @str_ltb_total x y)
            _ (trans b) _ _ _ _ I I I H1 H2 _).
  intros _ _. clear H1 H2. intros H1 H2.
  refine (@lex_trans str (fun _ => True) str_eqb str_ltb
            (fun x y _ _ => str_eqb_eq x y)
            (fun x _ => str_ltb_irrefl x)
            (fun x y z _ _ _ => @str_ltb_trans x y z)
            (fun x y _ _ => @str_ltb_total x y)
            _ (symbol b) _ _ _ _ I I I H1 H2 _).
  intros _ _. clear H1 H2. intros H1 H2.
  assert (Zt : forall x y z : Z, True -> True -> True ->
                 (x <? y) = true -> (y <? z) = true -> (x <? z) = true).
  { intros x y z _ _ _ Hxy Hyz. apply Z.ltb_lt in Hxy, Hyz.
    apply Z.ltb_lt. lia. }
  assert (Zo : forall x y : Z, True -> True ->
                               (x <? y) = false -> (y <? x) = false -> x = y).
  { intros x y _ _ Hxy Hyx. apply Z.ltb_ge in Hxy, Hyx. lia. }
  refine (@lex_trans Z (fun _ => True) Z.eqb Z.ltb
            (fun x y _ _ => Z.eqb_eq x y)
            (fun x _ => Z.ltb_irrefl x) Zt Zo
            _ (qty b) _ _ _ _ I I I H1 H2 _).
  intros _ _. clear H1 H2. intros H1 H2.
  refine (@lex_trans spec_float
            (fun f => is_nan f = false /\ canon_float f = f)
            float_eq float_lt float_eq_spec
            (fun x _ => float_lt_irrefl x)
            (fun x y z _ _ _ => @float_lt_trans x y z) float_lt_total
            _ (price b) _ _ _ _ Ha Hb Hc H1 H2 _).
  intros; assumption.
Qed.

Lemma record_ltb_total (a b : record) :
  plain a -> plain b ->
  record_ltb a b = false -> record_ltb b a = false -> a = b.
Proof.
  intros Ha Hb. unfold record_ltb. intros H1 H2.
  destruct (@lex_total date (fun _ => True) date_eqb date_ltb
              (fun x y _ _ => date_eqb_eq x y)
              (fun x _ => date_ltb_irrefl x)
              (fun x y _ _ => @date_ltb_total x y)
              _ _ _ _ I I H1 H2) as (E1 & H3 & H4).
  clear H1 H2.
  destruct (@lex_total str (fun _ => True) str_eqb str_ltb
              (fun x y _ _ => str_eqb_eq x y)
              (fun x _ => str_ltb_irrefl x)
              (fun x y _ _ => @str_ltb_total x y)
              _ _ _ _ I I H3 H4) as (E2 & H5 & H6).
  clear H3 H4.
  destruct (@lex_total str (fun _ => True) str_eqb str_ltb
              (fun x y _ _ => str_eqb_eq x y)
              (fun x _ => str_ltb_irrefl x)
              (fun x y _ _ => @str_ltb_total x y)
              _ _ _ _ I I H5 H6) as (E3 & H7 & H8).
  clear H5 H6.
  assert (Zt : forall x y : Z, True -> True ->
                               (x <? y) = false -> (y <? x) = false -> x = y).
  { intros x y _ _ Hxy Hyx. apply Z.ltb_ge in Hxy, Hyx. lia. }
  destruct (@lex_total Z (fun _ => True) Z.eqb Z.ltb
              (fun x y _ _ => Z.eqb_eq x y)
              (fun x _ => Z.ltb_irrefl x) Zt
              _ _ _ _ I I H7 H8) as (E4 & H9 & H10).
  clear H7 H8.
  destruct (@lex_total spec_float
              (fun f => is_nan f = false /\ canon_float f = f)
              float_eq float_lt float_eq_spec
              (fun x _ => float_lt_irrefl x) float_lt_total
              _ _ _ _ Ha Hb H9 H10) as (E5 & _).
  destruct a, b. cbn in *. subst. reflexivity.
Qed.

(** *** Insertion sort *)

Lemma insert_sorted_perm (x : record) (l : list record) :
  Permutation (insert_sorted x l) (x :: l).
Proof.
  induction l as [|y l IH]; cbn [insert_sorted]; [reflexivity|].
  destruct (record_ltb y x); [|reflexivity].
  rewrite IH. apply perm_swap.
Qed.

Lemma sorted_perm (l : list record) : Permutation (sorted l) l.
Proof.
  unfold sorted. induction l as [|x l IH]; cbn [fold_right]; [reflexivity|].
  rewrite insert_sorted_perm, IH. reflexivity.
Qed.

Lemma record_le_trans (x y z : record) :
  plain x -> plain y -> plain z ->
  record_le x y -> record_le y z -> record_le x z.
Proof.
  unfold record_le. intros Hx Hy Hz Hxy Hyz.
  destruct (record_ltb z x) eqn:Ezx; [|reflexivity].
  destruct (record_ltb x y) eqn:Exy.
  - rewrite (record_ltb_trans Hz Hx Hy Ezx Exy) in Hyz. discriminate.
  - pose proof (record_ltb_total Hx Hy Exy Hxy) as E. subst y. congruence.
Qed.

Lemma insert_sorted_sorted (x : record) (l : list record) :
  plain x -> Forall plain l ->
  StronglySorted record_le l -> StronglySorted record_le (insert_sorted x l).
Proof.
  intros Hx. induction l as [|y l IH]; intros Hl Hs; cbn [insert_sorted].
  - repeat constructor.
  - inversion Hl as [|? ? Hy Hl']; subst.
    inversion Hs as [|? ? Hs' Hall]; subst.
    destruct (record_ltb y x) eqn:Eyx.
    + constructor; [apply IH; assumption|].
      rewrite Forall_forall in *. intros z Hz.
      apply (Permutation_in _ (insert_sorted_perm x l)) in Hz.
      destruct Hz as [<-|Hz]; [|apply Hall, Hz].
      unfold record_le. destruct (record_ltb x y) eqn:Exy; [|reflexivity].
      pose proof (record_ltb_trans Hx Hy Hx Exy Eyx) as Hxx.
      rewrite record_ltb_irrefl in Hxx by exact Hx. discriminate.
    + constructor; [exact Hs|].
      constructor; [exact Eyx|].
      rewrite Forall_forall in *. intros z Hz.
      apply (@record_le_trans x y z); auto.
Qed.

Lemma sorted_plain (l : list record) :
  Forall plain l -> Forall plain (sorted l).
Proof.
  intros H. rewrite Forall_forall in *. intros x Hx.
  apply H. apply (Permutation_in _ (sorted_perm l)), Hx.
Qed.

Lemma sorted_sorted (l : list record) :
  Forall plain l -> StronglySorted record_le (sorted l).
Proof.
  induction l as [|x l IH]; intros H; [constructor|].
  inversion H; subst. change (sorted (x :: l)) with (insert_sorted x (sorted l)).
  apply insert_sorted_sorted; auto using sorted_plain.
Qed.

Lemma sorted_unique (l1 : list record) :
  forall l2,
    Forall plain l1 ->
    StronglySorted record_le l1 -> StronglySorted record_le l2 ->
    Permutation l1 l2 -> l1 = l2.
Proof.
  induction l1 as [|x l1 IH]; intros l2 Hp H1 H2 Hperm.
  - apply Permutation_nil in Hperm. auto.
  - destruct l2 as [|y l2].
    { apply Permutation_sym, Permutation_nil in Hperm. discriminate. }
    inversion Hp as [|? ? Hx Hp']; subst.
    inversion H1 as [|? ? H1' A1]; subst.
    inversion H2 as [|? ? H2' A2]; subst.
    assert (Hy : plain y).
    { assert (In y (x :: l1))
        by (apply (Permutation_in _ (Permutation_sym Hperm)); left; auto).
      rewrite Forall_forall in Hp. auto. }
    assert (E : x = y).
    { rewrite Forall_forall in A1, A2.
      assert (Hxy : x = y \/ record_le x y).
      { assert (Hin : In y (x :: l1))
          by (apply (Permutation_in _ (Permutation_sym Hperm)); left; auto).
        destruct Hin as [->|Hin]; auto. }
      assert (Hyx : y = x \/ record_le y x).
      { assert (Hin : In x (y :: l2))
          by (apply (Permutation_in _ Hperm); left; auto).
        destruct Hin as [->|Hin]; auto. }
      destruct Hxy as [E|Hxy]; [exact E|].
      destruct Hyx as [E|Hyx]; [auto|].
      apply record_ltb_total; auto. }
    subst y. f_equal. apply IH; auto.
    apply Permutation_cons_inv with (a := x). exact Hperm.
Qed.

(** *** Records up to [==] *)

Lemma SFcompare_canon (f g : spec_float) :
  SFcompare (canon_float f) (canon_float g) = SFcompare f g.
Proof. destruct f, g; reflexivity. Qed.

Lemma record_ltb_canon (a b : record) :
  record_ltb (canon a) (canon b) = record_ltb a b.
Proof.
  unfold record_ltb, canon, float_eq, float_lt, SFeqb, SFltb.
  cbn [rec_date trans symbol qty price]. rewrite SFcompare_canon.
  reflexivity.
Qed.

Lemma canon_float_idem (f : spec_float) :
  canon_float (canon_float f) = canon_float f.
Proof. destruct f; reflexivity. Qed.

Lemma is_nan_canon (f : spec_float) : is_nan (canon_float f) = is_nan f.
Proof. destruct f; reflexivity. Qed.

Lemma canon_plain (r : record) : is_nan (price r) = false -> plain (canon r).
Proof.
  intros H. unfold plain, canon. cbn [price].
  rewrite is_nan_canon, canon_float_idem. auto.
Qed.

Lemma insert_sorted_canon (x : record) (l : list record) :
  map canon (insert_sorted x l) = insert_sorted (canon x) (map canon l).
Proof.
  induction l as [|y l IH]; [reflexivity|].
  cbn [insert_sorted map]. rewrite record_ltb_canon.
  destruct (record_ltb y x); cbn [map]; [rewrite IH|]; reflexivity.
Qed.

Lemma sorted_canon (l : list record) :
  map canon (sorted l) = sorted (map canon l).
Proof.
  induction l as [|x l IH]; [reflexivity|].
  change (sorted (x :: l)) with (insert_sorted x (sorted l)).
  rewrite insert_sorted_canon, IH. reflexivity.
Qed.

Lemma float_eq_true (f g : spec_float) :
  float_eq f g = true <->
  is_nan f = false /\ is_nan g = false /\ canon_float f = canon_float g.
Proof.
  assert (Hc : float_eq f g = float_eq (canon_float f) (canon_float g)).
  { unfold float_eq, SFeqb. rewrite SFcompare_canon. reflexivity. }
  destruct (is_nan f) eqn:Ef.
  { destruct f; try discriminate. split; [discriminate | intros [? _]; discriminate]. }
  destruct (is_nan g) eqn:Eg.
  { destruct g; try discriminate.
    split; [destruct f; discriminate | intros (_ & ? & _); discriminate]. }
  rewrite Hc.
  rewrite (@float_eq_spec (canon_float f) (canon_float g)).
  - tauto.
  - rewrite is_nan_canon, canon_float_idem. auto.
  - rewrite is_nan_canon, canon_float_idem. auto.
Qed.

Lemma record_eqb_true (a b : record) :
  record_eqb a b = true <->
  is_nan (price a) = false /\ is_nan (price b) = false /\ canon a = canon b.
Proof.
  unfold record_eqb. rewrite !andb_true_iff.
  rewrite date_eqb_eq, !str_eqb_eq, Z.eqb_eq, float_eq_true.
  destruct a as [d1 t1 s1 q1 p1], b as [d2 t2 s2 q2 p2].
  unfold canon. cbn [rec_date trans symbol qty price]. split.
  - intros ((((-> & ->) & ->) & ->) & Hn1 & Hn2 & ->). auto.
  - intros (Hn1 & Hn2 & E). injection E as -> -> -> -> E. auto 10.
Qed.

Lemma list_eqb_Forall2 (l1 : list record) :
  forall l2,
    list_eqb l1 l2 = true <->
    Forall2 (fun x y => record_eqb x y = true) l1 l2.
Proof.
  induction l1 as [|x l1 IH]; intros [|y l2]; cbn [list_eqb].
  - split; [constructor | reflexivity].
  - split; [discriminate | intros H; inversion H].
  - split; [discriminate | intros H; inversion H].
  - rewrite andb_true_iff, IH. split.
    + intros [H1 H2]. constructor; assumption.
    + intros H. inversion H; subst. auto.
Qed.

Lemma Forall2_eqb_canon (a : list record) :
  forall b,
    Forall2 (fun x y => record_eqb x y = true) a b <->
    Forall (fun r => is_nan (price r) = false) a /\
    Forall (fun r => is_nan (price r) = false) b /\
    map canon a = map canon b.
Proof.
  induction a as [|x a IH]; intros [|y b].
  - split; [intros _; repeat split; constructor | constructor].
  - split; [intros H; inversion H | intros (_ & _ & H); discriminate].
  - split; [intros H; inversion H | intros (_ & _ & H); discriminate].
  - split.
    + intros H. inversion H as [|? ? ? ? Hxy Hab]; subst.
      apply record_eqb_true in Hxy. destruct Hxy as (Hx & Hy & E).
      apply IH in Hab. destruct Hab as (Ha & Hb & Eab).
      repeat split; [constructor; auto | constructor; auto |].
      cbn [map]. congruence.
    + intros (Ha & Hb & E).
      inversion Ha; subst. inversion Hb; subst. cbn [map] in E.
      assert (E1 : canon x = canon y) by congruence.
      assert (E2 : map canon a = map canon b) by congruence.
      constructor.
      * apply record_eqb_true. repeat split; assumption.
      * apply IH. repeat split; assumption.
Qed.

Lemma Forall_nonnan_plain (l : list record) :
  Forall (fun r => is_nan (price r) = false) l -> Forall plain (map canon l).
Proof.
  intros H. induction H; cbn [map]; constructor; auto using canon_plain.
Qed.

Lemma Forall_perm (A : Type) (P : A -> Prop) (l l' : list A) :
  Permutation l l' -> Forall P l -> Forall P l'.
Proof.
  intros Hp H. rewrite Forall_forall in *. intros x Hx.
  apply H, (Permutation_in _ (Permutation_sym Hp)), Hx.
Qed.

Lemma sorted_of_perm (a b : list record) :
  Forall (fun r => is_nan (price r) = false) a ->
  Permutation (map canon a) (map canon b) ->
  map canon (sorted a) = map canon (sorted b).
Proof.
  intros Ha Hp. rewrite !sorted_canon.
  pose proof (Forall_nonnan_plain Ha) as Pa.
  pose proof (Forall_perm Hp Pa) as Pb.
  apply sorted_unique.
  - apply sorted_plain, Pa.
  - apply sorted_sorted, Pa.
  - apply sorted_sorted, Pb.
  - rewrite !sorted_perm. exact Hp.
Qed.

Lemma verification_multiset (a b : list record) :
  verification a b = true <-> multiset_eq a b.
Proof.
  unfold verification, multiset_eq. rewrite list_eqb_Forall2. split.
  - intros H.
    destruct (Permutation_Forall2 (sorted_perm a) H) as (b' & Hp & HF).
    exists b'. split; [|exact HF].
    rewrite <- Hp. symmetry. apply sorted_perm.
  - intros (b' & Hp & HF).
    apply Forall2_eqb_canon in HF. destruct HF as (Ha & Hb' & E).
    assert (Hb : Forall (fun r => is_nan (price r) = false) b)
      by (apply (Forall_perm (Permutation_sym Hp)), Hb').
    apply Forall2_eqb_canon. repeat split.
    + apply (Forall_perm (Permutation_sym (sorted_perm a))), Ha.
    + apply (Forall_perm (Permutation_sym (sorted_perm b))), Hb.
    + apply sorted_of_perm; [exact Ha|].
      rewrite E. apply Permutation_map, Permutation_sym, Hp.
Qed.

Lemma multiset_eq_canon (a b : list record) :
  Forall (fun r => is_nan (price r) = false) a ->
  Forall (fun r => is_nan (price r) = false) b ->
  (multiset_eq a b <-> Permutation (map canon a) (map canon b)).
Proof.
  intros Ha Hb. unfold multiset_eq. split.
  - intros (b' & Hp & HF).
    apply Forall2_eqb_canon in HF. destruct HF as (_ & _ & E).
    rewrite E. apply Permutation_map, Permutation_sym, Hp.
  - intros Hp.
    destruct (Permutation_map_inv _ _ Hp) as (b' & E & Hp').
    exists b'. split; [exact Hp'|].
    apply Forall2_eqb_canon. repeat split.
    + exact Ha.
    + apply (Forall_perm Hp'), Hb.
    + exact E.
Qed.

(** C5. On records without a [nan] price the verification of [main] is a
    multiset comparison: [sorted(records) == sorted(all_retrieved_records)]
    holds exactly when some rearrangement of the second list equals the
    first list item by item under the tuples' [==]; that is, when the two
    lists hold the same records the same number of times, a price of
    [-0.0] counting as [0.0].  The outcome is the one boolean. *)
Theorem verification_is_multiset_equality (a b : list record) :
  Forall (fun r => is_nan (price r) = false) a ->
  Forall (fun r => is_nan (price r) = false) b ->
  (verification a b = true <-> multiset_eq a b) /\
  (verification a b = true <-> Permutation (map canon a) (map canon b)).
Proof.
  intros Ha Hb. split; [apply verification_multiset|].
  rewrite verification_multiset. apply multiset_eq_canon; assumption.
Qed.

(** The three sample records against themselves in reverse order. *)
Lemma verification_is_multiset_equality_witness :
  (verification sample_records (rev sample_records) = true <->
   multiset_eq sample_records (rev sample_records)) /\
  (verification sample_records (rev sample_records) = true <->
   Permutation (map canon sample_records)
               (map canon (rev sample_records))).
Proof.
  apply (@verification_is_multiset_equality sample_records
           (rev sample_records));
    repeat constructor.
Defined.

Lemma mapM_record_of_tuple (l : list record) :
  mapM record_of_tuple (map tuple_of_record l) = Ok l.
Proof.
  induction l as [|[d t s q p] l IH]; [reflexivity|].
  cbn [map mapM tuple_of_record record_of_tuple bind
       rec_date trans symbol qty price].
  rewrite IH. reflexivity.
Qed.

Lemma verification_of_perm (a b : list record) :
  Permutation b a ->
  verification a b = forallb (fun r => negb (is_nan (price r))) a.
Proof.
  intros Hp. destruct (forallb (fun r => negb (is_nan (price r))) a) eqn:E.
  - apply verification_multiset. exists a. split; [exact Hp|].
    rewrite forallb_forall in E.
    assert (H : forall l, (forall r, In r l -> In r a) ->
                          Forall2 (fun x y => record_eqb x y = true) l l).
    { induction l as [|x l IH]; intros Hl; constructor.
      - apply record_eqb_true.
        specialize (E x (Hl x (or_introl eq_refl))).
        apply negb_true_iff in E. auto.
      - apply IH. intros r Hr. apply Hl. right. exact Hr. }
    apply H. auto.
  - destruct (verification a b) eqn:V; [|reflexivity].
    apply verification_multiset in V. destruct V as (b' & _ & HF).
    apply Forall2_eqb_canon in HF. destruct HF as (Ha & _).
    assert (forallb (fun r => negb (is_nan (price r))) a = true); [|congruence].
    apply forallb_forall. intros r Hr. rewrite Forall_forall in Ha.
    rewrite (Ha r Hr). reflexivity.
Qed.

Lemma utf8_char_ok (c : N) :
  is_scalar c = true -> exists b, utf8_char c = Ok b.
Proof.
  unfold is_scalar, in_range, utf8_char. intros H.
  apply andb_true_iff in H. destruct H as [Hmax Hsur]. rewrite Hmax.
  apply negb_true_iff in Hsur. rewrite Hsur.
  destruct (c <? 128)%N; [eauto|].
  destruct (c <? 2048)%N; [eauto|].
  destruct (c <? 65536)%N; eauto.
Qed.

Lemma utf8_encode_ok (s : str) :
  str_ok s = true -> exists b, utf8_encode s = Ok b.
Proof.
  unfold str_ok, utf8_encode. intros H.
  assert (Hm : exists chunks, mapM utf8_char s = Ok chunks).
  { induction s as [|c s IH]; [eexists; reflexivity|].
    cbn [forallb] in H. apply andb_true_iff in H. destruct H as [Hc Hs].
    destruct (utf8_char_ok c Hc) as (b & Eb).
    destruct (IH Hs) as (chunks & Ec).
    cbn [mapM]. rewrite Eb, Ec. eexists. reflexivity. }
  destruct Hm as (chunks & ->). eexists. reflexivity.
Qed.

(** Binding a well-formed record fails only on its quantity. *)
Lemma bind_parameters_wf (r : record) :
  wf_record r = true ->
  bind_parameters r =
  if sqlite_int_ok (qty r) then Ok tt else Raise OverflowError.
Proof.
  intros Hwf. destruct (wf_record_parts r Hwf) as (Hd & Ht & Hs & _ & _).
  unfold bind_parameters.
  destruct (utf8_encode_ok _ (isoformat_ok _ Hd)) as (b1 & ->).
  destruct (utf8_encode_ok _ Ht) as (b2 & ->).
  destruct (utf8_encode_ok _ Hs) as (b3 & ->).
  reflexivity.
Qed.

Lemma insert_stocks_wf (records : list record) :
  forallb wf_record records = true ->
  insert_stocks records =
  if forallb (fun r => sqlite_int_ok (qty r)) records
  then Ok tt else Raise OverflowError.
Proof.
  unfold insert_stocks. intros Hwf.
  assert (H : mapM bind_parameters records =
              if forallb (fun r => sqlite_int_ok (qty r)) records
              then Ok (map (fun _ => tt) records) else Raise OverflowError).
  { induction records as [|r rs IH]; [reflexivity|].
    cbn [forallb] in Hwf. apply andb_true_iff in Hwf.
    destruct Hwf as [Hr Hwf].
    cbn [mapM forallb map]. rewrite (bind_parameters_wf r Hr), (IH Hwf).
    destruct (sqlite_int_ok (qty r)); [|reflexivity].
    destruct (forallb (fun r0 => sqlite_int_ok (qty r0)) rs); reflexivity. }
  rewrite H.
  destruct (forallb (fun r => sqlite_int_ok (qty r)) records); reflexivity.
Qed.

Lemma main_outcome (zlib : zlib_module) (num_processes : nat)
      (order_w order_r : list nat) (records : list record) :
  zlib_lossless zlib -> forallb wf_record records = true ->
  (1 <= num_processes)%nat ->
  Permutation order_w
    (seq 0 (number_of_tasks num_processes (grouped_records records))) ->
  Permutation order_r
    (seq 0 (number_of_tasks num_processes (grouped_records records))) ->
  main zlib num_processes order_w order_r records =
  if forallb (fun r => sqlite_int_ok (qty r)) records
  then Ok (forallb (fun r => negb (is_nan (price r))) records)
  else Raise OverflowError.
Proof.
  intros Hz Hwf Hp Hw Hr. unfold main.
  rewrite (insert_stocks_wf records Hwf).
  destruct (forallb (fun r => sqlite_int_ok (qty r)) records); [|reflexivity].
  cbn [bind].
  rewrite (@all_retrieved_records_ok zlib num_processes order_w order_r
             records Hz Hwf Hp Hw Hr). cbn [bind].
  rewrite mapM_record_of_tuple. cbn [bind]. f_equal.
  apply verification_of_perm.
  destruct (grouping_inv_holds records) as (_ & _ & _ & _ & Hperm).
  exact Hperm.
Qed.

(** X8. The outcome of [main].  With a lossless [zlib], at least one
    worker process and well-formed records, whatever the completion orders
    of the chunks: when some quantity lies outside the signed 64-bit range
    the first [executemany] raises [OverflowError] and nothing is
    compressed; otherwise [main] runs to its verification step without
    raising, and the verification reports success exactly when no price is
    [nan]: every record is recovered, but a recovered [nan] price compares
    unequal to the original one, so one [nan] makes the program print that
    verification failed. *)
Theorem main_verifies_unless_nan (zlib : zlib_module) (num_processes : nat)
        (order_w order_r : list nat) (records : list record) :
  zlib_lossless zlib -> forallb wf_record records = true ->
  (1 <= num_processes)%nat ->
  Permutation order_w
    (seq 0 (number_of_tasks num_processes (grouped_records records))) ->
  Permutation order_r
    (seq 0 (number_of_tasks num_processes (grouped_records records))) ->
  main zlib num_processes order_w order_r records =
  if forallb (fun r => sqlite_int_ok (qty r)) records
  then Ok (forallb (fun r => negb (is_nan (price r))) records)
  else Raise OverflowError.
Proof.
  intros Hz Hwf Hp Hw Hr. unfold main.
  rewrite (insert_stocks_wf records Hwf).
  destruct (forallb (fun r => sqlite_int_ok (qty r)) records); [|reflexivity].
  cbn [bind].
  rewrite (@all_retrieved_records_ok zlib num_processes order_w order_r
             records Hz Hwf Hp Hw Hr). cbn [bind].
  rewrite mapM_record_of_tuple. cbn [bind]. f_equal.
  apply verification_of_perm.
  destruct (grouping_inv_holds records) as (_ & _ & _ & _ & Hperm).
  exact Hperm.
Qed.

Lemma main_verifies_unless_nan_witness :
  main stored 2 [1; 0]%nat [0; 1]%nat sample_records =
  if forallb (fun r => sqlite_int_ok (qty r)) sample_records
  then Ok (forallb (fun r => negb (is_nan (price r))) sample_records)
  else Raise OverflowError.
Proof.
  apply (@main_verifies_unless_nan stored 2 [1; 0]%nat [0; 1]%nat
           sample_records).
  - exact stored_lossless.
  - vm_compute. reflexivity.
  - lia.
  - vm_compute. apply perm_swap.
  - vm_compute. apply Permutation_refl.
Defined.

(** ** The data [generate_records] builds *)

Lemma set_add_NoDup (d : date) (s : list date) :
  NoDup s -> NoDup (set_add d s).
Proof.
  intros H. unfold set_add.
  destruct (existsb (date_eqb d) s) eqn:E; [exact H|].
  apply NoDup_app; [exact H | repeat constructor; intros [] |].
  intros x Hx [<-|[]]. apply existsb_date_In in Hx. congruence.
Qed.

Lemma day_loop_NoDup (days : list Z) (y m : Z) :
  forall s s', NoDup s -> day_loop days y m s = Ok s' -> NoDup s'.
Proof.
  induction days as [|d days IH]; intros s s' Hs H; cbn [day_loop] in H.
  - injection H as <-. exact Hs.
  - destruct (length s <? 1000)%nat; [|injection H as <-; exact Hs].
    apply bind_ok in H. destruct H as (x & _ & H).
    eapply IH; [|exact H]. apply set_add_NoDup, Hs.
Qed.

Lemma month_loop_NoDup (months : list Z) (y : Z) :
  forall s s', NoDup s -> month_loop months y s = Ok s' -> NoDup s'.
Proof.
  induction months as [|m months IH]; intros s s' Hs H; cbn [month_loop] in H.
  - injection H as <-. exact Hs.
  - apply bind_ok in H. destruct H as (s1 & H1 & H).
    eapply IH; [|exact H]. eapply day_loop_NoDup; eassumption.
Qed.

Lemma year_loop_NoDup (years : list Z) :
  forall s s', NoDup s -> year_loop years s = Ok s' -> NoDup s'.
Proof.
  induction years as [|y years IH]; intros s s' Hs H; cbn [year_loop] in H.
  - injection H as <-. exact Hs.
  - apply bind_ok in H. destruct H as (s1 & H1 & H).
    pose proof (month_loop_NoDup _ _ Hs H1) as Hs1.
    destruct (1000 <=? length s1)%nat; [injection H as <-; exact Hs1|].
    eapply IH; eassumption.
Qed.

Lemma possible_dates_eq : possible_dates = Ok first_thousand_days.
Proof. vm_compute. reflexivity. Qed.

Lemma first_thousand_days_valid :
  forallb (fun d => valid_date d && (day d <=? 28)) first_thousand_days = true.
Proof. vm_compute. reflexivity. Qed.

Lemma first_thousand_days_length : length first_thousand_days = 1000%nat.
Proof. vm_compute. reflexivity. Qed.

(** X9. The nested loops of [generate_records] leave exactly one thousand
    distinct dates in [possible_dates], never raising: the days 1 to 28 of
    every month from January 2022 to November 2024 and the days 1 to 20 of
    December 2024.  All of them are valid calendar dates. *)
Theorem possible_dates_are_first_thousand_days :
  possible_dates = Ok first_thousand_days /\
  length first_thousand_days = 1000%nat /\
  NoDup first_thousand_days /\
  hd_error first_thousand_days = Some (mkdate 2022 1 1) /\
  last first_thousand_days (mkdate 0 0 0) = mkdate 2024 12 20 /\
  Forall (fun d => valid_date d = true /\ day d <= 28) first_thousand_days.
Proof.
  split; [apply possible_dates_eq|].
  split; [apply first_thousand_days_length|].
  split.
  { apply (@year_loop_NoDup (range 2022 2025) [] first_thousand_days).
    - constructor.
    - apply possible_dates_eq. }
  split; [reflexivity|]. split; [vm_compute; reflexivity|].
  apply Forall_forall. intros d Hd.
  pose proof first_thousand_days_valid as H.
  rewrite forallb_forall in H. specialize (H d Hd).
  apply andb_true_iff in H. destruct H as [H1 H2].
  apply Z.leb_le in H2. auto.
Qed.

(** *** The price [round(uniform(10.0, 500.0), 2)] *)

Lemma digits2_pos_size (m : positive) : digits2_pos m = Pos.size m.
Proof. induction m; cbn [digits2_pos Pos.size]; congruence. Qed.

Lemma canonical_mantissa_range (m : positive) (e : Z) :
  -1074 < e -> canonical_mantissa 53 1024 m e = true ->
  2 ^ 52 <= Zpos m < 2 ^ 53.
Proof.
  intros He H. unfold canonical_mantissa, fexp, emin in H.
  apply Z.eqb_eq in H. rewrite digits2_pos_size in H.
  assert (Hs : Pos.size m = 53%positive) by lia.
  pose proof (Pos.size_gt m) as Hgt. pose proof (Pos.size_le m) as Hle.
  rewrite Hs in Hgt, Hle. clear H Hs.
  change (2 ^ 53)%positive with 9007199254740992%positive in Hgt, Hle.
  change (2 ^ 52) with 4503599627370496.
  change (2 ^ 53) with 9007199254740992.
  apply Pos2Z.pos_lt_pos in Hgt. apply Pos2Z.pos_le_pos in Hle.
  rewrite Pos2Z.inj_xO in Hle. lia.
Qed.

Lemma round_half_even_bounds (num den lo hi : Z) :
  0 < den -> lo * den <= num <= hi * den ->
  lo <= round_half_even num den <= hi.
Proof.
  intros Hd [Hlo Hhi]. unfold round_half_even.
  pose proof (Z.div_mod num den ltac:(lia)) as E.
  pose proof (Z.mod_pos_bound num den Hd) as B.
  set (q := num / den) in *. set (r := num mod den) in *.
  assert (Hq1 : lo <= q) by nia.
  assert (Hq2 : q <= hi) by nia.
  destruct (Z.compare_spec (2 * r) den) as [H|H|H]; try lia.
  - destruct (Z.even q); [lia|].
    assert (q <> hi) by nia. lia.
  - assert (q <> hi) by nia. lia.
Qed.

(** The result of [round(x, 2)] for [10.0 <= x <= 500.0] is the [float]
    nearest to a whole number of cents between 1000 and 50000. *)
Lemma round2_uniform (u : spec_float) :
  valid_binary 53 1024 u = true ->
  SFleb (float_of_decimal false 10 0) u = true ->
  SFleb u (float_of_decimal false 500 0) = true ->
  exists cents, (1000 <= cents <= 50000)%N /\ round2 u = price_of_cents cents.
Proof.
  change (float_of_decimal false 10 0)
    with (S754_finite false 5629499534213120 (-49)).
  change (float_of_decimal false 500 0)
    with (S754_finite false 8796093022208000 (-44)).
  intros Hv H10 H500.
  destruct u as [s|s| |s m e]; try discriminate;
    try (destruct s; discriminate).
  unfold SFleb, SFcompare in H10, H500.
  change (Pos.compare_cont Eq) with Pos.compare in *.
  destruct s; [discriminate|].
  assert (He : -49 <= e <= -44 /\
               (e = -49 -> 5629499534213120 <= Zpos m) /\
               (e = -44 -> Zpos m <= 8796093022208000)).
  { rewrite !Pos2Z.inj_compare in H10, H500. revert H10 H500.
    destruct (Z.compare_spec (-49) e), (Z.compare_spec e (-44));
      destruct (Z.compare_spec 5629499534213120 (Zpos m)),
               (Z.compare_spec (Zpos m) 8796093022208000);
      intros; try discriminate; lia. }
  destruct He as (He & Hlo & Hhi).
  cbn [valid_binary] in Hv. unfold bounded in Hv.
  apply andb_true_iff in Hv. destruct Hv as [Hc _].
  apply canonical_mantissa_range in Hc; [|lia].
  change (2 ^ 52) with 4503599627370496 in Hc.
  change (2 ^ 53) with 9007199254740992 in Hc.
  unfold round2. destruct (Z.leb_spec 0 e) as [H0|_]; [lia|].
  exists (Z.to_N (round_half_even (100 * Zpos m) (2 ^ (- e)))).
  split; [|reflexivity].
  assert (Hr : 1000 <= round_half_even (100 * Zpos m) (2 ^ (- e)) <= 50000).
  { assert (Hcases : e = -49 \/ e = -48 \/ e = -47 \/ e = -46 \/ e = -45 \/
                     e = -44) by lia.
    destruct Hcases as [->|[->|[->|[->|[->| ->]]]]];
      lazymatch goal with
      | |- context [2 ^ (- ?k)] =>
          let v := eval vm_compute in (2 ^ (- k)) in
          change (2 ^ (- k)) with v
      end;
      apply round_half_even_bounds; lia. }
  lia.
Qed.

(** *** The check of the generated prices *)

Lemma prices_ok_from_spec (count : nat) :
  forall first cents,
    prices_ok_from count first = true ->
    (first <= cents < first + N.of_nat count)%N ->
    price_ok (price_of_cents cents) = true.
Proof.
  induction count as [|count IH]; intros first cents H Hc; [lia|].
  cbn [prices_ok_from] in H. apply andb_true_iff in H. destruct H as [H1 H2].
  destruct (N.eq_dec cents first) as [->|Hne]; [exact H1|].
  apply (IH (N.succ first)); [exact H2 | lia].
Qed.

(** All the prices [round(uniform(10.0, 500.0), 2)] can return: a whole
    number of cents from 1000 to 50000. *)
Lemma generated_prices_checked : prices_ok_from (N.to_nat 49001) 1000 = true.
Proof. vm_compute. reflexivity. Qed.

Lemma generated_price_ok (cents : N) :
  (1000 <= cents <= 50000)%N -> price_ok (price_of_cents cents) = true.
Proof.
  intros H. eapply prices_ok_from_spec; [exact generated_prices_checked|].
  rewrite N2Nat.id. lia.
Qed.

(** *** One generated record *)

Lemma choice_lt (A : Type) (l : list A) (i : nat) :
  (i < length l)%nat -> exists x, choice l i = Ok x /\ In x l.
Proof.
  intros Hi. unfold choice.
  destruct (nth_error l i) as [x|] eqn:E.
  - exists x. split; [reflexivity|]. eapply nth_error_In, E.
  - apply nth_error_None in E. lia.
Qed.

Lemma letter_choice (i : nat) :
  (i <? 26)%nat = true ->
  exists c, choice (lit "ABCDEFGHIJKLMNOPQRSTUVWXYZ") i = Ok c /\
            (65 <= c <= 90)%N.
Proof.
  intros Hi. apply Nat.ltb_lt in Hi.
  destruct (@choice_lt N (lit "ABCDEFGHIJKLMNOPQRSTUVWXYZ") i Hi)
    as (c & Hc & Hin).
  exists c. split; [exact Hc|].
  assert (H : forallb (fun c => (65 <=? c)%N && (c <=? 90)%N)
                (lit "ABCDEFGHIJKLMNOPQRSTUVWXYZ") = true) by reflexivity.
  rewrite forallb_forall in H. specialize (H c Hin).
  apply andb_true_iff in H. destruct H as [H1 H2].
  apply N.leb_le in H1, H2. auto.
Qed.

Lemma letter_is_scalar (c : N) : (65 <= c <= 90)%N -> is_scalar c = true.
Proof.
  intros H. unfold is_scalar, in_range.
  apply andb_true_iff. split.
  - apply N.ltb_lt. apply N.le_lt_trans with (m := 90%N); [apply H|reflexivity].
  - apply negb_true_iff, andb_false_iff. left. apply N.leb_gt.
    apply N.le_lt_trans with (m := 90%N); [apply H|reflexivity].
Qed.

Lemma generate_record_ok (listing : list date) (d : draw) :
  Permutation listing first_thousand_days -> draw_ok d = true ->
  exists r, generate_record listing d = Ok r /\ as_generated r.
Proof.
  intros Hperm Hd. unfold draw_ok in Hd.
  destruct d as [di ti [[[i1 i2] i3] i4] q u].
  cbn [date_index trans_index letter_indices randint uniform] in Hd.
  rewrite !andb_true_iff in Hd.
  destruct Hd as (((((((Hdi & Hti) & (((H1 & H2) & H3) & H4)) & Hq1) & Hq2)
                    & Hv) & Hu1) & Hu2).
  apply Nat.ltb_lt in Hdi, Hti. apply Z.leb_le in Hq1, Hq2.
  unfold generate_record.
  cbn [date_index trans_index letter_indices randint uniform].
  destruct (@choice_lt date listing di) as (r0 & E0 & In0).
  { rewrite (Permutation_length Hperm), first_thousand_days_length.
    exact Hdi. }
  rewrite E0. cbn [bind].
  destruct (@choice_lt str [lit "BUY"; lit "SELL"] ti Hti) as (r1 & E1 & In1).
  rewrite E1. cbn [bind].
  destruct (letter_choice i1 H1) as (c1 & C1 & R1).
  destruct (letter_choice i2 H2) as (c2 & C2 & R2).
  destruct (letter_choice i3 H3) as (c3 & C3 & R3).
  destruct (letter_choice i4 H4) as (c4 & C4 & R4).
  cbn [mapM]. rewrite C1, C2, C3, C4. cbn [bind].
  eexists. split; [reflexivity|].
  unfold as_generated. cbn [rec_date trans symbol qty price].
  repeat split.
  - apply (Permutation_in _ Hperm), In0.
  - destruct In1 as [<-|[<-|[]]]; auto.
  - repeat constructor; (apply R1 || apply R2 || apply R3 || apply R4).
  - exact Hq1.
  - exact Hq2.
  - apply round2_uniform; assumption.
Qed.

Lemma In_range (a b x : Z) : a <= x < b -> In x (range a b).
Proof.
  intros H. unfold range. apply in_map_iff.
  exists (Z.to_nat (x - a)). split; [lia|]. apply in_seq. lia.
Qed.

(** A quantity [randint(10, 1000)] returns has few digits and fits the
    database's integers. *)
Lemma randint_ok (q : Z) :
  10 <= q <= 1000 -> int_ok q = true /\ sqlite_int_ok q = true.
Proof.
  intros H.
  assert (Hall : forallb (fun q => int_ok q && sqlite_int_ok q)
                         (range 10 1001) = true) by (vm_compute; reflexivity).
  rewrite forallb_forall in Hall.
  specialize (Hall q (@In_range 10 1001 q ltac:(lia))).
  apply andb_true_iff in Hall. exact Hall.
Qed.

Lemma as_generated_wf (r : record) :
  as_generated r ->
  wf_record r = true /\ is_nan (price r) = false /\
  sqlite_int_ok (qty r) = true.
Proof.
  intros (Hd & Ht & _ & Hs & Hq & cents & Hc & Hp).
  pose proof (generated_price_ok Hc) as Hok. rewrite <- Hp in Hok.
  unfold price_ok in Hok. apply andb_true_iff in Hok.
  destruct Hok as [Hf Hn]. apply negb_true_iff in Hn.
  destruct (@randint_ok (qty r) Hq) as [Hi Hl].
  split; [|split; [exact Hn | exact Hl]].
  unfold wf_record. rewrite Hf, Hi, !andb_true_r.
  rewrite !andb_true_iff. repeat split.
  - pose proof first_thousand_days_valid as H.
    rewrite forallb_forall in H. specialize (H _ Hd).
    apply andb_true_iff in H. apply H.
  - destruct Ht as [-> | ->]; reflexivity.
  - unfold str_ok. apply forallb_forall. intros c Hin.
    rewrite Forall_forall in Hs. apply letter_is_scalar, Hs, Hin.
Qed.

Lemma mapM_generate_record (listing : list date) (draws : list draw) :
  Permutation listing first_thousand_days ->
  forallb draw_ok draws = true ->
  exists records,
    mapM (generate_record listing) draws = Ok records /\
    length records = length draws /\ Forall as_generated records.
Proof.
  intros Hperm. induction draws as [|d draws IH]; intros Hd.
  - exists []. repeat split. constructor.
  - cbn [forallb] in Hd. apply andb_true_iff in Hd. destruct Hd as [Hd Hds].
    destruct (@generate_record_ok listing d Hperm Hd) as (r & Er & Hr).
    destruct (IH Hds) as (rs & Ers & Hlen & Hrs).
    exists (r :: rs). cbn [mapM]. rewrite Er. cbn [bind]. rewrite Ers.
    cbn [bind length]. repeat split; [congruence | constructor; assumption].
Qed.

Lemma generate_records_ok (list_of_set : list date -> list date)
      (draws : list draw) :
  (forall s, Permutation (list_of_set s) s) ->
  forallb draw_ok draws = true ->
  exists records,
    generate_records list_of_set draws = Ok records /\
    length records = length draws /\ Forall as_generated records.
Proof.
  intros Hl Hd. unfold generate_records. rewrite possible_dates_eq.
  cbn [bind]. apply mapM_generate_record; [apply Hl | exact Hd].
Qed.

Lemma Forall_as_generated_wf (records : list record) :
  Forall as_generated records ->
  forallb wf_record records = true /\
  forallb (fun r => negb (is_nan (price r))) records = true /\
  forallb (fun r => sqlite_int_ok (qty r)) records = true.
Proof.
  intros H. induction H as [|r rs Hr _ (IH1 & IH2 & IH3)]; [auto|].
  destruct (as_generated_wf Hr) as (Hw & Hn & Hl).
  cbn [forallb]. rewrite Hw, Hn, Hl, IH1, IH2, IH3. auto.
Qed.

(** X10. Whatever [random] returns within its documented ranges and in
    whatever order [list] lists the set of dates, [generate_records] does
    not raise and returns one record per requested draw; every record has
    one of the thousand dates, ['BUY'] or ['SELL'], a symbol of four
    capital letters, a quantity from 10 to 1000 and, as price, the [float]
    nearest to a whole number of cents from 10.00 to 500.00. *)
Theorem generate_records_as_documented
        (list_of_set : list date -> list date) (draws : list draw) :
  (forall s, Permutation (list_of_set s) s) ->
  forallb draw_ok draws = true ->
  exists records,
    generate_records list_of_set draws = Ok records /\
    length records = length draws /\ Forall as_generated records.
Proof. apply generate_records_ok. Qed.

Lemma Permutation_rev_date (s : list date) : Permutation (rev s) s.
Proof. apply Permutation_sym, Permutation_rev. Qed.

Lemma generate_records_as_documented_witness :
  exists records,
    generate_records (@rev date) sample_draws = Ok records /\
    length records = length sample_draws /\ Forall as_generated records.
Proof.
  apply (@generate_records_as_documented (@rev date) sample_draws).
  - exact Permutation_rev_date.
  - vm_compute. reflexivity.
Defined.

(** C9. A price the generator builds is recovered exactly.  For every
    binary64 number [x] with [10.0 <= x <= 500.0], [round(x, 2)] is a
    number whose JSON text is read back as the very same [float], sign,
    mantissa and exponent; so with a lossless [zlib], for every group of
    records with such prices (and valid dates, strings without surrogate
    code points and quantities of at most 4300 digits),
    [decompress_group] returns from the blob of [compress_group] the
    records with exactly the prices they had.  This is checked for each
    of the 49001 prices from 10.00 to 500.00; nothing is said here about
    other numbers. *)
Theorem generated_price_is_recovered (zlib : zlib_module) (k : date)
        (rs : list record) :
  zlib_lossless zlib ->
  Forall (fun r => valid_date (rec_date r) = true /\
                   str_ok (trans r) = true /\ str_ok (symbol r) = true /\
                   int_ok (qty r) = true /\ rounded_price (price r)) rs ->
  Forall (fun r => scan_constant (floatstr (price r) ++ [93%N]) =
                     Ok (PFloat (price r), [93%N]) /\
                   is_nan (price r) = false) rs /\
  exists blob,
    compress_group zlib (k, rs) = Ok (k, blob) /\
    decompress_group zlib (k, blob) = Ok (map tuple_of_record rs).
Proof.
  intros Hz Hall.
  assert (Hp : Forall (fun r => wf_record r = true /\
                               is_nan (price r) = false) rs).
  { apply Forall_forall. intros r Hr. rewrite Forall_forall in Hall.
    destruct (Hall r Hr) as (Hd & Ht & Hs & Hq & x & Hv & H10 & H500 & Ep).
    destruct (round2_uniform x Hv H10 H500) as (cents & Hc & Ec).
    pose proof (generated_price_ok Hc) as Hok.
    rewrite <- Ec, <- Ep in Hok. unfold price_ok in Hok.
    apply andb_true_iff in Hok. destruct Hok as [Hf Hn].
    apply negb_true_iff in Hn. split; [|exact Hn].
    unfold wf_record. rewrite Hd, Ht, Hs, Hq, Hf. reflexivity. }
  split.
  - apply Forall_forall. intros r Hr. rewrite Forall_forall in Hp.
    destruct (Hp r Hr) as [Hwf Hn]. split; [|exact Hn].
    destruct (wf_record_parts r Hwf) as (_ & _ & _ & _ & Hf).
    apply (scan_constant_floatstr (price r) [] Hf).
  - assert (Hwf : forallb wf_record rs = true).
    { apply forallb_forall. intros r Hr. rewrite Forall_forall in Hp.
      apply (Hp r Hr). }
    pose proof (decompress_compress_group k rs Hz Hwf) as H.
    rewrite (compress_group_wf zlib k rs Hwf) in *. cbn [bind] in H.
    eexists. split; [reflexivity | exact H].
Qed.

(** The first sample record, whose price 12.34 is [round(12.341, 2)]. *)
Lemma generated_price_is_recovered_witness :
  Forall (fun r => scan_constant (floatstr (price r) ++ [93%N]) =
                     Ok (PFloat (price r), [93%N]) /\
                   is_nan (price r) = false) (firstn 1 sample_records) /\
  exists blob,
    compress_group stored (mkdate 2023 5 1, firstn 1 sample_records) =
      Ok (mkdate 2023 5 1, blob) /\
    decompress_group stored (mkdate 2023 5 1, blob) =
      Ok (map tuple_of_record (firstn 1 sample_records)).
Proof.
  apply (@generated_price_is_recovered stored (mkdate 2023 5 1)
           (firstn 1 sample_records)).
  - exact stored_lossless.
  - repeat constructor.
    exists (float_of_decimal false 12341 (-3)).
    repeat split; vm_compute; reflexivity.
Defined.

(** X11. The program on its own data.  For every lossless [zlib], every
    number of worker processes [>= 1], whatever [random] returns within its
    documented ranges and whatever the orders in which the chunks of the
    two [pool.map] calls complete, [generate_records] followed by the
    pipeline and the verification of [main] raises nothing and the
    verification succeeds. *)
Theorem main_verifies_generated_records (zlib : zlib_module)
        (num_processes : nat) (list_of_set : list date -> list date)
        (draws : list draw) :
  zlib_lossless zlib -> (1 <= num_processes)%nat ->
  (forall s, Permutation (list_of_set s) s) ->
  forallb draw_ok draws = true ->
  exists records,
    generate_records list_of_set draws = Ok records /\
    forall order_w order_r,
      Permutation order_w
        (seq 0 (number_of_tasks num_processes (grouped_records records))) ->
      Permutation order_r
        (seq 0 (number_of_tasks num_processes (grouped_records records))) ->
      main zlib num_processes order_w order_r records = Ok true.
Proof.
  intros Hz Hp Hl Hd.
  destruct (@generate_records_ok list_of_set draws Hl Hd)
    as (records & Hg & _ & Hall).
  exists records. split; [exact Hg|]. intros order_w order_r Hw Hr.
  destruct (Forall_as_generated_wf Hall) as (Hwf & Hnan & Hint).
  rewrite (@main_outcome zlib num_processes order_w order_r records
             Hz Hwf Hp Hw Hr).
  rewrite Hint, Hnan. reflexivity.
Qed.

Lemma main_verifies_generated_records_witness :
  exists records,
    generate_records (@rev date) sample_draws = Ok records /\
    forall order_w order_r,
      Permutation order_w
        (seq 0 (number_of_tasks 2 (grouped_records records))) ->
      Permutation order_r
        (seq 0 (number_of_tasks 2 (grouped_records records))) ->
      main stored 2 order_w order_r records = Ok true.
Proof.
  apply (@main_verifies_generated_records stored 2 (@rev date) sample_draws).
  - exact stored_lossless.
  - lia.
  - exact Permutation_rev_date.
  - vm_compute. reflexivity.
Defined.
